(** * ElegantRL: replay buffers, return estimators and training loop

    A shallow embedding of [Main.py] and [BetaWarning/AgentZoo.py].

    Conventions of the embedding.
    - A [float32] tensor entry is an exact rational ([Q]); numeric results
      are compared with [==] ([Qeq]), data that is only moved around with [=].
    - A one-dimensional tensor is a [list Q] (a [row]); a two-dimensional
      tensor is a [list row].
    - What numpy, torch or Python would reject raises: the operation
      returns [None].  This covers an index out of range, a row written
      into a slot of another width, a division by zero, and a float that
      is too large for [int()].
    - The floats that decide how often a loop runs ([int(...)] of a
      product or a quotient) are binary64 floats, rounded as Python rounds
      them.
    - A random generator is an explicit stream of raw draws [nat -> nat];
      [torch.randint] reduces each draw modulo its bound.
    - The networks and the optimizer are opaque: a gradient step is an
      event of a trace. *)

From Stdlib Require Import QArith Qminmax Lqa Lia SpecFloat.
From stdpp Require Import base option list.

Abbreviation row := (list Q).

(** [np.empty((n, w))] and [torch.empty((n, w))]: an [n] by [w] array whose
    entries are whatever the memory held, given here by [junk]. *)
Definition np_empty (junk : nat → nat → Q) (n w : nat) : list row :=
  (λ i, junk i <$> seq 0 w) <$> seq 0 n.

(** [torch.randint(high, size=(size,))]: [size] draws in [[0, high)]; an
    empty range is a [RuntimeError]. *)
Definition torch_randint (rng : nat → nat) (high size : nat) : option (list nat) :=
  if 0 <? high then Some ((λ k, rng k `mod` high) <$> seq 0 size) else None.

(** [tensor[indices]]: the rows at the given indices, an error when one of
    them is out of range. *)
Definition gather (tensor : list row) (indices : list nat) : option (list row) :=
  mapM (M := option) (λ i, tensor !! i) indices.

(** Python loops over a range of indices, with a body that may raise. *)
Fixpoint for_each {S : Type} (indices : list nat) (body : S → nat → option S) (s : S)
    : option S :=
  match indices with
  | [] => Some s
  | i :: indices =>
      match body s i with
      | Some s' => for_each indices body s'
      | None => None
      end
  end.

(** [range(n)], [range(a, n)] and [range(n - 1, -1, -1)]. *)
Definition range (n : nat) : list nat := seq 0 n.
Definition range_from (a n : nat) : list nat := seq a (n - a).
Definition range_down (n : nat) : list nat := reverse (seq 0 n).

(** [a < b] on floats, as a boolean. *)
Definition Qltb (a b : Q) : bool := negb (Qle_bool b a).

(** ** binary64 floats

    The floats that Python computes before an [int(...)] that bounds a
    loop or sizes a batch, with the operations of IEEE 754 binary64 as the
    standard library specifies them. *)
Module Float64.

Definition prec : Z := 53.
Definition emax : Z := 1024.

(** [float(n)] of a Python [int], rounded to nearest even.  (Where Python
    raises [OverflowError] the result is an infinity, which no [int(...)]
    accepts.) *)
Definition of_int (n : nat) : spec_float :=
  binary_normalize prec emax (Z.of_nat n) 0 false.

(** The integer [n] as an exact mantissa, before any rounding. *)
Definition exact (n : nat) : spec_float :=
  match n with
  | 0 => S754_zero false
  | _ => S754_finite false (Pos.of_nat n) 0
  end.

(** [a / b] on two Python [int]s: the exact quotient, rounded once; a
    [ZeroDivisionError] for [b = 0]. *)
Definition true_divide (a b : nat) : option spec_float :=
  if b =? 0 then None else Some (SFdiv prec emax (exact a) (exact b)).

Definition add : spec_float → spec_float → spec_float := SFadd prec emax.
Definition mul : spec_float → spec_float → spec_float := SFmul prec emax.

(** [int(x)]: truncation towards zero; an [OverflowError] on an infinity,
    a [ValueError] on a NaN. *)
Definition to_int (x : spec_float) : option Z :=
  match x with
  | S754_zero _ => Some 0%Z
  | S754_finite s m e =>
      let magnitude :=
        match e with
        | Z0 => Zpos m
        | Zpos _ => Z.shiftl (Zpos m) e
        | Zneg _ => Z.shiftr (Zpos m) (- e)
        end in
      Some (if s then (- magnitude)%Z else magnitude)
  | S754_infinity _ | S754_nan => None
  end.

End Float64.

(** ** ReplayBufferBase *)

Module ReplayBufferBase.

Record t := mk {
  max_len : nat;
  now_len : nat;
  next_idx : nat;
  if_full : bool;
  all_state : list row;
  all_other : list row
}.

Definition update__now_len__before_sample (self : t) : t :=
  {| max_len := max_len self;
     now_len := if if_full self then max_len self else next_idx self;
     next_idx := next_idx self;
     if_full := if_full self;
     all_state := all_state self;
     all_other := all_other self |}.

Definition empty_memories__before_explore (self : t) : t :=
  {| max_len := max_len self;
     now_len := 0;
     next_idx := 0;
     if_full := false;
     all_state := all_state self;
     all_other := all_other self |}.

(** [array[i] = value] on a two-dimensional array: the slot keeps its
    width.  A value of that width is stored as it is, a value of width one
    is broadcast over the slot, and any other width is an error
    ([ValueError] in numpy, [RuntimeError] in torch); an index outside the
    array is an [IndexError]. *)
Definition assign_row (array : list row) (i : nat) (value : row) : option (list row) :=
  match array !! i with
  | None => None
  | Some slot =>
      if length value =? length slot then Some (<[i := value]> array)
      else if length value =? 1
           then Some (<[i := replicate (length slot) (hd 0%Q value)]> array)
           else None
  end.

(** [self.all_state[self.next_idx] = state; self.all_other[self.next_idx] = other]:
    the two slot writes shared by both [append_memo] methods. *)
Definition write_slot (self : t) (state other : row) : option (list row * list row) :=
  match assign_row (all_state self) (next_idx self) state with
  | None => None
  | Some states =>
      match assign_row (all_other self) (next_idx self) other with
      | None => None
      | Some others => Some (states, others)
      end
  end.

(** The entries of the ring, one per slot. *)
Definition slots (self : t) : list (row * row) :=
  zip (all_state self) (all_other self).

(** The ring read from the write cursor onwards. *)
Definition ring (self : t) : list (row * row) :=
  rotate (next_idx self) (slots self).

(** The invariant the code keeps (for a capacity above zero). *)
Record wf (cap : nat) (self : t) : Prop := {
  wf_cap : max_len self = cap;
  wf_idx : next_idx self < cap;
  wf_now : now_len self ≤ cap;
  wf_state : length (all_state self) = cap;
  wf_other : length (all_other self) = cap
}.

(** The widths the two arrays were built with. *)
Definition shaped (state_dim other_dim : nat) (self : t) : Prop :=
  Forall (λ r : row, length r = state_dim) (all_state self)
  ∧ Forall (λ r : row, length r = other_dim) (all_other self).

End ReplayBufferBase.

(** ** ReplayBufferGPU: the off-policy buffer *)

Module ReplayBufferGPU.
Import ReplayBufferBase.

(** [other_dim] of [__init__]: the width of a row of [all_other]. *)
Definition other_dim (action_dim : nat) (if_on_policy : bool) : nat :=
  if if_on_policy then 1 + 1 + action_dim * 2 else 1 + 1 + action_dim.

Definition init (junk_s junk_o : nat → nat → Q)
    (max_len state_dim action_dim : nat) (if_on_policy : bool) : t :=
  let other_dim := other_dim action_dim if_on_policy in
  {| max_len := max_len;
     now_len := 0;
     next_idx := 0;
     if_full := false;
     all_state := np_empty junk_s max_len state_dim;
     all_other := np_empty junk_o max_len other_dim |}.

Definition append_memo (self : t) (state other : row) : option t :=
  '(states, others) ← write_slot self state other;
  let next_idx := next_idx self + 1 in
  if max_len self <=? next_idx
  then Some {| max_len := max_len self; now_len := now_len self;
               next_idx := 0; if_full := true;
               all_state := states; all_other := others |}
  else Some {| max_len := max_len self; now_len := now_len self;
               next_idx := next_idx; if_full := if_full self;
               all_state := states; all_other := others |}.

Definition random_sample (rng : nat → nat) (self : t) (batch_size : nat)
    : option (list row * list row * list row * list row * list row) :=
  match torch_randint rng (now_len self - 1) batch_size with
  | None => None
  | Some indices =>
      match gather (all_other self) indices,
            gather (all_state self) indices,
            gather (all_state self) ((λ i, i + 1) <$> indices) with
      | Some r_m_a, Some state, Some next_state =>
          Some (take 1 <$> r_m_a,            (* reward *)
                (take 1 ∘ drop 1) <$> r_m_a, (* mask = 0.0 if done else gamma *)
                drop 2 <$> r_m_a,            (* action *)
                state, next_state)
      | _, _, _ => None
      end
  end.

(** The states the code can reach. *)
Inductive op :=
| Append (state other : row)
| Refresh
| Reset.

Definition step (self : t) (o : op) : option t :=
  match o with
  | Append state other => append_memo self state other
  | Refresh => Some (update__now_len__before_sample self)
  | Reset => Some (empty_memories__before_explore self)
  end.

Definition run (self : t) (ops : list op) : option t :=
  foldl (λ acc o, self ← acc; step self o) (Some self) ops.

Definition append_all (self : t) (entries : list (row * row)) : option t :=
  run self ((λ e, Append e.1 e.2) <$> entries).

Definition reachable (start self : t) : Prop :=
  ∃ ops, run start ops = Some self.

End ReplayBufferGPU.

(** ** ReplayBufferCPU: the on-policy buffer *)

Module ReplayBufferCPU.
Import ReplayBufferBase.

(** The class adds two attributes to the base: [is_full] (which is not
    the [if_full] of the base) and [action_dim]. *)
Record t := mk {
  base : ReplayBufferBase.t;
  is_full : bool;
  action_dim : nat
}.

(** [other_dim] of [__init__]: the width of a row of [all_other]. *)
Definition other_dim (action_dim : nat) : nat := 1 + 1 + action_dim * 2.

Definition init (junk_s junk_o : nat → nat → Q)
    (max_len state_dim action_dim : nat) : t :=
  let other_dim := other_dim action_dim in
  {| base := {| max_len := max_len;
                now_len := 0;
                next_idx := 0;
                if_full := false;
                all_state := np_empty junk_s max_len state_dim;
                all_other := np_empty junk_o max_len other_dim |};
     is_full := true;
     action_dim := action_dim |}.

Definition append_memo (self : t) (state other : row) : option t :=
  '(states, others) ← write_slot (base self) state other;
  let next_idx := next_idx (base self) + 1 in
  if max_len (base self) <=? next_idx
  then Some {| base := {| max_len := max_len (base self);
                          now_len := now_len (base self);
                          next_idx := 0;
                          if_full := if_full (base self);
                          all_state := states; all_other := others |};
               is_full := true;
               action_dim := action_dim self |}
  else Some {| base := {| max_len := max_len (base self);
                          now_len := now_len (base self);
                          next_idx := next_idx;
                          if_full := if_full (base self);
                          all_state := states; all_other := others |};
               is_full := is_full self;
               action_dim := action_dim self |}.

Definition update__now_len__before_sample (self : t) : t :=
  {| base := ReplayBufferBase.update__now_len__before_sample (base self);
     is_full := is_full self; action_dim := action_dim self |}.

Definition empty_memories__before_explore (self : t) : t :=
  {| base := ReplayBufferBase.empty_memories__before_explore (base self);
     is_full := is_full self; action_dim := action_dim self |}.

(** [sample_for_ppo]: the visible rows, in order, cut into columns. *)
Definition sample_for_ppo (self : t)
    : list row * list row * list row * list row * list row :=
  let all_other := take (now_len (base self)) (all_other (base self)) in
  (take 1 <$> all_other,                                   (* reward *)
   (take 1 ∘ drop 1) <$> all_other,                        (* mask *)
   (take (action_dim self) ∘ drop 2) <$> all_other,        (* action *)
   drop (2 + action_dim self) <$> all_other,               (* noise *)
   take (now_len (base self)) (all_state (base self))).    (* state *)

Inductive op :=
| Append (state other : row)
| Refresh
| Reset.

Definition step (self : t) (o : op) : option t :=
  match o with
  | Append state other => append_memo self state other
  | Refresh => Some (update__now_len__before_sample self)
  | Reset => Some (empty_memories__before_explore self)
  end.

Definition run (self : t) (ops : list op) : option t :=
  foldl (λ acc o, self ← acc; step self o) (Some self) ops.

Definition append_all (self : t) (entries : list (row * row)) : option t :=
  run self ((λ e, Append e.1 e.2) <$> entries).

Definition reachable (start self : t) : Prop :=
  ∃ ops, run start ops = Some self.

End ReplayBufferCPU.

(** ** Events of a policy update

    The networks and the optimizer are opaque; an update is observed
    through the calls it makes. *)

Inductive net := ActTarget | CriTarget.

Inductive event :=
| EvSample (batch_size : nat)          (* a batch is drawn from the buffer *)
| EvLogProb (state action : list row)  (* self.act.compute__log_prob(state, action) *)
| EvOptimizerStep                      (* self.optimizer.step() *)
| EvSoftUpdate (target : net).         (* soft_target_update(target, online) *)

Definition is_step (e : event) : bool :=
  match e with EvOptimizerStep => true | _ => false end.
Definition is_sample (e : event) : bool :=
  match e with EvSample _ => true | _ => false end.
Definition is_sync (target : net) (e : event) : bool :=
  match e, target with
  | EvSoftUpdate ActTarget, ActTarget => true
  | EvSoftUpdate CriTarget, CriTarget => true
  | _, _ => false
  end.

Definition count (p : event → bool) (trace : list event) : nat :=
  length (filter (λ e, p e = true) trace).

(** ** soft_target_update *)

Definition default_tau : Q := 5 # 1000.

(** [tau * param.data + (1.0 - tau) * target_param.data] on two tensors of
    one shape; another shape is a [RuntimeError] (broadcasting is left out). *)
Definition blend (tau : Q) (target_param param : row) : option row :=
  if length target_param =? length param
  then Some (zip_with (λ t p, tau * p + (1 - tau) * t)%Q target_param param)
  else None.

(** The loop over [zip(target.parameters(), current.parameters())]; the
    parameters left over by [zip] stay as they are. *)
Fixpoint soft_target_update (target current : list row) (tau : Q) : option (list row) :=
  match target, current with
  | target_param :: target, param :: current =>
      match blend tau target_param param with
      | Some target_param' =>
          match soft_target_update target current tau with
          | Some target' => Some (target_param' :: target')
          | None => None
          end
      | None => None
      end
  | _, _ => Some target
  end.

(** ** Actions, exploration and the collect loop of the off-policy agents *)

(** An action is an integer (discrete action space) or a vector. *)
Inductive action :=
| Discrete (a : nat)
| Continuous (a : row).

(** The action as it is written into [other]: the integer itself, or the
    entries of the vector ([*action]). *)
Definition action_entries (a : action) : row :=
  match a with
  | Discrete n => [inject_Z (Z.of_nat n)]
  | Continuous r => r
  end.

(** [tensor.clamp(lo, hi)] on one entry. *)
Definition torch_clamp (x lo hi : Q) : Q := Qmin (Qmax x lo) hi.

(** [rd.randint(high, size=(size,))]: [size] draws in [[0, high)]; a
    [ValueError] for [high <= 0]. *)
Definition rd_randint (rng : nat → nat) (high size : nat) : option (list nat) :=
  if 0 <? high then Some ((λ k, rng k `mod` high) <$> seq 0 size) else None.

(** [tensor.argmax()] over one row: the index of the first maximal entry,
    an error on an empty row.  [argmax_from best_i best i l] goes on from
    index [i] with the best entry so far. *)
Fixpoint argmax_from (best_i : nat) (best : Q) (i : nat) (l : list Q) : nat :=
  match l with
  | [] => best_i
  | x :: l =>
      if Qltb best x then argmax_from i x (S i) l
      else argmax_from best_i best (S i) l
  end.

Definition argmax (l : row) : option nat :=
  match l with
  | [] => None
  | x :: l => Some (argmax_from 0 x 1 l)
  end.

(** The loop of [update_buffer] of the off-policy agents:
    [for _ in range(max_step)], each pass selecting an action for
    [self.state], stepping the environment, appending the transition and
    moving [self.state] on (to [env.reset()] after a [done]).  The agents
    differ in the action they select ([A]) and in how it is written into
    [other] ([entries]). *)
Section OffPolicyCollect.
Context {E G A : Type}.
Variable env_reset : E → E * row.
Variable env_step : E → A → E * (row * Q * bool).
Variable select_actions : G → row → G * A.
Variable entries : A → row.

(** The environment, the generator of the policy, [self.state] and the
    buffer. *)
Record explorer := mk_explorer {
  ex_env : E;
  ex_gen : G;
  ex_state : row;
  ex_buffer : ReplayBufferBase.t
}.

Definition collect_step (reward_scale gamma : Q) (st : explorer) : option explorer :=
  let '(g, action) := select_actions (ex_gen st) (ex_state st) in
  let '(e, (next_s, reward, done)) := env_step (ex_env st) action in
  let other :=
    (reward * reward_scale)%Q :: (if done then 0%Q else gamma) :: entries action in
  match ReplayBufferGPU.append_memo (ex_buffer st) (ex_state st) other with
  | None => None
  | Some buffer =>
      let '(e, state) := if done then env_reset e else (e, next_s) in
      Some {| ex_env := e; ex_gen := g; ex_state := state; ex_buffer := buffer |}
  end.

Fixpoint collect_loop (reward_scale gamma : Q) (n : nat) (st : explorer)
    : option explorer :=
  match n with
  | 0 => Some st
  | S n =>
      match collect_step reward_scale gamma st with
      | Some st => collect_loop reward_scale gamma n st
      | None => None
      end
  end.

(** [update_buffer]: the loop, then [return max_step]. *)
Definition collect (st : explorer) (max_step : nat) (reward_scale gamma : Q)
    : option (explorer * nat) :=
  match collect_loop reward_scale gamma max_step st with
  | Some st => Some (st, max_step)
  | None => None
  end.

End OffPolicyCollect.

Module AgentBase.

(** [other = (reward * reward_scale, 0.0 if done else gamma, *action)]. *)
Definition update_buffer {E G : Type} (env_reset : E → E * row)
    (env_step : E → row → E * (row * Q * bool)) (select_actions : G → row → G * row) :=
  collect env_reset env_step select_actions (λ action : row, action).

End AgentBase.

(** ** The off-policy agents *)

(** The loop shared by the off-policy [update_policy] methods:
    [for i in range(int(max_step * repeat_times))], each pass drawing a
    batch with [buffer.random_sample], stepping the optimizer once and then
    synchronising the targets listed by [sync i].  After the loop the
    methods read [obj_critic.item()], which is an [AttributeError] on the
    [None] that is left when no pass was made. *)
Definition off_policy_body (rng : nat → nat) (buffer : ReplayBufferBase.t)
    (batch_size : nat) (sync : nat → list event)
    (trace : list event) (i : nat) : option (list event) :=
  match ReplayBufferGPU.random_sample (λ k, rng (i * batch_size + k)) buffer batch_size with
  | Some _ => Some (trace ++ [EvSample batch_size; EvOptimizerStep] ++ sync i)
  | None => None
  end.

Definition off_policy_update (sync : nat → list event) (rng : nat → nat)
    (buffer : ReplayBufferBase.t) (max_step batch_size repeat_times : nat)
    : option (ReplayBufferBase.t * list event) :=
  let buffer := ReplayBufferBase.update__now_len__before_sample buffer in
  match for_each (range (max_step * repeat_times))
                 (off_policy_body rng buffer batch_size sync) [] with
  | Some trace =>
      if max_step * repeat_times =? 0 then None (* obj_critic is None *)
      else Some (buffer, trace)
  | None => None
  end.

Module AgentDQN.
Definition update_policy := off_policy_update (λ _, [EvSoftUpdate ActTarget]).

Definition explore_rate : Q := 1 # 10.

(** [select_actions]: [u] is the draw of [rd.rand()], [act] the Q-values
    the network gives for one state. *)
Definition select_actions (act : row → row) (explore_rate : Q) (action_dim : nat)
    (u : Q) (rng : nat → nat) (states : list row) : option (list nat) :=
  if Qltb u explore_rate then rd_randint rng action_dim (length states)
  else mapM (M := option) (λ state, argmax (act state)) states.

(** [other = (reward * reward_scale, 0.0 if done else gamma, action)]. *)
Definition update_buffer {E G : Type} (env_reset : E → E * row)
    (env_step : E → nat → E * (row * Q * bool)) (select_actions : G → row → G * nat) :=
  collect env_reset env_step select_actions (λ action : nat, [inject_Z (Z.of_nat action)]).
End AgentDQN.

Module AgentDoubleDQN.
Definition update_policy := off_policy_update (λ _, [EvSoftUpdate ActTarget]).
End AgentDoubleDQN.

Module AgentD3QN.
Definition update_policy := AgentDoubleDQN.update_policy.
End AgentD3QN.

Module AgentDDPG.
Definition update_policy :=
  off_policy_update (λ _, [EvSoftUpdate CriTarget; EvSoftUpdate ActTarget]).

Definition explore_noise : Q := 5 # 100.

(** [select_actions]: [act] is the action the network gives for one state,
    [randn i j] the draw of [torch.randn_like] for entry [j] of state [i]. *)
Definition select_actions (act : row → row) (explore_noise : Q) (randn : nat → nat → Q)
    (states : list row) : list row :=
  imap (λ i state,
          imap (λ j a, torch_clamp (a + randn i j * explore_noise) (-1) 1) (act state))
       states.
End AgentDDPG.

Module AgentTD3.
Definition update_freq : nat := 2.
Definition update_policy :=
  off_policy_update
    (λ i, if i `mod` update_freq =? 0
          then [EvSoftUpdate CriTarget; EvSoftUpdate ActTarget] else []).
End AgentTD3.

Module AgentSAC.
Definition update_policy :=
  off_policy_update (λ _, [EvSoftUpdate CriTarget; EvSoftUpdate ActTarget]).
End AgentSAC.

Module AgentModSAC.

(** One pass of [for update_c in range(1, train_steps)].  [lamb update_c] is
    the value of [np.exp(-self.obj_c ** 2)] in that pass. *)
Definition body (rng : nat → nat) (lamb : nat → Q) (buffer : ReplayBufferBase.t)
    (batch_size_ : nat) (acc : list event * nat) (update_c : nat)
    : option (list event * nat) :=
  let '(trace, update_a) := acc in
  match ReplayBufferGPU.random_sample (λ k, rng (update_c * batch_size_ + k))
                                      buffer batch_size_ with
  | Some _ =>
      let if_update_a :=
        Qltb (inject_Z (Z.of_nat update_a) / inject_Z (Z.of_nat update_c))%Q
             (1 / (2 - lamb update_c))%Q in
      Some (trace ++ [EvSample batch_size_; EvOptimizerStep; EvSoftUpdate CriTarget]
                  ++ (if if_update_a then [EvSoftUpdate ActTarget] else []),
            if if_update_a then update_a + 1 else update_a)
  | None => None
  end.

(** [k = 1.0 + buffer.now_len / buffer.max_len]. *)
Definition scale (buffer : ReplayBufferBase.t) : option spec_float :=
  match Float64.true_divide (ReplayBufferBase.now_len buffer)
                            (ReplayBufferBase.max_len buffer) with
  | Some q => Some (Float64.add (Float64.of_int 1) q)
  | None => None
  end.

(** [batch_size_ = int(batch_size * k)]. *)
Definition batch_size_ (buffer : ReplayBufferBase.t) (batch_size : nat) : option nat :=
  match scale buffer with
  | Some k =>
      match Float64.to_int (Float64.mul (Float64.of_int batch_size) k) with
      | Some z => Some (Z.to_nat z)
      | None => None
      end
  | None => None
  end.

(** [train_steps = int(max_step * k * repeat_times)]. *)
Definition train_steps (buffer : ReplayBufferBase.t) (max_step repeat_times : nat)
    : option nat :=
  match scale buffer with
  | Some k =>
      match Float64.to_int
              (Float64.mul (Float64.mul (Float64.of_int max_step) k)
                           (Float64.of_int repeat_times)) with
      | Some z => Some (Z.to_nat z)
      | None => None
      end
  | None => None
  end.

Definition update_policy (rng : nat → nat) (lamb : nat → Q)
    (buffer : ReplayBufferBase.t) (max_step batch_size repeat_times : nat)
    : option (ReplayBufferBase.t * list event) :=
  let buffer := ReplayBufferBase.update__now_len__before_sample buffer in
  match batch_size_ buffer batch_size, train_steps buffer max_step repeat_times with
  | Some batch_size_, Some train_steps =>
      match for_each (range_from 1 train_steps) (body rng lamb buffer batch_size_) ([], 0) with
      | Some (trace, _) => Some (buffer, trace)
      | None => None
      end
  | _, _ => None
  end.

End AgentModSAC.

(** ** The on-policy agents *)

(** [torch.empty(n)]: [n] entries of whatever the memory held. *)
Definition torch_empty (junk : nat → Q) (n : nat) : list Q := junk <$> seq 0 n.

Module AgentPPO.

Definition clip : Q := 25 # 100.

(** *** Trajectory using reverse reward *)

(** One pass of [for i in range(max_memo - 1, -1, -1)]:
    [all__old_v[i] = all_reward[i] + all_mask[i] * prev_old_v;
     prev_old_v = all__old_v[i]]. *)
Definition old_v_body (all_reward all_mask : list Q)
    (acc : list Q * Q) (i : nat) : option (list Q * Q) :=
  let '(all__old_v, prev_old_v) := acc in
  match all_reward !! i, all_mask !! i with
  | Some r, Some m =>
      if i <? length all__old_v
      then let v := (r + m * prev_old_v)%Q in Some (<[i := v]> all__old_v, v)
      else None
  | _, _ => None
  end.

Definition get__old_v (junk : nat → Q) (all_reward all_mask : list Q) (max_memo : nat)
    : option (list Q) :=
  match for_each (range_down max_memo) (old_v_body all_reward all_mask)
                 (torch_empty junk max_memo, 0%Q) with
  | Some (all__old_v, _) => Some all__old_v
  | None => None
  end.

(** *** Surrogate objective of Trust Region, one entry of the batch *)

(** [x.clamp(lo, hi)]. *)
Definition clamp (x lo hi : Q) : Q := Qmin (Qmax x lo) hi.

Definition obj_surrogate1 (advantage ratio : Q) : Q := advantage * ratio.

Definition obj_surrogate2 (clip advantage ratio : Q) : Q :=
  advantage * clamp ratio (1 - clip) (1 + clip).

(** [torch.min(obj_surrogate1, obj_surrogate2)]. *)
Definition surrogate (clip advantage ratio : Q) : Q :=
  Qmin (obj_surrogate1 advantage ratio) (obj_surrogate2 clip advantage ratio).

(** *** update_buffer *)

Section Collect.
Context {E G : Type}.
(** [env.reset()] and [env.step(action)], as functions of the state of the
    environment; a step gives [next_state, reward, done]. *)
Variable env_reset : E → E * row.
Variable env_step : E → row → E * (row * Q * bool).
(** [self.act.get__action_noise] on one state, with its generator. *)
Variable get__action_noise : G → row → G * (row * row).
Variable tanh : Q → Q.

Definition np_tanh (action : row) : row := tanh <$> action.

Definition select_actions (g : G) (state : row) : G * (row * row) :=
  get__action_noise g state.

(** The variables of [update_buffer]. *)
Record collect := mk_collect {
  env : E;
  gen : G;
  buffer : ReplayBufferCPU.t;
  step_counter : nat
}.

(** [for _ in range(max_step)], [n] passes left. *)
Fixpoint episode (reward_scale gamma : Q) (n : nat) (state : row) (st : collect)
    : option collect :=
  match n with
  | 0 => Some st
  | S n =>
      let '(g, (action, noise)) := select_actions (gen st) state in
      let '(e, (next_state, reward, done)) := env_step (env st) (np_tanh action) in
      let other :=
        (reward * reward_scale)%Q :: (if done then 0%Q else gamma) :: action ++ noise in
      match ReplayBufferCPU.append_memo (buffer st) state other with
      | None => None
      | Some buffer =>
          let st := {| env := e; gen := g; buffer := buffer;
                       step_counter := step_counter st + 1 |} in
          if done then Some st else episode reward_scale gamma n next_state st
      end
  end.

(** [while step_counter < target_step]; [None] also when [fuel] runs out. *)
Fixpoint explore (fuel max_step target_step : nat) (reward_scale gamma : Q) (st : collect)
    : option collect :=
  match fuel with
  | 0 => None
  | S fuel =>
      if step_counter st <? target_step
      then
        let '(e, state) := env_reset (env st) in
        match episode reward_scale gamma max_step state
                {| env := e; gen := gen st; buffer := buffer st;
                   step_counter := step_counter st |} with
        | Some st => explore fuel max_step target_step reward_scale gamma st
        | None => None
        end
      else Some st
  end.

Definition update_buffer (fuel : nat) (e : E) (g : G) (buffer : ReplayBufferCPU.t)
    (max_step : nat) (reward_scale gamma : Q) : option collect :=
  let buffer := ReplayBufferCPU.empty_memories__before_explore buffer in
  let target_step := ReplayBufferBase.max_len (ReplayBufferCPU.base buffer) - max_step in
  explore fuel max_step target_step reward_scale gamma
    {| env := e; gen := g; buffer := buffer; step_counter := 0 |}.

End Collect.

(** *** update_policy *)

(** [int(repeat_times * max_memo / batch_size)]. *)
Definition sample_times (repeat_times max_memo batch_size : nat) : option nat :=
  match Float64.true_divide (repeat_times * max_memo) batch_size with
  | Some q =>
      match Float64.to_int q with
      | Some z => Some (Z.to_nat z)
      | None => None
      end
  | None => None
  end.

(** One pass of [for _ in range(int(repeat_times * max_memo / batch_size))]. *)
Definition update_body (rng : nat → nat) (all_state all_action : list row)
    (max_memo batch_size : nat) (trace : list event) (k : nat) : option (list event) :=
  match torch_randint (λ j, rng (k * batch_size + j)) max_memo batch_size with
  | Some indices =>
      match gather all_state indices, gather all_action indices with
      | Some state, Some action =>
          Some (trace ++ [EvSample batch_size; EvLogProb state action; EvOptimizerStep])
      | _, _ => None
      end
  | None => None
  end.

(** The returns and advantages computed before the loop are [get__old_v]
    above; here is what the method does with the buffer and the networks.
    After the loop it reads [obj_actor.item()], an [AttributeError] on the
    [None] that is left when no pass was made. *)
Definition update_policy (rng : nat → nat) (buffer : ReplayBufferCPU.t)
    (_max_step batch_size repeat_times : nat)
    : option (ReplayBufferCPU.t * list event) :=
  let buffer := ReplayBufferCPU.update__now_len__before_sample buffer in
  let max_memo := ReplayBufferBase.now_len (ReplayBufferCPU.base buffer) in
  let '(_, _, all_action, _, all_state) := ReplayBufferCPU.sample_for_ppo buffer in
  if length all_state =? 0 then None (* torch.cat of an empty list *) else
  match sample_times repeat_times max_memo batch_size with
  | None => None (* ZeroDivisionError *)
  | Some sample_times =>
      match for_each (range sample_times)
                     (update_body rng all_state all_action max_memo batch_size) [] with
      | Some trace =>
          if sample_times =? 0 then None (* obj_actor is None *)
          else Some (buffer, trace)
      | None => None
      end
  end.

End AgentPPO.

Module AgentGaePPO.

Definition lambda_adv : Q := 98 # 100.

(** One pass of [for i in range(max_memo - 1, -1, -1)] of the GAE variant. *)
Definition adv_v_body (lambda_adv : Q) (all_reward all_mask all__new_v : list Q)
    (acc : list Q * list Q * Q * Q) (i : nat) : option (list Q * list Q * Q * Q) :=
  let '(all__old_v, all__adv_v, prev_old_v, prev_gae_v) := acc in
  match all_reward !! i, all_mask !! i, all__new_v !! i with
  | Some r, Some m, Some v =>
      if (i <? length all__old_v) && (i <? length all__adv_v)
      then
        let old_v := (r + m * prev_old_v)%Q in
        let adv_v := (r + m * prev_gae_v - v)%Q in
        Some (<[i := old_v]> all__old_v, <[i := adv_v]> all__adv_v,
              old_v, (v + adv_v * lambda_adv)%Q)
      else None
  | _, _, _ => None
  end.

(** [all__old_v] and [all__adv_v] (before the division by its std). *)
Definition get__adv_v (junk_o junk_a : nat → Q) (lambda_adv : Q)
    (all_reward all_mask all__new_v : list Q) (max_memo : nat)
    : option (list Q * list Q) :=
  match for_each (range_down max_memo)
                 (adv_v_body lambda_adv all_reward all_mask all__new_v)
                 (torch_empty junk_o max_memo, torch_empty junk_a max_memo, 0%Q, 0%Q) with
  | Some (all__old_v, all__adv_v, _, _) => Some (all__old_v, all__adv_v)
  | None => None
  end.

(** The loop of the update is the one of [AgentPPO]. *)
Definition update_policy := AgentPPO.update_policy.

End AgentGaePPO.

(** ** Evaluator and the training loop *)

Module Evaluator.

(** [r_max] is [None] for [-np.inf]. *)
Record t := mk {
  r_max : option Q;
  total_step : nat;
  target_reward : Q;
  used_time : option nat
}.

Definition init (target_reward : Q) : t :=
  {| r_max := None; total_step := 0; target_reward := target_reward; used_time := None |}.

(** [bool(self.r_max > self.target_reward)]: what the evaluator itself
    calls [if_solve]. *)
Definition solved (self : t) : bool :=
  match r_max self with
  | Some m => Qltb (target_reward self) m
  | None => false
  end.

(** [r_avg] is the average return of the evaluation episodes and [now] the
    clock; the result is [if_save]. *)
Definition evaluate_and_save (self : t) (now : nat) (r_avg : Q) (steps : nat) : t * bool :=
  let if_save := match r_max self with Some m => Qltb m r_avg | None => true end in
  let r_max := if if_save then Some r_avg else r_max self in
  let self := {| r_max := r_max; total_step := total_step self + steps;
                 target_reward := target_reward self; used_time := used_time self |} in
  let if_solve := solved self in
  let used_time :=
    match used_time self with
    | None => if if_solve then Some now else None
    | Some u => Some u
    end in
  ({| r_max := Evaluator.r_max self; total_step := total_step self;
      target_reward := target_reward self; used_time := used_time |}, if_save).

End Evaluator.

Module Main.

(** *** explore_before_train and get_episode_return *)

Section Environment.
Context {E : Type}.
Variable env_reset : E → E * row.
Variable env_step : E → action → E * (row * Q * bool).

(** The action of pass [k] of the warm-up: [rd.randint(action_dim)] or
    [rd.uniform(-1, 1, size=action_dim)], whose draws [uniform] gives. *)
Definition random_action (if_discrete : bool) (action_dim : nat)
    (rng : nat → nat) (uniform : nat → Q) (k : nat) : option action :=
  if if_discrete
  then if 0 <? action_dim then Some (Discrete (rng k `mod` action_dim)) else None
  else Some (Continuous ((λ j, uniform (k * action_dim + j)) <$> seq 0 action_dim)).

(** The variables of [explore_before_train]. *)
Record warmup := mk_warmup {
  wu_env : E;
  wu_state : row;
  wu_steps : nat;
  wu_buffer : ReplayBufferBase.t
}.

(** [while steps < target_step]; [None] also when [fuel] runs out. *)
Fixpoint explore_loop (fuel : nat) (if_discrete : bool) (action_dim : nat)
    (rng : nat → nat) (uniform : nat → Q) (target_step : nat) (reward_scale gamma : Q)
    (st : warmup) : option warmup :=
  match fuel with
  | 0 => None
  | S fuel =>
      if wu_steps st <? target_step
      then
        match random_action if_discrete action_dim rng uniform (wu_steps st) with
        | None => None
        | Some action =>
            let '(e, (next_state, reward, done)) := env_step (wu_env st) action in
            let steps := wu_steps st + 1 in
            let scaled_reward := (reward * reward_scale)%Q in
            let mask := if done then 0%Q else gamma in
            let other := scaled_reward :: mask :: action_entries action in
            match ReplayBufferGPU.append_memo (wu_buffer st) (wu_state st) other with
            | None => None
            | Some buffer =>
                let '(e, state) := if done then env_reset e else (e, next_state) in
                explore_loop fuel if_discrete action_dim rng uniform target_step
                  reward_scale gamma
                  {| wu_env := e; wu_state := state; wu_steps := steps;
                     wu_buffer := buffer |}
            end
        end
      else Some st
  end.

(** The result holds what the function returns ([wu_steps]) and what it
    leaves behind. *)
Definition explore_before_train (fuel : nat) (if_discrete : bool) (action_dim : nat)
    (rng : nat → nat) (uniform : nat → Q) (e : E) (buffer : ReplayBufferBase.t)
    (target_step : nat) (reward_scale gamma : Q) : option warmup :=
  let '(e, state) := env_reset e in
  explore_loop fuel if_discrete action_dim rng uniform target_step reward_scale gamma
    {| wu_env := e; wu_state := state; wu_steps := 0; wu_buffer := buffer |}.

(** [for _ in range(max_step)] of [get_episode_return], [n] passes left. *)
Fixpoint evaluate_loop (act : row → row) (if_discrete : bool) (n : nat)
    (e : E) (state : row) (episode_return : Q) : option (E * Q) :=
  match n with
  | 0 => Some (e, episode_return)
  | S n =>
      let a_tensor := act state in
      match (if if_discrete then Discrete <$> argmax a_tensor
             else Some (Continuous a_tensor)) with
      | None => None
      | Some action =>
          let '(e, (state, reward, done)) := env_step e action in
          let episode_return := (episode_return + reward)%Q in
          if done then Some (e, episode_return)
          else evaluate_loop act if_discrete n e state episode_return
      end
  end.

(** [env_max_step] and [env_episode_return] are the attributes
    [env.max_step] and [env.episode_return], [None] when the environment has
    none.  The result is the environment and the value returned. *)
Definition get_episode_return (env_max_step : option nat)
    (env_episode_return : option (E → Q)) (if_discrete : bool) (act : row → row) (e : E)
    : option (E * Q) :=
  let max_step := default (2 ^ 10) env_max_step in
  let '(e, state) := env_reset e in
  match evaluate_loop act if_discrete max_step e state 0%Q with
  | Some (e, episode_return) =>
      Some (e,
            match env_episode_return with
            | Some attribute => attribute e
            | None => episode_return
            end)
  | None => None
  end.

End Environment.

(** *** train_and_evaluate *)

(** What the loop of [train_and_evaluate] sees of the rest, pass by pass:
    the steps [agent.update_buffer] returns, the average return the
    evaluator measures, whether the file [cwd/stop] exists when the loop
    condition is read, and the clock. *)
Record world := mk_world {
  steps_of : nat → nat;
  r_avg_of : nat → Q;
  stop_exists : nat → bool;
  clock : nat → nat
}.

(** The variables of the loop; [passes] counts its passes. *)
Record loop := mk_loop {
  total_step : nat;
  if_solve : bool;
  evaluator : Evaluator.t;
  passes : nat
}.

(** [(if_break_early and if_solve) or total_step > break_step
     or os.path.exists(f'{cwd}/stop')]. *)
Definition stop_condition (if_break_early : bool) (break_step : nat) (w : world)
    (st : loop) : bool :=
  (if_break_early && if_solve st)
  || (break_step <? total_step st)
  || stop_exists w (passes st).

Definition loop_body (w : world) (st : loop) : loop :=
  let steps := steps_of w (passes st) in
  let total_step := total_step st + steps in
  let '(evaluator, _) :=
    Evaluator.evaluate_and_save (evaluator st) (clock w (passes st))
                                (r_avg_of w (passes st)) steps in
  {| total_step := total_step; if_solve := if_solve st;
     evaluator := evaluator; passes := passes st + 1 |}.

(** [while not (...)]; [None] when [fuel] runs out. *)
Fixpoint train_loop (fuel : nat) (if_break_early : bool) (break_step : nat) (w : world)
    (st : loop) : option loop :=
  match fuel with
  | 0 => None
  | S fuel =>
      if stop_condition if_break_early break_step w st then Some st
      else train_loop fuel if_break_early break_step w (loop_body w st)
  end.

(** [steps] is what the warm-up left in [total_step] ([0] on-policy). *)
Definition train_and_evaluate (fuel : nat) (if_break_early : bool) (break_step : nat)
    (target_reward : Q) (w : world) (steps : nat) : option loop :=
  train_loop fuel if_break_early break_step w
    {| total_step := steps; if_solve := false;
       evaluator := Evaluator.init target_reward; passes := 0 |}.

End Main.

(** ** Vocabulary of the statements *)

(** Pointwise equality of tensors of floats. *)
Definition Qlist_eq : list Q → list Q → Prop := Forall2 Qeq.

(** A buffer of capacity [cap] that holds the stream [entries]: entry [k]
    sits in slot [k mod cap] as long as fewer than [cap] entries came after
    it, and the cursor is where the next entry goes. *)
Definition holds (cap : nat) (entries : list (row * row)) (b : ReplayBufferBase.t) : Prop :=
  ReplayBufferBase.wf cap b
  ∧ ReplayBufferBase.next_idx b = length entries `mod` cap
  ∧ ∀ k, k < length entries → length entries ≤ k + cap →
      ReplayBufferBase.slots b !! (k `mod` cap) = entries !! k.

(** The rows of a stream have the widths of the arrays. *)
Definition rows_shaped (state_dim other_dim : nat) (entries : list (row * row)) : Prop :=
  Forall (λ e : row * row, length e.1 = state_dim ∧ length e.2 = other_dim) entries.


(** The states of a buffer of capacity [cap], of the off-policy class and
    of either class, that construction, append, refresh and reset can lead
    to. *)
Definition reachable_buffer_gpu (cap : nat) (b : ReplayBufferBase.t) : Prop :=
  ∃ junk_s junk_o state_dim action_dim if_on_policy,
    ReplayBufferGPU.reachable
      (ReplayBufferGPU.init junk_s junk_o cap state_dim action_dim if_on_policy) b.

Definition reachable_buffer_cpu (cap : nat) (c : ReplayBufferCPU.t) : Prop :=
  ∃ junk_s junk_o state_dim action_dim,
    ReplayBufferCPU.reachable
      (ReplayBufferCPU.init junk_s junk_o cap state_dim action_dim) c.


(** The recursions of the return estimator as the specification words
    them, to compare the loops with.  [plain_return]: the return of the last
    step is its reward (a return of [0] follows it), the return of step [i]
    is [reward[i] + mask[i] * R[i+1]]. *)
Fixpoint plain_return (reward mask : list Q) : list Q :=
  match reward, mask with
  | r :: reward, m :: mask =>
      let R := plain_return reward mask in
      (r + m * hd 0 R)%Q :: R
  | _, _ => []
  end.

(** [gae]: the advantages [A[i] = reward[i] + mask[i] * prev - V[i]] and
    the value of [prev = V[i] + A[i] * lambda] after the first step, [prev]
    being [0] behind the last step. *)
Fixpoint gae (lambda : Q) (reward mask value : list Q) : list Q * Q :=
  match reward, mask, value with
  | r :: reward, m :: mask, v :: value =>
      let '(A, prev) := gae lambda reward mask value in
      let a := (r + m * prev - v)%Q in
      (a :: A, (v + a * lambda)%Q)
  | _, _, _ => ([], 0%Q)
  end.

(** The one-step residual [reward[i] + mask[i] * V[i+1] - V[i]], with a
    value of [0] behind the last step. *)
Fixpoint td_residual (reward mask value : list Q) : list Q :=
  match reward, mask, value with
  | r :: reward, m :: mask, v :: value =>
      (r + m * hd 0 value - v)%Q :: td_residual reward mask value
  | _, _, _ => []
  end.

(** What a call of [update_policy] did: it returned, after [steps] passes
    that each drew one batch and stepped the optimizer once, with
    [sync_act] synchronisations of the actor target and [sync_cri] of the
    critic target. *)
Definition performs {B : Type} (result : option (B * list event))
    (steps sync_act sync_cri : nat) : Prop :=
  ∃ buffer trace,
    result = Some (buffer, trace)
    ∧ count is_step trace = steps
    ∧ count is_sample trace = steps
    ∧ count (is_sync ActTarget) trace = sync_act
    ∧ count (is_sync CriTarget) trace = sync_cri.

(** The trace of a loop over [indices] whose pass [i] leaves the events
    [pass i]. *)
Definition passes (indices : list nat) (pass : nat → list event) : list event :=
  concat (pass <$> indices).

(** A pass of [AgentModSAC]: a batch of [batch_size_], one optimizer step,
    the critic target, and the actor target when the pass updates the
    actor. *)
Definition modsac_pass (batch_size_ : nat) (if_update_a : nat → bool) (update_c : nat)
    : list event :=
  [EvSample batch_size_; EvOptimizerStep; EvSoftUpdate CriTarget]
  ++ (if if_update_a update_c then [EvSoftUpdate ActTarget] else []).

(** A pass of [AgentPPO]: a batch, the log-probability of its actions, one
    optimizer step. *)
Definition ppo_pass (batch_size : nat) (state action : list row) : list event :=
  [EvSample batch_size; EvLogProb state action; EvOptimizerStep].

(** One step of the collect phase of [AgentPPO], as the policy and the
    environment see it: the generator, the environment and the state before
    the step, the action and the noise that [get__action_noise] returns, and
    what [env.step] returns. *)
Record ppo_step {E G : Type} := mk_ppo_step {
  ps_env : E;
  ps_gen : G;
  ps_state : row;
  ps_action : row;
  ps_noise : row;
  ps_env' : E;
  ps_gen' : G;
  ps_next_state : row;
  ps_reward : Q;
  ps_done : bool
}.
Arguments ppo_step : clear implicits.

(** The steps of a collect phase that starts from the environment [e] and
    the generator [g]: at each step the policy is asked for an action on the
    state of the step and the environment receives the [tanh] of that
    action; the first step starts from [env.reset()]; a step that follows
    another takes the generator where that one left it and either goes on
    from its next state (only when the episode was not done) or starts again
    from [env.reset()]. *)
Definition ppo_trajectory {E G : Type}
    (env_reset : E → E * row) (env_step : E → row → E * (row * Q * bool))
    (get__action_noise : G → row → G * (row * row)) (tanh : Q → Q)
    (e : E) (g : G) (steps : list (ppo_step E G)) : Prop :=
  (∀ k s, steps !! k = Some s →
      get__action_noise (ps_gen s) (ps_state s) = (ps_gen' s, (ps_action s, ps_noise s))
      ∧ env_step (ps_env s) (tanh <$> ps_action s)
        = (ps_env' s, (ps_next_state s, ps_reward s, ps_done s)))
  ∧ (∀ s, steps !! 0 = Some s → env_reset e = (ps_env s, ps_state s) ∧ ps_gen s = g)
  ∧ (∀ k s s', steps !! k = Some s → steps !! S k = Some s' →
      ps_gen s' = ps_gen' s
      ∧ ((ps_done s = false ∧ ps_env s' = ps_env' s ∧ ps_state s' = ps_next_state s)
         ∨ env_reset (ps_env' s) = (ps_env s', ps_state s'))).

(** The row of the buffer for a step: its state, and behind the scaled
    reward and the mask the action as sampled, then its noise. *)
Definition ppo_row {E G : Type} (reward_scale gamma : Q) (s : ppo_step E G) : row * row :=
  (ps_state s,
   (ps_reward s * reward_scale)%Q :: (if ps_done s then 0%Q else gamma)
     :: ps_action s ++ ps_noise s).

(** The invariant of the collect loop of [AgentPPO]. *)
Section CollectInvariant.
Context {E G : Type}.
Variable env_reset : E → E * row.
Variable env_step : E → row → E * (row * Q * bool).
Variable get__action_noise : G → row → G * (row * row).
Variable tanh : Q → Q.
Variables cap state_dim action_dim : nat.
Variable e0 : E.
Variable g0 : G.
Variables reward_scale gamma : Q.

(** The variables of [update_buffer] after the steps [steps]. *)
Definition collecting (steps : list (ppo_step E G)) (st : AgentPPO.collect (E := E) (G := G))
    : Prop :=
  holds cap (ppo_row reward_scale gamma <$> steps)
        (ReplayBufferCPU.base (AgentPPO.buffer st))
  ∧ ReplayBufferBase.shaped state_dim (ReplayBufferCPU.other_dim action_dim)
                            (ReplayBufferCPU.base (AgentPPO.buffer st))
  ∧ ReplayBufferBase.if_full (ReplayBufferCPU.base (AgentPPO.buffer st)) = false
  ∧ ReplayBufferCPU.action_dim (AgentPPO.buffer st) = action_dim
  ∧ AgentPPO.step_counter st = length steps
  ∧ length steps < cap
  ∧ ppo_trajectory env_reset env_step get__action_noise tanh e0 g0 steps.

(** Where the next step may start from, inside an episode and between
    two episodes. *)
Definition ready (steps : list (ppo_step E G)) (e : E) (g : G) (state : row) : Prop :=
  length state = state_dim
  ∧ match last steps with
    | None => env_reset e0 = (e, state) ∧ g = g0
    | Some p =>
        g = ps_gen' p
        ∧ ((ps_done p = false ∧ e = ps_env' p ∧ state = ps_next_state p)
           ∨ env_reset (ps_env' p) = (e, state))
    end.

Definition resting (steps : list (ppo_step E G)) (e : E) (g : G) : Prop :=
  match last steps with
  | None => e = e0 ∧ g = g0
  | Some p => e = ps_env' p ∧ g = ps_gen' p
  end.

End CollectInvariant.

(** The action of the actor on a state in an evaluation: the first index
    of the largest output when actions are discrete, the output itself
    otherwise. *)
Definition actor_action (act : row → row) (if_discrete : bool) (state : row) (a : action)
    : Prop :=
  if if_discrete
  then ∃ i qi, a = Discrete i ∧ act state !! i = Some qi
               ∧ ∀ j q, act state !! j = Some q →
                   (q <= qi)%Q ∧ (j < i → (q < qi)%Q)
  else a = Continuous (act state).

(** An evaluation episode of [n] steps at most, as the environment sees
    it: from the state [state] in the environment [e], each step gives the
    action of the actor to [env.step]; [rewards] are the rewards returned,
    in order, up to the first [done] or the [n]-th step, and [e'] is the
    environment that is left. *)
Inductive evaluation {E : Type} (env_step : E → action → E * (row * Q * bool))
    (act : row → row) (if_discrete : bool) : nat → E → row → list Q → E → Prop :=
| evaluation_budget e state :
    evaluation env_step act if_discrete 0 e state [] e
| evaluation_done n e state a e' state' reward :
    actor_action act if_discrete state a →
    env_step e a = (e', (state', reward, true)) →
    evaluation env_step act if_discrete (S n) e state [reward] e'
| evaluation_more n e state a e' state' reward rewards e'' :
    actor_action act if_discrete state a →
    env_step e a = (e', (state', reward, false)) →
    evaluation env_step act if_discrete n e' state' rewards e'' →
    evaluation env_step act if_discrete (S n) e state (reward :: rewards) e''.

(** The appends a sequence of operations has made since its last reset. *)
Definition appended_gpu (ops : list ReplayBufferGPU.op) : nat :=
  foldl (λ n o, match o with
                | ReplayBufferGPU.Append _ _ => S n
                | ReplayBufferGPU.Refresh => n
                | ReplayBufferGPU.Reset => 0
                end) 0 ops.


(** [n] calls of [soft_target_update] on one online network. *)
Fixpoint soft_target_updates (n : nat) (target current : list row) (tau : Q)
    : option (list row) :=
  match n with
  | 0 => Some target
  | S n =>
      match soft_target_update target current tau with
      | Some target => soft_target_updates n target current tau
      | None => None
      end
  end.

(** [q] to the power [n]. *)
Definition Qpow (q : Q) (n : nat) : Q := Nat.iter n (Qmult q) 1%Q.

(** The return of the first step written as a sum from the front:
    [reward[0] + mask[0] * reward[1] + mask[0] * mask[1] * reward[2] + ...],
    [weight] being the product of the masks passed. *)
Fixpoint discounted_sum (weight : Q) (reward mask : list Q) : Q :=
  match reward, mask with
  | r :: reward, m :: mask => (weight * r + discounted_sum (weight * m) reward mask)%Q
  | _, _ => 0%Q
  end.

(** The sum of a list of floats. *)
Definition Qsum (l : list Q) : Q := foldr Qplus 0%Q l.

(** A run of evaluations, each with its clock, average return and steps. *)
Definition evaluations (self : Evaluator.t) (runs : list (nat * Q * nat)) : Evaluator.t :=
  foldl (λ self '(now, r_avg, steps), (Evaluator.evaluate_and_save self now r_avg steps).1)
        self runs.

(** The five tensors [sample_for_ppo] cuts out of a list of entries, for
    actions of width [width]. *)
Definition ppo_columns (width : nat) (entries : list (row * row))
    : list row * list row * list row * list row * list row :=
  (take 1 <$> entries.*2,
   (take 1 ∘ drop 1) <$> entries.*2,
   (take width ∘ drop 2) <$> entries.*2,
   drop (2 + width) <$> entries.*2,
   entries.*1).

(** * Properties *)

(** ** Arithmetic of the cursor *)

Lemma mod_succ_wrap n c :
  0 < c → (n + 1) `mod` c = if c <=? n `mod` c + 1 then 0 else n `mod` c + 1.
Proof.
  intros Hc.
  pose proof (Nat.div_mod_eq n c) as Hn.
  pose proof (Nat.mod_upper_bound n c ltac:(lia)) as Hr.
  destruct (Nat.leb_spec c (n `mod` c + 1)).
  - symmetry. apply (Nat.mod_unique _ _ (n `div` c + 1)); lia.
  - symmetry. apply (Nat.mod_unique _ _ (n `div` c)); lia.
Qed.

Lemma mod_neq_near k n c : k < n → n < k + c → k `mod` c ≠ n `mod` c.
Proof.
  intros Hk Hn Heq.
  pose proof (Nat.div_mod_eq k c) as Ek.
  pose proof (Nat.div_mod_eq n c) as En.
  rewrite Heq in Ek.
  assert (k `div` c < n `div` c) by nia.
  nia.
Qed.

Lemma mod_shift n c i : c ≤ n → (n - c + i) `mod` c = (n `mod` c + i) `mod` c.
Proof.
  intros Hc.
  destruct (decide (c = 0)) as [->|Hne]; [simpl; lia|].
  rewrite Nat.Div0.add_mod_idemp_l.
  replace (n + i) with ((n - c + i) + 1 * c) by lia.
  by rewrite Nat.Div0.mod_add.
Qed.

(** ** The ring *)

Section Ring.
Import ReplayBufferBase.

Lemma assign_row_same (w : nat) (array : list row) i (value : row) :
  Forall (λ r : row, length r = w) array → i < length array → length value = w →
  assign_row array i value = Some (<[i := value]> array).
Proof.
  intros Hw Hi Hv. unfold assign_row.
  destruct (lookup_lt_is_Some_2 array i Hi) as [slot Hslot]. rewrite Hslot.
  rewrite Forall_lookup in Hw. rewrite (Hw i slot Hslot), Hv, Nat.eqb_refl. done.
Qed.

(** Whatever is written, the array keeps its length and its widths. *)
Lemma assign_row_Some (array : list row) i (value : row) array' :
  assign_row array i value = Some array' →
  i < length array
  ∧ length array' = length array
  ∧ ∀ w, Forall (λ r : row, length r = w) array → Forall (λ r : row, length r = w) array'.
Proof.
  unfold assign_row. destruct (array !! i) as [slot|] eqn:Hslot; [|done].
  intros Hrun. split; [by eapply lookup_lt_Some|].
  assert (∃ v : row, array' = <[i := v]> array ∧ length v = length slot) as (v & -> & Hv).
  { destruct (Nat.eqb_spec (length value) (length slot)).
    - injection Hrun as <-. by exists value.
    - destruct (length value =? 1); [|done]. injection Hrun as <-.
      eexists. split; [done|]. by rewrite length_replicate. }
  split; [by rewrite length_insert|].
  intros w Hw. apply Forall_insert; [done|].
  rewrite Forall_lookup in Hw. by rewrite Hv, (Hw i slot Hslot).
Qed.

(** A slot of another width takes a row of width one only. *)
Lemma assign_row_None (w : nat) (array : list row) i (value : row) :
  Forall (λ r : row, length r = w) array → i < length array →
  length value ≠ w → length value ≠ 1 →
  assign_row array i value = None.
Proof.
  intros Hw Hi Hv H1. unfold assign_row.
  destruct (lookup_lt_is_Some_2 array i Hi) as [slot Hslot]. rewrite Hslot.
  rewrite Forall_lookup in Hw. rewrite (Hw i slot Hslot).
  destruct (Nat.eqb_spec (length value) w); [done|].
  by destruct (Nat.eqb_spec (length value) 1).
Qed.

Lemma write_slot_wf cap state_dim other_dim b state other :
  wf cap b → shaped state_dim other_dim b →
  length state = state_dim → length other = other_dim →
  write_slot b state other
  = Some (<[next_idx b := state]> (all_state b), <[next_idx b := other]> (all_other b)).
Proof.
  intros [? ? ? Hs Ho] [Hws Hwo] Hstate Hother. unfold write_slot.
  rewrite (assign_row_same state_dim), (assign_row_same other_dim); try done; lia.
Qed.

Lemma write_slot_Some b state other states others :
  write_slot b state other = Some (states, others) →
  length states = length (all_state b)
  ∧ length others = length (all_other b)
  ∧ ∀ state_dim other_dim,
      shaped state_dim other_dim b →
      Forall (λ r : row, length r = state_dim) states
      ∧ Forall (λ r : row, length r = other_dim) others.
Proof.
  unfold write_slot.
  destruct (assign_row (all_state b) _ state) as [states'|] eqn:Hs; [|done].
  destruct (assign_row (all_other b) _ other) as [others'|] eqn:Ho; [|done].
  intros [= <- <-].
  apply assign_row_Some in Hs as (_ & Hls & Hws).
  apply assign_row_Some in Ho as (_ & Hlo & Hwo).
  split; [done|]. split; [done|].
  intros sd od [? ?]. split; [by apply Hws | by apply Hwo].
Qed.

Lemma shaped_insert state_dim other_dim b b' i (state other : row) :
  shaped state_dim other_dim b →
  length state = state_dim → length other = other_dim →
  all_state b' = <[i := state]> (all_state b) →
  all_other b' = <[i := other]> (all_other b) →
  shaped state_dim other_dim b'.
Proof.
  intros [Hs Ho] Hstate Hother Hst Hot. split.
  - rewrite Hst. by apply Forall_insert.
  - rewrite Hot. by apply Forall_insert.
Qed.

Lemma slots_insert b i state other :
  zip (<[i := state]> (all_state b)) (<[i := other]> (all_other b))
  = <[i := (state, other)]> (slots b).
Proof. unfold slots. by rewrite <- insert_zip_with. Qed.

Lemma length_slots cap b : wf cap b → length (slots b) = cap.
Proof. intros [? ? ? Hs Ho]. unfold slots. rewrite length_zip, Hs, Ho. lia. Qed.

(** What one append does to the stream, whatever it does to the flags. *)
Lemma holds_snoc cap entries b state other b' :
  0 < cap →
  holds cap entries b →
  max_len b' = cap →
  now_len b' = now_len b →
  next_idx b' = (if cap <=? next_idx b + 1 then 0 else next_idx b + 1) →
  all_state b' = <[next_idx b := state]> (all_state b) →
  all_other b' = <[next_idx b := other]> (all_other b) →
  holds cap (entries ++ [(state, other)]) b'.
Proof.
  intros Hcap (Hwf & Hidx & Hslots) Hmax Hnow Hnext Hst Hot.
  pose proof (length_slots _ _ Hwf) as Hlen.
  destruct Hwf as [? ? ? Hs Ho].
  assert (Hnext' : next_idx b' = length (entries ++ [(state, other)]) `mod` cap).
  { rewrite length_app. simpl. rewrite mod_succ_wrap by done. by rewrite <- Hidx. }
  split; [|split]; [| done |].
  - split; [done | | lia | |].
    + rewrite Hnext'. apply Nat.mod_upper_bound. lia.
    + rewrite Hst, length_insert. done.
    + rewrite Hot, length_insert. done.
  - intros k Hk Hwin. rewrite length_app in Hk, Hwin. simpl in Hk, Hwin.
    unfold slots. rewrite Hst, Hot, slots_insert, Hidx.
    destruct (decide (k = length entries)) as [->|Hne].
    + rewrite list_lookup_insert_eq.
      * by rewrite lookup_app_r, Nat.sub_diag.
      * rewrite Hlen. apply Nat.mod_upper_bound. lia.
    + rewrite list_lookup_insert_ne by (apply not_eq_sym, mod_neq_near; lia).
      rewrite lookup_app_l by lia. apply Hslots; lia.
Qed.

(** Reading the ring from the cursor gives the last [cap] entries, oldest
    first. *)
Lemma holds_ring cap entries b :
  0 < cap → cap ≤ length entries →
  holds cap entries b →
  ring b = drop (length entries - cap) entries.
Proof.
  intros Hcap Hfull (Hwf & Hidx & Hslots).
  pose proof (length_slots _ _ Hwf) as Hlen.
  apply list_eq. intros i. unfold ring, rotate. rewrite Hlen, Hidx, Nat.Div0.mod_mod.
  rewrite lookup_drop.
  pose proof (Nat.mod_upper_bound (length entries) cap ltac:(lia)) as Hr.
  destruct (decide (i < cap)) as [Hi|Hi].
  - rewrite <- Hslots by lia. rewrite mod_shift by lia.
    generalize dependent (length entries `mod` cap). intros r _ Hr.
    destruct (decide (i < cap - r)) as [Hlo|Hhi].
    + rewrite lookup_app_l by (rewrite length_drop; lia).
      rewrite lookup_drop. by rewrite Nat.mod_small by lia.
    + rewrite lookup_app_r by (rewrite length_drop; lia).
      rewrite length_drop, Hlen, lookup_take_lt by lia.
      f_equal.
      apply (Nat.mod_unique _ _ 1); lia.
  - rewrite (lookup_ge_None_2 entries) by lia.
    apply lookup_ge_None_2. rewrite length_app, length_drop, length_take. lia.
Qed.

(** The slots below the cursor hold the entries written since the last
    wrap. *)
Lemma holds_since_wrap cap entries b :
  0 < cap → holds cap entries b →
  take (length entries `mod` cap) (slots b)
  = drop (cap * (length entries `div` cap)) entries.
Proof.
  intros Hcap (Hwf & _ & Hslots).
  pose proof (length_slots _ _ Hwf) as Hlen.
  pose proof (Nat.div_mod_eq (length entries) cap) as Hn.
  pose proof (Nat.mod_upper_bound (length entries) cap ltac:(lia)) as Hr.
  generalize dependent (length entries `div` cap). intros q Hn.
  generalize dependent (length entries `mod` cap). intros r Hr Hn.
  apply list_eq. intros i. rewrite lookup_drop.
  destruct (decide (i < r)) as [Hi|Hi].
  - rewrite lookup_take_lt by done. rewrite <- Hslots by lia.
    f_equal. apply (Nat.mod_unique _ _ q); lia.
  - rewrite lookup_take_ge by lia. symmetry. apply lookup_ge_None_2. lia.
Qed.

(** Below the capacity the slots hold the entries as they came. *)
Lemma holds_prefix cap entries b :
  0 < cap → length entries ≤ cap → holds cap entries b →
  take (length entries) (slots b) = entries.
Proof.
  intros Hcap Hn (Hwf & _ & Hslots).
  apply list_eq. intros i.
  destruct (decide (i < length entries)) as [Hi|Hi].
  - rewrite lookup_take_lt by done. rewrite <- Hslots by lia.
    by rewrite Nat.mod_small by lia.
  - rewrite lookup_take_ge by lia. symmetry. apply lookup_ge_None_2. lia.
Qed.

Lemma take_slots cap b n :
  wf cap b →
  (take n (slots b)).*1 = take n (all_state b)
  ∧ (take n (slots b)).*2 = take n (all_other b).
Proof.
  intros [_ _ _ Hs Ho]. unfold slots. rewrite !fmap_take.
  rewrite fst_zip, snd_zip by lia. done.
Qed.

Lemma slots_lookup b i (e : row * row) :
  ReplayBufferBase.slots b !! i = Some e →
  ReplayBufferBase.all_state b !! i = Some e.1
  ∧ ReplayBufferBase.all_other b !! i = Some e.2.
Proof.
  unfold ReplayBufferBase.slots. intros H.
  apply lookup_zip_with_Some in H as (x & y & -> & ? & ?). done.
Qed.

End Ring.

Lemma length_np_empty junk n w : length (np_empty junk n w) = n.
Proof. unfold np_empty. by rewrite length_fmap, length_seq. Qed.

Lemma width_np_empty junk n w : Forall (λ r : row, length r = w) (np_empty junk n w).
Proof.
  unfold np_empty. apply Forall_fmap, Forall_true. intros i. simpl.
  by rewrite length_fmap, length_seq.
Qed.

(** ** The off-policy buffer *)

Section GPU.
Import ReplayBufferBase ReplayBufferGPU.

Lemma gpu_init_holds junk_s junk_o cap state_dim action_dim if_on_policy :
  0 < cap → holds cap [] (init junk_s junk_o cap state_dim action_dim if_on_policy).
Proof.
  intros Hcap. split; [|split].
  - split; simpl; rewrite ?length_np_empty; lia.
  - simpl. by rewrite Nat.Div0.mod_0_l.
  - simpl. lia.
Qed.

Lemma gpu_init_shaped junk_s junk_o cap state_dim action_dim if_on_policy :
  shaped state_dim (other_dim action_dim if_on_policy)
         (init junk_s junk_o cap state_dim action_dim if_on_policy).
Proof. split; apply width_np_empty. Qed.

Lemma gpu_append_memo_holds cap state_dim other_dim entries b state other :
  0 < cap → holds cap entries b → shaped state_dim other_dim b →
  length state = state_dim → length other = other_dim →
  ∃ b', append_memo b state other = Some b'
        ∧ holds cap (entries ++ [(state, other)]) b'
        ∧ shaped state_dim other_dim b'
        ∧ now_len b' = now_len b
        ∧ if_full b' = (if cap <=? next_idx b + 1 then true else if_full b).
Proof.
  intros Hcap Hb Hshape Hstate Hother. pose proof Hb as (Hwf & _ & _).
  unfold append_memo. rewrite (write_slot_wf cap state_dim other_dim) by done. simpl.
  rewrite (wf_cap _ _ Hwf).
  destruct (cap <=? next_idx b + 1) eqn:Hwrap;
    (eexists; split; [reflexivity|]; split; [|split; [|done]]);
    [ eapply holds_snoc; [done | exact Hb | simpl..]; rewrite ?Hwrap; done
    | by eapply shaped_insert
    | eapply holds_snoc; [done | exact Hb | simpl..]; rewrite ?Hwrap; done
    | by eapply shaped_insert ].
Qed.

Lemma gpu_run_snoc b ops o : run b (ops ++ [o]) = run b ops ≫= λ b', step b' o.
Proof. unfold run. by rewrite foldl_snoc. Qed.

Lemma gpu_append_all_snoc b entries e :
  append_all b (entries ++ [e]) = append_all b entries ≫= λ b', append_memo b' e.1 e.2.
Proof. unfold append_all. rewrite fmap_app. exact (gpu_run_snoc _ _ _). Qed.

(** Appending rows of the widths of the arrays to a new buffer never
    fails; the stream is held, the flag is raised from the first wrap on,
    and [now_len] is left alone. *)
Lemma gpu_append_all_init junk_s junk_o cap state_dim action_dim if_on_policy entries :
  0 < cap →
  rows_shaped state_dim (other_dim action_dim if_on_policy) entries →
  ∃ b, append_all (init junk_s junk_o cap state_dim action_dim if_on_policy) entries = Some b
       ∧ holds cap entries b
       ∧ shaped state_dim (other_dim action_dim if_on_policy) b
       ∧ (if_full b = true ↔ cap ≤ length entries)
       ∧ now_len b = 0.
Proof.
  intros Hcap. induction entries as [|[state other] entries IH] using rev_ind; intros Hrows.
  - eexists. split; [reflexivity|]. split; [by apply gpu_init_holds|].
    split; [apply gpu_init_shaped|]. simpl.
    split; [|done]. split; [done | lia].
  - apply Forall_app in Hrows as [Hrows Hrow].
    apply Forall_singleton in Hrow as [Hstate Hother]. simpl in Hstate, Hother.
    destruct (IH Hrows) as (b & Hrun & Hb & Hshape & Hfull & Hnow).
    destruct (gpu_append_memo_holds cap _ _ entries b state other Hcap Hb Hshape Hstate Hother)
      as (b' & Happ & Hb' & Hshape' & Hnow' & Hfull').
    exists b'. rewrite gpu_append_all_snoc, Hrun. simpl.
    split; [done|]. split; [done|]. split; [done|]. split; [|congruence].
    rewrite Hfull', length_app. simpl.
    destruct Hb as (Hwf & Hidx & _).
    pose proof (Nat.mod_upper_bound (length entries) cap ltac:(lia)) as Hr.
    pose proof (Nat.Div0.mod_le (length entries) cap) as Hle.
    destruct (Nat.leb_spec cap (next_idx b + 1)) as [Hw|Hw].
    + split; [lia | done].
    + rewrite Hfull. split; [lia|]. intros Hn.
      destruct (decide (cap ≤ length entries)); [done|].
      rewrite Nat.mod_small in Hidx by lia. lia.
Qed.

(** The off-policy half of the overwrite property: once [cap] or more
    rows were appended, the refreshed length is [cap] and the ring holds
    the last [cap] entries, oldest first. *)
Lemma gpu_overwrite junk_s junk_o cap state_dim action_dim if_on_policy entries :
  0 < cap → cap ≤ length entries →
  rows_shaped state_dim (other_dim action_dim if_on_policy) entries →
  ∃ b, append_all (init junk_s junk_o cap state_dim action_dim if_on_policy) entries = Some b
       ∧ now_len (update__now_len__before_sample b) = cap
       ∧ ring b = drop (length entries - cap) entries.
Proof.
  intros Hcap Hlen Hrows.
  destruct (gpu_append_all_init junk_s junk_o cap state_dim action_dim if_on_policy
              entries Hcap Hrows) as (b & Hrun & Hb & _ & Hfull & _).
  exists b. split; [done|]. split.
  - simpl. apply Hfull in Hlen as ->. by destruct Hb as ([? ? ? ? ?] & _).
  - by apply holds_ring.
Qed.

(** What every step keeps, when it does not raise. *)
Lemma gpu_step_wf cap b o b' :
  0 < cap → wf cap b → (if_full b = false → now_len b ≤ next_idx b) →
  step b o = Some b' →
  wf cap b' ∧ (if_full b' = false → now_len b' ≤ next_idx b').
Proof.
  intros Hcap Hwf Hlow. destruct o as [state other| |]; simpl.
  - unfold append_memo.
    destruct (write_slot b state other) as [[states others]|] eqn:Hw; [|done]. simpl.
    apply write_slot_Some in Hw as (Hls & Hlo & _).
    destruct Hwf as [Hmax ? ? Hs Ho]. rewrite Hmax.
    destruct (Nat.leb_spec cap (next_idx b + 1)); intros [= <-].
    + split; [|done]. split; simpl; lia.
    + split.
      * split; simpl; lia.
      * simpl. intros Hf. specialize (Hlow Hf). lia.
  - intros [= <-]. destruct Hwf as [Hmax ? ? Hs Ho]. split.
    + split; simpl; try done. destruct (if_full b); lia.
    + simpl. intros ->. done.
  - intros [= <-]. destruct Hwf as [Hmax ? ? Hs Ho]. split.
    + split; simpl; try done; lia.
    + simpl. lia.
Qed.

Lemma gpu_step_shaped state_dim other_dim b o b' :
  shaped state_dim other_dim b → step b o = Some b' → shaped state_dim other_dim b'.
Proof.
  intros Hshape. destruct o as [state other| |]; simpl.
  - unfold append_memo.
    destruct (write_slot b state other) as [[states others]|] eqn:Hw; [|done]. simpl.
    apply write_slot_Some in Hw as (_ & _ & Hw). specialize (Hw _ _ Hshape).
    destruct (_ <=? _); intros [= <-]; exact Hw.
  - by intros [= <-].
  - by intros [= <-].
Qed.

Lemma gpu_reachable_wf junk_s junk_o cap state_dim action_dim if_on_policy b :
  0 < cap →
  reachable (init junk_s junk_o cap state_dim action_dim if_on_policy) b →
  wf cap b ∧ (if_full b = false → now_len b ≤ next_idx b).
Proof.
  intros Hcap [ops Hrun]. revert b Hrun.
  induction ops as [|o ops IH] using rev_ind; intros b Hrun.
  - injection Hrun as <-. split.
    + by destruct (gpu_init_holds junk_s junk_o cap state_dim action_dim if_on_policy Hcap).
    + simpl. lia.
  - rewrite gpu_run_snoc in Hrun.
    destruct (run _ ops) as [b0|] eqn:Hb0; [|done]. simpl in Hrun.
    destruct (IH b0 eq_refl) as [Hwf Hlow].
    by apply (gpu_step_wf cap b0 o b Hcap Hwf Hlow) in Hrun.
Qed.

Lemma gpu_reachable_shaped junk_s junk_o cap state_dim action_dim if_on_policy b :
  reachable (init junk_s junk_o cap state_dim action_dim if_on_policy) b →
  shaped state_dim (other_dim action_dim if_on_policy) b.
Proof.
  intros [ops Hrun]. revert b Hrun.
  induction ops as [|o ops IH] using rev_ind; intros b Hrun.
  - injection Hrun as <-. apply gpu_init_shaped.
  - rewrite gpu_run_snoc in Hrun.
    destruct (run _ ops) as [b0|] eqn:Hb0; [|done]. simpl in Hrun.
    eapply gpu_step_shaped; [|exact Hrun]. by apply IH.
Qed.

End GPU.

(** ** The on-policy buffer *)

Section CPU.
Import ReplayBufferBase ReplayBufferCPU.

Lemma cpu_init_holds junk_s junk_o cap state_dim action_dim :
  0 < cap → holds cap [] (base (init junk_s junk_o cap state_dim action_dim)).
Proof.
  intros Hcap. split; [|split].
  - split; simpl; rewrite ?length_np_empty; lia.
  - simpl. by rewrite Nat.Div0.mod_0_l.
  - simpl. lia.
Qed.

Lemma cpu_init_shaped junk_s junk_o cap state_dim action_dim :
  shaped state_dim (other_dim action_dim)
         (base (init junk_s junk_o cap state_dim action_dim)).
Proof. split; apply width_np_empty. Qed.

(** An append moves the stream on as in the off-policy buffer, but the
    flag it raises on a wrap is [is_full]: [if_full] keeps its value. *)
Lemma cpu_append_memo_holds cap state_dim other_dim entries c state other :
  0 < cap → holds cap entries (base c) → shaped state_dim other_dim (base c) →
  length state = state_dim → length other = other_dim →
  ∃ c', append_memo c state other = Some c'
        ∧ holds cap (entries ++ [(state, other)]) (base c')
        ∧ shaped state_dim other_dim (base c')
        ∧ now_len (base c') = now_len (base c)
        ∧ if_full (base c') = if_full (base c)
        ∧ is_full c' = (if cap <=? next_idx (base c) + 1 then true else is_full c)
        ∧ action_dim c' = action_dim c.
Proof.
  intros Hcap Hb Hshape Hstate Hother. pose proof Hb as (Hwf & _ & _).
  unfold append_memo. rewrite (write_slot_wf cap state_dim other_dim) by done. simpl.
  rewrite (wf_cap _ _ Hwf).
  destruct (cap <=? next_idx (base c) + 1) eqn:Hwrap;
    (eexists; split; [reflexivity|]; split; [|split; [|done]]);
    [ eapply holds_snoc; [done | exact Hb | simpl..]; rewrite ?Hwrap; done
    | by eapply shaped_insert
    | eapply holds_snoc; [done | exact Hb | simpl..]; rewrite ?Hwrap; done
    | by eapply shaped_insert ].
Qed.

Lemma cpu_run_snoc c ops o : run c (ops ++ [o]) = run c ops ≫= λ c', step c' o.
Proof. unfold run. by rewrite foldl_snoc. Qed.

Lemma cpu_append_all_snoc c entries e :
  append_all c (entries ++ [e]) = append_all c entries ≫= λ c', append_memo c' e.1 e.2.
Proof. unfold append_all. rewrite fmap_app. exact (cpu_run_snoc _ _ _). Qed.

Lemma cpu_append_all_init junk_s junk_o cap state_dim act_dim entries :
  0 < cap →
  rows_shaped state_dim (other_dim act_dim) entries →
  ∃ c, append_all (init junk_s junk_o cap state_dim act_dim) entries = Some c
       ∧ holds cap entries (base c)
       ∧ shaped state_dim (other_dim act_dim) (base c)
       ∧ if_full (base c) = false
       ∧ is_full c = true
       ∧ now_len (base c) = 0.
Proof.
  intros Hcap. induction entries as [|[state other] entries IH] using rev_ind; intros Hrows.
  - eexists. split; [reflexivity|]. split; [by apply cpu_init_holds|].
    split; [apply cpu_init_shaped|]. done.
  - apply Forall_app in Hrows as [Hrows Hrow].
    apply Forall_singleton in Hrow as [Hstate Hother]. simpl in Hstate, Hother.
    destruct (IH Hrows) as (c & Hrun & Hb & Hshape & Hif & His & Hnow).
    destruct (cpu_append_memo_holds cap _ _ entries c state other Hcap Hb Hshape Hstate Hother)
      as (c' & Happ & Hb' & Hshape' & Hnow' & Hif' & His' & _).
    exists c'. rewrite cpu_append_all_snoc, Hrun. simpl.
    split; [done|]. split; [done|]. split; [done|]. split; [congruence|].
    split; [|congruence].
    rewrite His', His. by destruct (cap <=? _).
Qed.

(** The on-policy half of the overwrite property fails: whatever the
    number of rows, the refreshed length is the cursor, below [cap]. *)
Lemma cpu_visible_length junk_s junk_o cap state_dim act_dim entries :
  0 < cap →
  rows_shaped state_dim (other_dim act_dim) entries →
  ∃ c, append_all (init junk_s junk_o cap state_dim act_dim) entries = Some c
       ∧ now_len (base (update__now_len__before_sample c)) = length entries `mod` cap
       ∧ now_len (base (update__now_len__before_sample c)) < cap.
Proof.
  intros Hcap Hrows.
  destruct (cpu_append_all_init junk_s junk_o cap state_dim act_dim entries Hcap Hrows)
    as (c & Hrun & (Hwf & Hidx & _) & _ & Hif & _).
  exists c. split; [done|]. simpl. rewrite Hif, Hidx.
  split; [done|]. apply Nat.mod_upper_bound. lia.
Qed.

Lemma cpu_step_wf cap c o c' :
  0 < cap → wf cap (base c) → if_full (base c) = false →
  step c o = Some c' →
  wf cap (base c') ∧ if_full (base c') = false.
Proof.
  intros Hcap Hwf Hif. destruct o as [state other| |]; simpl.
  - unfold append_memo.
    destruct (write_slot (base c) state other) as [[states others]|] eqn:Hw; [|done]. simpl.
    apply write_slot_Some in Hw as (Hls & Hlo & _).
    destruct Hwf as [Hmax ? ? Hs Ho]. rewrite Hmax.
    destruct (Nat.leb_spec cap (next_idx (base c) + 1)); intros [= <-];
      (split; [|done]); split; simpl; lia.
  - intros [= <-]. destruct Hwf as [Hmax ? ? Hs Ho]. split; [|done].
    split; simpl; try done. rewrite Hif. lia.
  - intros [= <-]. destruct Hwf as [Hmax ? ? Hs Ho]. split; [|done].
    split; simpl; try done; lia.
Qed.

Lemma cpu_step_shaped state_dim other_dim c o c' :
  shaped state_dim other_dim (base c) → step c o = Some c' →
  shaped state_dim other_dim (base c') ∧ action_dim c' = action_dim c.
Proof.
  intros Hshape. destruct o as [state other| |]; simpl.
  - unfold append_memo.
    destruct (write_slot (base c) state other) as [[states others]|] eqn:Hw; [|done]. simpl.
    apply write_slot_Some in Hw as (_ & _ & Hw). specialize (Hw _ _ Hshape).
    destruct (_ <=? _); intros [= <-]; (split; [exact Hw | done]).
  - by intros [= <-].
  - by intros [= <-].
Qed.

Lemma cpu_reachable_wf junk_s junk_o cap state_dim act_dim c :
  0 < cap →
  reachable (init junk_s junk_o cap state_dim act_dim) c →
  wf cap (base c) ∧ if_full (base c) = false.
Proof.
  intros Hcap [ops Hrun]. revert c Hrun.
  induction ops as [|o ops IH] using rev_ind; intros c Hrun.
  - injection Hrun as <-. split; [|done].
    by destruct (cpu_init_holds junk_s junk_o cap state_dim act_dim Hcap).
  - rewrite cpu_run_snoc in Hrun.
    destruct (run _ ops) as [c0|] eqn:Hc0; [|done]. simpl in Hrun.
    destruct (IH c0 eq_refl) as [Hwf Hif].
    by apply (cpu_step_wf cap c0 o c Hcap Hwf Hif) in Hrun.
Qed.

Lemma cpu_reachable_shaped junk_s junk_o cap state_dim act_dim c :
  reachable (init junk_s junk_o cap state_dim act_dim) c →
  shaped state_dim (other_dim act_dim) (base c) ∧ action_dim c = act_dim.
Proof.
  intros [ops Hrun]. revert c Hrun.
  induction ops as [|o ops IH] using rev_ind; intros c Hrun.
  - injection Hrun as <-. split; [apply cpu_init_shaped | done].
  - rewrite cpu_run_snoc in Hrun.
    destruct (run _ ops) as [c0|] eqn:Hc0; [|done]. simpl in Hrun.
    destruct (IH c0 eq_refl) as [Hshape Hdim].
    destruct (cpu_step_shaped _ _ c0 o c Hshape Hrun) as [? ?].
    split; [done | congruence].
Qed.

End CPU.

(** ** Claims on the buffers *)

(** Claim C1, on a buffer of capacity two that receives three entries.
    The off-policy buffer ([ReplayBufferGPU]) shows two entries after the
    refresh and its ring holds the last two, oldest first ([gpu_overwrite]
    has it for every capacity and every stream of rows of the widths of
    the buffer).  The on-policy buffer
    ([ReplayBufferCPU]) raises [is_full], which the refresh does not read:
    [if_full] stays down and the refreshed length is the cursor, one, not
    the capacity ([cpu_visible_length] has it for every such stream). *)
Theorem C1_overwrite_visible_length :
  let zero : nat → nat → Q := λ _ _, 0%Q in
  let e1 : row * row := ([1%Q], [1%Q; 1%Q; 0%Q; 0%Q]) in
  let e2 : row * row := ([2%Q], [2%Q; 1%Q; 0%Q; 0%Q]) in
  let e3 : row * row := ([3%Q], [3%Q; 1%Q; 0%Q; 0%Q]) in
  (∃ g, ReplayBufferGPU.append_all (ReplayBufferGPU.init zero zero 2 1 1 true) [e1; e2; e3]
        = Some g
        ∧ ReplayBufferBase.now_len (ReplayBufferBase.update__now_len__before_sample g) = 2
        ∧ ReplayBufferBase.ring g = [e2; e3])
  ∧ (∃ c, ReplayBufferCPU.append_all (ReplayBufferCPU.init zero zero 2 1 1) [e1; e2; e3]
          = Some c
          ∧ ReplayBufferCPU.is_full c = true
          ∧ ReplayBufferBase.if_full (ReplayBufferCPU.base c) = false
          ∧ ReplayBufferBase.now_len
              (ReplayBufferCPU.base (ReplayBufferCPU.update__now_len__before_sample c)) = 1
          ∧ ReplayBufferBase.ring (ReplayBufferCPU.base c) = [e2; e3]).
Proof.
  split.
  - eexists. split; [reflexivity|]. split; reflexivity.
  - eexists. split; [reflexivity|]. repeat split; reflexivity.
Qed.

(** What a sequence of operations leaves in the off-policy buffer: the
    cursor and the flag follow the number of appends since the last reset. *)
Lemma gpu_run_appended junk_s junk_o cap state_dim action_dim if_on_policy ops b :
  0 < cap →
  ReplayBufferGPU.run
    (ReplayBufferGPU.init junk_s junk_o cap state_dim action_dim if_on_policy) ops = Some b →
  ReplayBufferBase.max_len b = cap
  ∧ ReplayBufferBase.next_idx b = appended_gpu ops `mod` cap
  ∧ (ReplayBufferBase.if_full b = true ↔ cap ≤ appended_gpu ops).
Proof.
  intros Hcap. revert b. induction ops as [|o ops IH] using rev_ind; intros b Hrun.
  - injection Hrun as <-. simpl. rewrite Nat.Div0.mod_0_l.
    split; [done|]. split; [done|]. split; [done | unfold appended_gpu; simpl; lia].
  - rewrite gpu_run_snoc in Hrun.
    destruct (ReplayBufferGPU.run _ ops) as [b0|] eqn:Hb0; [|done]. simpl in Hrun.
    destruct (IH b0 eq_refl) as (Hmax & Hidx & Hfull).
    unfold appended_gpu in *. rewrite foldl_snoc.
    set (n := foldl _ 0 ops) in *.
    pose proof (Nat.mod_upper_bound n cap ltac:(lia)) as Hr.
    pose proof (Nat.Div0.mod_le n cap) as Hle.
    destruct o as [state other| |]; simpl in Hrun.
    + unfold ReplayBufferGPU.append_memo in Hrun.
      destruct (ReplayBufferBase.write_slot b0 state other) as [[states others]|]; [|done].
      simpl in Hrun. rewrite Hmax, Hidx in Hrun.
      replace (S n) with (n + 1) by lia. rewrite mod_succ_wrap by done.
      destruct (Nat.leb_spec cap (n `mod` cap + 1)); injection Hrun as <-; simpl.
      * split; [done|]. split; [done|]. split; [lia | done].
      * split; [done|]. split; [done|]. rewrite Hfull. split; [lia|]. intros Hn.
        destruct (decide (cap ≤ n)); [done|]. rewrite Nat.mod_small in * by lia. lia.
    + injection Hrun as <-. simpl. done.
    + injection Hrun as <-. simpl. rewrite Nat.Div0.mod_0_l.
      split; [done|]. split; [done|]. split; [done | lia].
Qed.





(** ** Sampling from the off-policy buffer *)

Lemma torch_randint_spec rng high size :
  0 < high →
  ∃ indices, torch_randint rng high size = Some indices
             ∧ length indices = size
             ∧ Forall (λ i, i < high) indices.
Proof.
  intros Hhigh. unfold torch_randint.
  destruct (Nat.ltb_spec 0 high); [|lia].
  eexists. split; [reflexivity|]. split.
  - by rewrite length_fmap, length_seq.
  - apply Forall_fmap, Forall_forall. intros k _. simpl.
    apply Nat.mod_upper_bound. lia.
Qed.

(** Every index of the range can be drawn. *)
Lemma torch_randint_onto high i :
  i < high → torch_randint (λ _, i) high 1 = Some [i].
Proof.
  intros Hi. unfold torch_randint.
  destruct (Nat.ltb_spec 0 high); [|lia].
  simpl. by rewrite Nat.mod_small.
Qed.

Lemma gather_total (tensor : list row) indices :
  Forall (λ i, i < length tensor) indices →
  gather tensor indices = Some ((λ i, tensor !!! i) <$> indices).
Proof.
  intros Hin. unfold gather. apply mapM_Some_2, Forall2_fmap_r, Forall_Forall2_diag.
  eapply Forall_impl; [exact Hin|]. simpl. intros i Hi.
  by apply list_lookup_lookup_total_lt.
Qed.

(** Claim C3.  On a reachable off-policy buffer that shows two entries or
    more, [random_sample] returns: it draws [batch_size] indices below
    [now_len - 1] (each index of that range can be drawn) and gives, for the
    indices drawn, the three columns of [all_other], the state at the index
    and the state at the next index.  The next index is below [now_len], and
    below the write cursor while the buffer is not full.  (That the draws
    are uniform is a fact of [torch.randint], outside this model.) *)
Theorem C3_random_sample cap b rng batch_size :
  0 < cap → reachable_buffer_gpu cap b → 2 ≤ ReplayBufferBase.now_len b →
  ∃ indices,
    torch_randint rng (ReplayBufferBase.now_len b - 1) batch_size = Some indices
    ∧ length indices = batch_size
    ∧ ReplayBufferGPU.random_sample rng b batch_size
      = Some ((λ i, take 1 (ReplayBufferBase.all_other b !!! i)) <$> indices,
              (λ i, take 1 (drop 1 (ReplayBufferBase.all_other b !!! i))) <$> indices,
              (λ i, drop 2 (ReplayBufferBase.all_other b !!! i)) <$> indices,
              (λ i, ReplayBufferBase.all_state b !!! i) <$> indices,
              (λ i, ReplayBufferBase.all_state b !!! (i + 1)) <$> indices)
    ∧ Forall (λ i, i < ReplayBufferBase.now_len b - 1
                   ∧ i + 1 < length (ReplayBufferBase.all_state b)
                   ∧ (ReplayBufferBase.if_full b = false →
                      i + 1 < ReplayBufferBase.next_idx b)) indices
    ∧ ∀ i, i ≤ ReplayBufferBase.now_len b - 2 →
        torch_randint (λ _, i) (ReplayBufferBase.now_len b - 1) 1 = Some [i].
Proof.
  intros Hcap (js & jo & sd & ad & p & Hreach) Hnow.
  destruct (gpu_reachable_wf js jo cap sd ad p b Hcap Hreach) as [[_ _ Hle Hs Ho] Hlow].
  destruct (torch_randint_spec rng (ReplayBufferBase.now_len b - 1) batch_size ltac:(lia))
    as (indices & Hdraw & Hlen & Hin).
  exists indices. split; [done|]. split; [done|].
  assert (Hall : Forall (λ i, i < ReplayBufferBase.now_len b - 1
                   ∧ i + 1 < length (ReplayBufferBase.all_state b)
                   ∧ (ReplayBufferBase.if_full b = false →
                      i + 1 < ReplayBufferBase.next_idx b)) indices).
  { eapply Forall_impl; [exact Hin|]. simpl. intros i Hi.
    split; [done|]. split; [lia|]. intros Hf. specialize (Hlow Hf). lia. }
  split; [|split; [done|]].
  - unfold ReplayBufferGPU.random_sample. rewrite Hdraw.
    rewrite (gather_total (ReplayBufferBase.all_other b) indices),
            (gather_total (ReplayBufferBase.all_state b) indices),
            (gather_total (ReplayBufferBase.all_state b)).
    + rewrite <- !list_fmap_compose. done.
    + apply Forall_fmap. eapply Forall_impl; [exact Hall|]. simpl. intros i ?. lia.
    + eapply Forall_impl; [exact Hall|]. simpl. intros i ?. lia.
    + eapply Forall_impl; [exact Hall|]. simpl. intros i ?. lia.
  - intros i Hi. apply torch_randint_onto. lia.
Qed.

Lemma C3_random_sample_witness :
  let zero : nat → nat → Q := λ _ _, 0%Q in
  let b := ReplayBufferBase.mk 3 2 2 false
             [[1%Q]; [2%Q]; [0%Q]]
             [[1%Q; 1%Q; 5%Q]; [2%Q; 0%Q; 6%Q]; [0%Q; 0%Q; 0%Q]] in
  ReplayBufferGPU.random_sample (λ k, k) b 2
  = Some ([[1%Q]; [1%Q]], [[1%Q]; [1%Q]], [[5%Q]; [5%Q]], [[1%Q]; [1%Q]], [[2%Q]; [2%Q]]).
Proof.
  intros zero b.
  assert (Hb : reachable_buffer_gpu 3 b).
  { exists zero, zero, 1, 1, false.
    exists [ReplayBufferGPU.Append [1%Q] [1%Q; 1%Q; 5%Q];
            ReplayBufferGPU.Append [2%Q] [2%Q; 0%Q; 6%Q];
            ReplayBufferGPU.Refresh].
    reflexivity. }
  destruct (C3_random_sample 3 b (λ k, k) 2 ltac:(lia) Hb ltac:(simpl; lia))
    as (indices & Hdraw & _ & Hsample & _).
  injection Hdraw as <-. exact Hsample.
Defined.

(** ** The return estimator *)

Lemma range_down_S n : range_down (S n) = n :: range_down n.
Proof. unfold range_down. by rewrite seq_S, reverse_snoc. Qed.

Lemma length_torch_empty junk n : length (torch_empty junk n) = n.
Proof. unfold torch_empty. by rewrite length_fmap, length_seq. Qed.

Lemma drop_insert_here {A} (l : list A) k x :
  k < length l → drop k (<[k := x]> l) = x :: drop (S k) l.
Proof.
  intros Hk. rewrite (drop_S _ x k) by by apply list_lookup_insert_eq.
  by rewrite drop_insert_lt by lia.
Qed.

Lemma length_plain_return reward mask :
  length reward = length mask → length (plain_return reward mask) = length reward.
Proof.
  revert mask. induction reward as [|r reward IH]; intros [|m mask] Hlen; simpl in *;
    try done.
  by rewrite IH by lia.
Qed.

Lemma plain_return_drop reward mask k :
  drop k (plain_return reward mask) = plain_return (drop k reward) (drop k mask).
Proof.
  revert reward mask. induction k as [|k IH]; intros reward mask; [done|].
  destruct reward as [|r reward], mask as [|m mask]; simpl; try done.
  by destruct (drop k reward).
Qed.

(** The loop of [AgentPPO.update_policy] computes the recursion. *)
Lemma old_v_loop reward mask n k all__old_v :
  length reward = n → length mask = n → length all__old_v = n → k ≤ n →
  drop k all__old_v = drop k (plain_return reward mask) →
  for_each (range_down k) (AgentPPO.old_v_body reward mask)
           (all__old_v, hd 0%Q (drop k all__old_v))
  = Some (plain_return reward mask, hd 0%Q (plain_return reward mask)).
Proof.
  intros Hr Hm. revert all__old_v.
  induction k as [|k IH]; intros all__old_v Hlen Hk Hdrop.
  - rewrite !drop_0 in Hdrop |- *. simpl. by rewrite Hdrop.
  - rewrite range_down_S. simpl.
    destruct (lookup_lt_is_Some_2 reward k ltac:(lia)) as [r Hrk].
    destruct (lookup_lt_is_Some_2 mask k ltac:(lia)) as [m Hmk].
    rewrite Hrk, Hmk.
    destruct (Nat.ltb_spec k (length all__old_v)); [|lia].
    set (v := (r + m * hd 0%Q (drop (S k) all__old_v))%Q).
    assert (Hdrop' : drop k (<[k := v]> all__old_v) = drop k (plain_return reward mask)).
    { rewrite drop_insert_here by lia.
      rewrite plain_return_drop, (drop_S reward r k), (drop_S mask m k) by done.
      simpl. rewrite <- plain_return_drop, <- Hdrop. done. }
    specialize (IH (<[k := v]> all__old_v)).
    rewrite drop_insert_here in IH by lia. simpl in IH.
    apply IH; [by rewrite length_insert | lia |].
    by rewrite <- drop_insert_here by lia.
Qed.

Lemma get__old_v_plain junk reward mask n :
  length reward = n → length mask = n →
  AgentPPO.get__old_v junk reward mask n = Some (plain_return reward mask).
Proof.
  intros Hr Hm. unfold AgentPPO.get__old_v.
  pose proof (old_v_loop reward mask n n (torch_empty junk n) Hr Hm
                (length_torch_empty junk n) (le_n n)) as Hloop.
  rewrite !drop_ge in Hloop
    by (rewrite ?length_plain_return, ?length_torch_empty by lia; lia).
  simpl in Hloop. by rewrite Hloop.
Qed.

Lemma plain_return_lookup reward mask i r m :
  reward !! i = Some r → mask !! i = Some m →
  plain_return reward mask !! i
  = Some (r + m * default 0 (plain_return reward mask !! S i))%Q.
Proof.
  revert reward mask. induction i as [|i IH]; intros [|r' reward] [|m' mask] Hr Hm;
    simpl in *; try done.
  - injection Hr as ->. injection Hm as ->. f_equal.
    by destruct (plain_return reward mask).
  - by apply IH.
Qed.

Lemma gae_cons lambda r reward m mask v value :
  gae lambda (r :: reward) (m :: mask) (v :: value)
  = ((r + m * (gae lambda reward mask value).2 - v)%Q :: (gae lambda reward mask value).1,
     (v + (r + m * (gae lambda reward mask value).2 - v) * lambda)%Q).
Proof. simpl. by destruct (gae lambda reward mask value). Qed.

Lemma length_gae lambda reward mask value :
  length reward = length mask → length mask = length value →
  length (gae lambda reward mask value).1 = length reward.
Proof.
  revert mask value.
  induction reward as [|r reward IH]; intros [|m mask] [|v value] Hm Hv; try done.
  rewrite gae_cons. cbn [fst length]. rewrite IH; [done | |]; simpl in *; lia.
Qed.

Lemma gae_drop lambda reward mask value k :
  length reward = length mask → length mask = length value →
  (gae lambda (drop k reward) (drop k mask) (drop k value)).1
  = drop k (gae lambda reward mask value).1.
Proof.
  revert reward mask value.
  induction k as [|k IH]; intros reward mask value Hm Hv.
  - by rewrite !drop_0.
  - destruct reward as [|r reward], mask as [|m mask], value as [|v value]; try done.
    rewrite gae_cons. cbn [fst drop]. apply IH; simpl in *; lia.
Qed.

(** The loop of [AgentGaePPO.update_policy] computes both recursions. *)
Lemma adv_v_loop lambda reward mask value n k all__old_v all__adv_v :
  length reward = n → length mask = n → length value = n →
  length all__old_v = n → length all__adv_v = n → k ≤ n →
  drop k all__old_v = drop k (plain_return reward mask) →
  drop k all__adv_v = drop k (gae lambda reward mask value).1 →
  for_each (range_down k) (AgentGaePPO.adv_v_body lambda reward mask value)
           (all__old_v, all__adv_v, hd 0%Q (drop k all__old_v),
            (gae lambda (drop k reward) (drop k mask) (drop k value)).2)
  = Some (plain_return reward mask, (gae lambda reward mask value).1,
          hd 0%Q (plain_return reward mask), (gae lambda reward mask value).2).
Proof.
  intros Hr Hm Hv. revert all__old_v all__adv_v.
  induction k as [|k IH]; intros all__old_v all__adv_v Hlo Hla Hk Hdo Hda.
  - rewrite !drop_0 in Hdo, Hda |- *. simpl. by rewrite Hdo, Hda.
  - rewrite range_down_S. cbn [for_each AgentGaePPO.adv_v_body].
    destruct (lookup_lt_is_Some_2 reward k ltac:(lia)) as [r Hrk].
    destruct (lookup_lt_is_Some_2 mask k ltac:(lia)) as [m Hmk].
    destruct (lookup_lt_is_Some_2 value k ltac:(lia)) as [v Hvk].
    rewrite Hrk, Hmk, Hvk.
    destruct (Nat.ltb_spec k (length all__old_v)); [|lia].
    destruct (Nat.ltb_spec k (length all__adv_v)); [|lia].
    cbn [andb].
    set (g := gae lambda (drop (S k) reward) (drop (S k) mask) (drop (S k) value)).
    set (old_v := (r + m * hd 0%Q (drop (S k) all__old_v))%Q).
    set (adv_v := (r + m * g.2 - v)%Q).
    assert (Hg : gae lambda (drop k reward) (drop k mask) (drop k value)
                 = (adv_v :: g.1, (v + adv_v * lambda)%Q)).
    { rewrite (drop_S reward r k), (drop_S mask m k), (drop_S value v k) by done.
      by rewrite gae_cons. }
    assert (Hdo' : drop k (<[k := old_v]> all__old_v) = drop k (plain_return reward mask)).
    { rewrite drop_insert_here by lia.
      rewrite plain_return_drop, (drop_S reward r k), (drop_S mask m k) by done.
      simpl. rewrite <- plain_return_drop, <- Hdo. done. }
    assert (Hda' : drop k (<[k := adv_v]> all__adv_v)
                   = drop k (gae lambda reward mask value).1).
    { rewrite drop_insert_here by lia.
      rewrite <- (gae_drop lambda reward mask value k), Hg by lia.
      cbn [fst]. f_equal. rewrite Hda. unfold g. apply eq_sym, gae_drop; lia. }
    specialize (IH (<[k := old_v]> all__old_v) (<[k := adv_v]> all__adv_v)).
    rewrite drop_insert_here, Hg in IH by lia. cbn [hd snd] in IH.
    apply IH; rewrite ?length_insert; try done; try lia.
    by rewrite <- drop_insert_here by lia.
Qed.

Lemma get__adv_v_gae junk_o junk_a lambda reward mask value n :
  length reward = n → length mask = n → length value = n →
  AgentGaePPO.get__adv_v junk_o junk_a lambda reward mask value n
  = Some (plain_return reward mask, (gae lambda reward mask value).1).
Proof.
  intros Hr Hm Hv. unfold AgentGaePPO.get__adv_v.
  pose proof (adv_v_loop lambda reward mask value n n
                (torch_empty junk_o n) (torch_empty junk_a n) Hr Hm Hv
                (length_torch_empty junk_o n) (length_torch_empty junk_a n) (le_n n))
    as Hloop.
  rewrite !drop_ge in Hloop
    by (rewrite ?length_plain_return, ?length_gae, ?length_torch_empty by lia; lia).
  cbn [hd gae snd] in Hloop. by rewrite Hloop.
Qed.

(** With [lambda = 1] the carried value is the plain return, so the
    advantage is the return minus the value. *)
Lemma gae_one lambda reward mask value :
  length reward = length mask → length mask = length value → lambda == 1 →
  Qlist_eq (gae lambda reward mask value).1 (zip_with Qminus (plain_return reward mask) value)
  ∧ (gae lambda reward mask value).2 == hd 0%Q (plain_return reward mask).
Proof.
  intros Hm Hv Hlam. revert mask value Hm Hv.
  induction reward as [|r reward IH]; intros [|m mask] [|v value] Hm Hv; try done.
  destruct (IH mask value) as [IHA IHp]; [simpl in *; lia..|].
  rewrite gae_cons. cbn [fst snd plain_return zip_with hd].
  split.
  - constructor; [|exact IHA]. by rewrite IHp.
  - rewrite IHp, Hlam. ring.
Qed.

(** With [lambda = 0] the carried value is the value estimate, so the
    advantage is the one-step residual. *)
Lemma gae_zero lambda reward mask value :
  length reward = length mask → length mask = length value → lambda == 0 →
  Qlist_eq (gae lambda reward mask value).1 (td_residual reward mask value)
  ∧ (gae lambda reward mask value).2 == hd 0%Q value.
Proof.
  intros Hm Hv Hlam. revert mask value Hm Hv.
  induction reward as [|r reward IH]; intros [|m mask] [|v value] Hm Hv; try done.
  destruct (IH mask value) as [IHA IHp]; [simpl in *; lia..|].
  rewrite gae_cons. cbn [fst snd td_residual hd].
  split.
  - constructor; [|exact IHA]. by rewrite IHp.
  - rewrite IHp, Hlam. ring.
Qed.

(** Claim C4.  On a trajectory of [n] rewards and masks the loop of
    [AgentPPO.update_policy] returns [R] with [R[n-1] = reward[n-1]] and
    [R[i] = reward[i] + mask[i] * R[i+1]] below; the loop of
    [AgentGaePPO.update_policy] computes the same [R]; and on rewards
    [1, 1, 1] with masks [0.9, 0.9, 0] it is [2.71, 1.9, 1.0]. *)
Theorem C4_plain_discounted_return :
  (∀ junk reward mask n,
      length reward = n → length mask = n →
      ∃ R, AgentPPO.get__old_v junk reward mask n = Some R
           ∧ length R = n
           ∧ (∀ r, reward !! (n - 1) = Some r →
                ∃ x, R !! (n - 1) = Some x ∧ x == r)
           ∧ (∀ i r m x, i + 1 < n →
                reward !! i = Some r → mask !! i = Some m → R !! (i + 1) = Some x →
                R !! i = Some (r + m * x)%Q)
           ∧ (∀ junk_a lambda value, length value = n →
                ∃ A, AgentGaePPO.get__adv_v junk junk_a lambda reward mask value n
                     = Some (R, A)))
  ∧ (∀ junk,
      ∃ R, AgentPPO.get__old_v junk [1; 1; 1]%Q [9 # 10; 9 # 10; 0]%Q 3 = Some R
           ∧ Qlist_eq R [271 # 100; 19 # 10; 1]%Q).
Proof.
  split.
  - intros junk reward mask n Hr Hm. exists (plain_return reward mask).
    pose proof (length_plain_return reward mask ltac:(lia)) as HR.
    split; [by apply get__old_v_plain|]. split; [lia|]. split; [|split].
    + intros r Hlast.
      destruct (lookup_lt_is_Some_2 mask (n - 1)) as [m Hmask].
      { apply lookup_lt_Some in Hlast. lia. }
      rewrite (plain_return_lookup reward mask (n - 1) r m) by done.
      eexists. split; [reflexivity|].
      rewrite (lookup_ge_None_2 (plain_return reward mask)) by lia.
      simpl. ring.
    + intros i r m x Hi Hri Hmi Hx.
      rewrite (plain_return_lookup reward mask i r m) by done.
      rewrite Nat.add_1_r in Hx. by rewrite Hx.
    + intros junk_a lambda value Hv. eexists. by apply get__adv_v_gae.
  - intros junk. eexists. split; [reflexivity|].
    repeat constructor.
Qed.

Lemma C4_plain_discounted_return_witness :
  ∃ R, AgentPPO.get__old_v (λ _, 0%Q) [1; 1]%Q [1 # 2; 0]%Q 2 = Some R
       ∧ length R = 2
       ∧ R !! 0 = Some (1 + (1 # 2) * (1 + 0 * 0))%Q.
Proof.
  destruct C4_plain_discounted_return as [H _].
  destruct (H (λ _, 0%Q) [1; 1]%Q [1 # 2; 0]%Q 2 eq_refl eq_refl)
    as (R & HR & Hlen & _ & Hrec & _).
  exists R. split; [exact HR|]. split; [exact Hlen|].
  apply (Hrec 0 1%Q (1 # 2) (1 + 0 * 0)%Q); [lia | reflexivity | reflexivity |].
  vm_compute in HR. injection HR as <-. reflexivity.
Defined.

(** Claim C5 as stated fails at [lambda = 0]: on rewards [1, 1], masks
    [0.9, 0.9] and values [0, 0] the advantage of the first step is [1],
    the plain return minus the value is [1.9]. *)
Lemma C5_lambda_zero_is_not_return_minus_value :
  let zero : nat → Q := λ _, 0%Q in
  ∃ R A, AgentGaePPO.get__adv_v zero zero 0 [1; 1]%Q [9 # 10; 9 # 10]%Q [0; 0]%Q 2
         = Some (R, A)
         ∧ AgentPPO.get__old_v zero [1; 1]%Q [9 # 10; 9 # 10]%Q 2 = Some R
         ∧ ¬ Qlist_eq A (zip_with Qminus R [0; 0]%Q).
Proof.
  intros zero. eexists _, _. split; [vm_compute; reflexivity|].
  split; [vm_compute; reflexivity|].
  intros H. apply Forall2_cons_1 in H as [H _]. vm_compute in H. discriminate H.
Qed.

(** Claim C5, amended.  The loop of [AgentGaePPO.update_policy] returns
    the plain return [R] and the advantage; with [lambda = 1] the advantage
    is the plain return minus the value, [R[i] - V[i]]; with [lambda = 0]
    it is the one-step residual [reward[i] + mask[i] * V[i+1] - V[i]]
    (with [V[n] = 0]). *)
Theorem C5_gae_limits junk_o junk_a reward mask value n :
  length reward = n → length mask = n → length value = n →
  ∃ R A1 A0,
    AgentPPO.get__old_v junk_o reward mask n = Some R
    ∧ AgentGaePPO.get__adv_v junk_o junk_a 1 reward mask value n = Some (R, A1)
    ∧ AgentGaePPO.get__adv_v junk_o junk_a 0 reward mask value n = Some (R, A0)
    ∧ Qlist_eq A1 (zip_with Qminus R value)
    ∧ Qlist_eq A0 (td_residual reward mask value).
Proof.
  intros Hr Hm Hv.
  exists (plain_return reward mask), (gae 1 reward mask value).1,
         (gae 0 reward mask value).1.
  split; [by apply get__old_v_plain|].
  split; [by apply get__adv_v_gae|].
  split; [by apply get__adv_v_gae|].
  split.
  - apply gae_one; [lia | lia | reflexivity].
  - apply gae_zero; [lia | lia | reflexivity].
Qed.

Lemma C5_gae_limits_witness :
  ∃ R A1 A0,
    AgentGaePPO.get__adv_v (λ _, 0%Q) (λ _, 0%Q) 1 [1; 1]%Q [9 # 10; 0]%Q [1 # 2; 1 # 4]%Q 2
    = Some (R, A1)
    ∧ AgentGaePPO.get__adv_v (λ _, 0%Q) (λ _, 0%Q) 0 [1; 1]%Q [9 # 10; 0]%Q [1 # 2; 1 # 4]%Q 2
      = Some (R, A0)
    ∧ Qlist_eq A1 (zip_with Qminus R [1 # 2; 1 # 4]%Q)
    ∧ Qlist_eq A0 (td_residual [1; 1]%Q [9 # 10; 0]%Q [1 # 2; 1 # 4]%Q).
Proof.
  destruct (C5_gae_limits (λ _, 0%Q) (λ _, 0%Q) [1; 1]%Q [9 # 10; 0]%Q [1 # 2; 1 # 4]%Q 2
              eq_refl eq_refl eq_refl) as (R & A1 & A0 & _ & H1 & H0 & HA1 & HA0).
  exists R, A1, A0. done.
Defined.

(** ** soft_target_update *)

Lemma soft_target_update_same_shape tau target current :
  Forall2 (λ t p : row, length t = length p) target current →
  soft_target_update target current tau
  = Some (zip_with (zip_with (λ t p, tau * p + (1 - tau) * t)%Q) target current).
Proof.
  induction 1 as [|t p target current Hlen _ IH]; [done|].
  simpl. unfold blend. rewrite Hlen, Nat.eqb_refl. by rewrite IH.
Qed.

Lemma blend_zero (t p : row) :
  length t = length p →
  Qlist_eq (zip_with (λ t p, 0 * p + (1 - 0) * t)%Q t p) t.
Proof.
  revert p. induction t as [|x t IH]; intros [|y p] Hlen; try done.
  cbn [zip_with]. constructor; [ring | apply IH; simpl in Hlen; lia].
Qed.

Lemma blend_one (t p : row) :
  length t = length p →
  Qlist_eq (zip_with (λ t p, 1 * p + (1 - 1) * t)%Q t p) p.
Proof.
  revert p. induction t as [|x t IH]; intros [|y p] Hlen; try done.
  cbn [zip_with]. constructor; [ring | apply IH; simpl in Hlen; lia].
Qed.

(** Claim C6.  For a target and an online network of one shape,
    [soft_target_update] returns the target with every entry replaced by
    [tau * online + (1 - tau) * target]; with [tau = 0] that is the target
    it started from, with [tau = 1] it is the online network. *)
Theorem C6_soft_target_update tau target current :
  Forall2 (λ t p : row, length t = length p) target current →
  ∃ target' target0 target1,
    soft_target_update target current tau = Some target'
    ∧ target' = zip_with (zip_with (λ t p, tau * p + (1 - tau) * t)%Q) target current
    ∧ soft_target_update target current 0 = Some target0
    ∧ Forall2 Qlist_eq target0 target
    ∧ soft_target_update target current 1 = Some target1
    ∧ Forall2 Qlist_eq target1 current.
Proof.
  intros Hshape. eexists _, _, _.
  split; [by apply soft_target_update_same_shape|]. split; [done|].
  split; [by apply soft_target_update_same_shape|]. split.
  { induction Hshape as [|t p target current Hlen _ IH]; [constructor|].
    simpl. constructor; [by apply blend_zero | exact IH]. }
  split; [by apply soft_target_update_same_shape|].
  induction Hshape as [|t p target current Hlen _ IH]; [constructor|].
  simpl. constructor; [by apply blend_one | exact IH].
Qed.

Lemma C6_soft_target_update_witness :
  ∃ target',
    soft_target_update [[1; 2]; [3]]%Q [[5; 6]; [7]]%Q default_tau = Some target'
    ∧ target' = zip_with (zip_with (λ t p, default_tau * p + (1 - default_tau) * t)%Q)
                         [[1; 2]; [3]]%Q [[5; 6]; [7]]%Q.
Proof.
  destruct (C6_soft_target_update default_tau [[1; 2]; [3]]%Q [[5; 6]; [7]]%Q)
    as (target' & _ & _ & H & Heq & _).
  - repeat constructor.
  - by exists target'.
Defined.

(** ** The clipped surrogate *)

Section Surrogate.
Local Open Scope Q_scope.

Lemma Qltb_lt a b : Qltb a b = true ↔ a < b.
Proof.
  unfold Qltb. rewrite negb_true_iff, <- not_true_iff_false, Qle_bool_iff.
  split; [apply Qnot_le_lt | apply Qlt_not_le].
Qed.

Lemma clamp_cases x lo hi :
  lo <= hi →
  AgentPPO.clamp x lo hi
  == (if Qltb x lo then lo else if Qltb hi x then hi else x).
Proof.
  intros Hlohi. unfold AgentPPO.clamp.
  pose proof (Q.max_spec x lo) as Hmax.
  pose proof (Q.min_spec (Qmax x lo) hi) as Hmin.
  set (mx := Qmax x lo) in *. set (mn := Qmin mx hi) in *.
  destruct (Qltb x lo) eqn:Hlo; [|destruct (Qltb hi x) eqn:Hhi].
  - apply Qltb_lt in Hlo.
    destruct Hmax as [[? ?]|[? ?]], Hmin as [[? ?]|[? ?]]; lra.
  - apply Qltb_lt in Hhi. apply not_true_iff_false in Hlo. rewrite Qltb_lt in Hlo.
    destruct Hmax as [[? ?]|[? ?]], Hmin as [[? ?]|[? ?]]; lra.
  - apply not_true_iff_false in Hlo, Hhi. rewrite Qltb_lt in Hlo, Hhi.
    destruct Hmax as [[? ?]|[? ?]], Hmin as [[? ?]|[? ?]]; lra.
Qed.

(** Claim C9 as stated fails for a negative advantage: with a clip of
    [0.25], an advantage of [-1] and a ratio of [0.5] the term selected is
    [-0.75], below the unclamped [-0.5]. *)
Lemma C9_negative_advantage_below :
  (-1 < 0)%Q
  ∧ ¬ (AgentPPO.obj_surrogate1 (-1) (1 # 2)
       <= AgentPPO.surrogate AgentPPO.clip (-1) (1 # 2))%Q.
Proof. split; [reflexivity|]. intros H. vm_compute in H. by apply H. Qed.

(** Claim C9, amended.  For a ratio below [1 - clip] the clamped term is
    [advantage * (1 - clip)], for a ratio above [1 + clip] it is
    [advantage * (1 + clip)], in between it is the unclamped term; and the
    term selected by [min] is at most the unclamped term, whatever the sign
    of the advantage. *)
Theorem C9_clipped_surrogate clip advantage ratio :
  0 <= clip →
  AgentPPO.obj_surrogate2 clip advantage ratio
  == advantage * (if Qltb ratio (1 - clip) then 1 - clip
                  else if Qltb (1 + clip) ratio then 1 + clip else ratio)
  ∧ AgentPPO.surrogate clip advantage ratio <= AgentPPO.obj_surrogate1 advantage ratio.
Proof.
  intros Hclip. split.
  - unfold AgentPPO.obj_surrogate2. rewrite clamp_cases by lra. reflexivity.
  - apply Q.le_min_l.
Qed.

Lemma C9_clipped_surrogate_witness :
  AgentPPO.obj_surrogate2 AgentPPO.clip 2 (3 # 2) == 2 * (1 + AgentPPO.clip)
  ∧ AgentPPO.surrogate AgentPPO.clip 2 (3 # 2) <= AgentPPO.obj_surrogate1 2 (3 # 2).
Proof.
  apply (C9_clipped_surrogate AgentPPO.clip 2 (3 # 2)).
  unfold AgentPPO.clip. unfold Qle. simpl. lia.
Defined.

(** For a negative advantage the term selected is the unclamped one exactly
    when the ratio is not below [1 - clip]. *)
Lemma surrogate_negative_advantage clip advantage ratio :
  0 <= clip → advantage < 0 →
  (AgentPPO.obj_surrogate1 advantage ratio <= AgentPPO.surrogate clip advantage ratio
   ↔ 1 - clip <= ratio).
Proof.
  intros Hclip Hadv.
  unfold AgentPPO.surrogate, AgentPPO.obj_surrogate2, AgentPPO.obj_surrogate1.
  pose proof (clamp_cases ratio (1 - clip) (1 + clip) ltac:(lra)) as Hc.
  set (c := AgentPPO.clamp ratio (1 - clip) (1 + clip)) in *.
  assert (Hiff : advantage * ratio <= advantage * c ↔ c <= ratio) by (split; nra).
  split.
  - intros H.
    assert (advantage * ratio <= advantage * c).
    { eapply Qle_trans; [exact H | apply Q.le_min_r]. }
    apply Hiff in H0.
    destruct (Qltb ratio (1 - clip)) eqn:Hlo; [lra|].
    apply not_true_iff_false in Hlo. rewrite Qltb_lt in Hlo. lra.
  - intros Hlo. apply Q.min_glb; [lra|]. apply Hiff.
    destruct (Qltb ratio (1 - clip)) eqn:Hlo'.
    + apply Qltb_lt in Hlo'. lra.
    + destruct (Qltb (1 + clip) ratio) eqn:Hhi; [apply Qltb_lt in Hhi|]; lra.
Qed.

End Surrogate.

(** ** Counting the steps of an update *)

Lemma count_app p l k : count p (l ++ k) = count p l + count p k.
Proof. unfold count. by rewrite filter_app, length_app. Qed.

Lemma count_nil p : count p [] = 0.
Proof. done. Qed.

Lemma count_cons p e l : count p (e :: l) = (if p e then 1 else 0) + count p l.
Proof.
  unfold count. destruct (p e) eqn:He.
  - by rewrite filter_cons_True.
  - rewrite filter_cons_False; [done|]. by rewrite He.
Qed.

(** A loop whose passes succeed and append their events to the trace. *)
Lemma for_each_append indices (ev : nat → list event) body t0 :
  (∀ t i, i ∈ indices → body t i = Some (t ++ ev i)) →
  for_each indices body t0 = Some (t0 ++ concat (ev <$> indices)).
Proof.
  revert t0. induction indices as [|i indices IH]; intros t0 Hbody.
  - simpl. by rewrite app_nil_r.
  - simpl. rewrite Hbody by left.
    rewrite IH by (intros; apply Hbody; by right).
    by rewrite <- app_assoc.
Qed.

Lemma count_concat_const p (ev : nat → list event) indices c :
  (∀ i, i ∈ indices → count p (ev i) = c) →
  count p (concat (ev <$> indices)) = length indices * c.
Proof.
  induction indices as [|i indices IH]; intros Hc; [done|].
  rewrite fmap_cons. cbn [concat]. rewrite count_app, Hc by left.
  rewrite IH by (intros; apply Hc; by right). done.
Qed.

Lemma count_concat_app p (ev1 ev2 : nat → list event) indices :
  count p (concat ((λ i, ev1 i ++ ev2 i) <$> indices))
  = count p (concat (ev1 <$> indices)) + count p (concat (ev2 <$> indices)).
Proof.
  induction indices as [|i indices IH]; [done|].
  rewrite !fmap_cons. cbn [concat]. rewrite !count_app, IH. lia.
Qed.

(** The passes [i < n] with [i mod 2 = 0]. *)
Lemma count_concat_even p (ev : nat → list event) n :
  (∀ i, count p (ev i) = if i `mod` 2 =? 0 then 1 else 0) →
  count p (concat (ev <$> seq 0 n)) = (n + 1) `div` 2.
Proof.
  intros Hc. induction n as [|n IH]; [done|].
  rewrite seq_S, fmap_app, concat_app, count_app, IH.
  cbn [fmap list_fmap concat Nat.add]. rewrite app_nil_r, Hc.
  pose proof (Nat.div_mod_eq n 2) as En.
  pose proof (Nat.mod_upper_bound n 2 ltac:(lia)) as Hn.
  pose proof (Nat.div_mod_eq (n + 1) 2) as E1.
  pose proof (Nat.mod_upper_bound (n + 1) 2 ltac:(lia)) as H1.
  pose proof (Nat.div_mod_eq (S (n + 1)) 2) as E2.
  pose proof (Nat.mod_upper_bound (S (n + 1)) 2 ltac:(lia)) as H2.
  destruct (Nat.eqb_spec (n `mod` 2) 0); lia.
Qed.

Lemma random_sample_is_Some rng cap b batch_size :
  ReplayBufferBase.wf cap b → 2 ≤ ReplayBufferBase.now_len b →
  is_Some (ReplayBufferGPU.random_sample rng b batch_size).
Proof.
  intros [_ _ Hle Hs Ho] Hnow.
  destruct (torch_randint_spec rng (ReplayBufferBase.now_len b - 1) batch_size ltac:(lia))
    as (indices & Hdraw & _ & Hin).
  unfold ReplayBufferGPU.random_sample. rewrite Hdraw.
  rewrite (gather_total (ReplayBufferBase.all_other b) indices),
          (gather_total (ReplayBufferBase.all_state b) indices),
          (gather_total (ReplayBufferBase.all_state b)); [done|..].
  - apply Forall_fmap. eapply Forall_impl; [exact Hin|]. simpl. intros i ?. lia.
  - eapply Forall_impl; [exact Hin|]. simpl. intros i ?. lia.
  - eapply Forall_impl; [exact Hin|]. simpl. intros i ?. lia.
Qed.

Lemma refresh_wf cap b :
  ReplayBufferBase.wf cap b →
  ReplayBufferBase.wf cap (ReplayBufferBase.update__now_len__before_sample b).
Proof.
  intros [Hmax ? ? ? ?]. split; simpl; try done.
  destruct (ReplayBufferBase.if_full b); lia.
Qed.

(** The loop of the off-policy agents. *)
Lemma off_policy_update_trace sync rng cap b max_step batch_size repeat_times :
  ReplayBufferBase.wf cap b →
  2 ≤ ReplayBufferBase.now_len (ReplayBufferBase.update__now_len__before_sample b) →
  0 < max_step * repeat_times →
  off_policy_update sync rng b max_step batch_size repeat_times
  = Some (ReplayBufferBase.update__now_len__before_sample b,
          concat ((λ i, [EvSample batch_size; EvOptimizerStep] ++ sync i)
                    <$> range (max_step * repeat_times))).
Proof.
  intros Hwf Hnow Hpass. unfold off_policy_update.
  rewrite (for_each_append _ (λ i, [EvSample batch_size; EvOptimizerStep] ++ sync i)).
  - by destruct (Nat.eqb_spec (max_step * repeat_times) 0); [lia|].
  - intros t i _. unfold off_policy_body.
    destruct (random_sample_is_Some (λ k, rng (i * batch_size + k)) cap
                (ReplayBufferBase.update__now_len__before_sample b) batch_size
                (refresh_wf _ _ Hwf) Hnow) as [batch ->].
    done.
Qed.

Lemma off_policy_update_performs sync rng cap b max_step batch_size repeat_times
    sync_act sync_cri :
  ReplayBufferBase.wf cap b →
  2 ≤ ReplayBufferBase.now_len (ReplayBufferBase.update__now_len__before_sample b) →
  0 < max_step * repeat_times →
  (∀ i, count is_step (sync i) = 0) →
  (∀ i, count is_sample (sync i) = 0) →
  count (is_sync ActTarget) (concat (sync <$> range (max_step * repeat_times))) = sync_act →
  count (is_sync CriTarget) (concat (sync <$> range (max_step * repeat_times))) = sync_cri →
  performs (off_policy_update sync rng b max_step batch_size repeat_times)
           (max_step * repeat_times) sync_act sync_cri.
Proof.
  intros Hwf Hnow Hpass Hstep Hsample Hact Hcri.
  eexists _, _. split; [by eapply off_policy_update_trace|].
  assert (Hlen : length (range (max_step * repeat_times)) = max_step * repeat_times)
    by apply length_seq.
  assert (Hsync : ∀ p, p EvOptimizerStep = false → (∀ n, p (EvSample n) = false) →
            count p (concat ((λ i, [EvSample batch_size; EvOptimizerStep] ++ sync i)
                               <$> range (max_step * repeat_times)))
            = count p (concat (sync <$> range (max_step * repeat_times)))).
  { intros p Hp1 Hp2.
    rewrite (count_concat_app p (λ _, [EvSample batch_size; EvOptimizerStep]) sync).
    rewrite (count_concat_const _ _ _ 0); [lia|].
    intros i _. by rewrite !count_cons, Hp1, Hp2. }
  split; [|split; [|split]].
  - rewrite (count_concat_const _ _ _ 1), Hlen; [lia|].
    intros i _. cbn [app]. rewrite !count_cons, Hstep. done.
  - rewrite (count_concat_const _ _ _ 1), Hlen; [lia|].
    intros i _. cbn [app]. rewrite !count_cons, Hsample. done.
  - by rewrite Hsync.
  - by rewrite Hsync.
Qed.

(** The loop of [AgentModSAC]: the critic target follows every pass, the
    actor target only the passes that update the actor. *)
Lemma modsac_loop rng lamb cap b batch_size_ indices trace update_a :
  ReplayBufferBase.wf cap b → 2 ≤ ReplayBufferBase.now_len b →
  ∃ trace' update_a',
    for_each indices (AgentModSAC.body rng lamb b batch_size_) (trace, update_a)
    = Some (trace ++ trace', update_a')
    ∧ count is_step trace' = length indices
    ∧ count is_sample trace' = length indices
    ∧ count (is_sync CriTarget) trace' = length indices
    ∧ count (is_sync ActTarget) trace' = update_a' - update_a
    ∧ update_a ≤ update_a' ≤ update_a + length indices.
Proof.
  intros Hwf Hnow. revert trace update_a.
  induction indices as [|update_c indices IH]; intros trace update_a.
  - exists [], update_a. simpl. rewrite app_nil_r, !count_nil.
    repeat split; try done; lia.
  - cbn [for_each AgentModSAC.body].
    destruct (random_sample_is_Some (λ k, rng (update_c * batch_size_ + k)) cap b
                batch_size_ Hwf Hnow) as [batch ->].
    set (if_update_a := Qltb _ _).
    set (sync := if if_update_a then [EvSoftUpdate ActTarget] else []).
    destruct (IH (trace ++ [EvSample batch_size_; EvOptimizerStep; EvSoftUpdate CriTarget]
                        ++ sync)
                 (if if_update_a then update_a + 1 else update_a))
      as (trace' & update_a' & -> & Hs & Hb & Hc & Ha & Hle).
    exists (([EvSample batch_size_; EvOptimizerStep; EvSoftUpdate CriTarget] ++ sync)
            ++ trace'), update_a'.
    split; [by rewrite <- !app_assoc|].
    rewrite !count_app. cbn [app]. rewrite !count_cons. cbn [is_step is_sample is_sync].
    rewrite Hs, Hb, Hc, Ha. unfold sync. cbn [length].
    destruct if_update_a; rewrite ?count_cons, ?count_nil; cbn [is_step is_sample is_sync];
      repeat split; lia.
Qed.

(** The same loop, event by event: [if_update_a] tells the passes that
    update the actor. *)
Lemma modsac_trace rng lamb cap b batch_size_ len start trace update_a :
  ReplayBufferBase.wf cap b → 2 ≤ ReplayBufferBase.now_len b →
  ∃ (if_update_a : nat → bool) update_a',
    for_each (seq start len) (AgentModSAC.body rng lamb b batch_size_) (trace, update_a)
    = Some (trace ++ passes (seq start len) (modsac_pass batch_size_ if_update_a), update_a').
Proof.
  intros Hwf Hnow. revert start trace update_a.
  induction len as [|len IH]; intros start trace update_a.
  - exists (λ _, false), update_a. unfold passes. simpl. by rewrite app_nil_r.
  - cbn [seq for_each AgentModSAC.body].
    destruct (random_sample_is_Some (λ k, rng (start * batch_size_ + k)) cap b
                batch_size_ Hwf Hnow) as [batch ->].
    set (gate := Qltb _ _).
    destruct (IH (S start)
                 (trace ++ [EvSample batch_size_; EvOptimizerStep; EvSoftUpdate CriTarget]
                        ++ (if gate then [EvSoftUpdate ActTarget] else []))
                 (if gate then update_a + 1 else update_a))
      as (f & update_a' & ->).
    set (f' := λ c, if c =? start then gate else f c).
    exists f', update_a'.
    assert (Hext : passes (seq (S start) len) (modsac_pass batch_size_ f)
                   = passes (seq (S start) len) (modsac_pass batch_size_ f')).
    { unfold passes. f_equal. apply Forall_fmap_ext_1, Forall_forall. intros c Hc.
      apply elem_of_seq in Hc. unfold modsac_pass, f'.
      destruct (Nat.eqb_spec c start); [lia | done]. }
    rewrite Hext. unfold passes at 2. rewrite fmap_cons. cbn [concat].
    fold (passes (seq (S start) len) (modsac_pass batch_size_ f')).
    unfold modsac_pass at 2. unfold f' at 2. rewrite Nat.eqb_refl.
    by rewrite <- !app_assoc.
Qed.

Lemma count_passes_const p (pass : nat → list event) indices c :
  (∀ i, i ∈ indices → count p (pass i) = c) →
  count p (passes indices pass) = length indices * c.
Proof. apply count_concat_const. Qed.

Lemma modsac_update_policy_trace rng lamb cap b max_step batch_size repeat_times
    batch_size_ train_steps :
  ReplayBufferBase.wf cap b →
  let buffer := ReplayBufferBase.update__now_len__before_sample b in
  2 ≤ ReplayBufferBase.now_len buffer →
  AgentModSAC.batch_size_ buffer batch_size = Some batch_size_ →
  AgentModSAC.train_steps buffer max_step repeat_times = Some train_steps →
  ∃ (if_update_a : nat → bool) sync_act,
    AgentModSAC.update_policy rng lamb b max_step batch_size repeat_times
    = Some (buffer, passes (range_from 1 train_steps) (modsac_pass batch_size_ if_update_a))
    ∧ sync_act ≤ train_steps - 1
    ∧ performs (AgentModSAC.update_policy rng lamb b max_step batch_size repeat_times)
               (train_steps - 1) sync_act (train_steps - 1).
Proof.
  intros Hwf buffer Hnow Hbatch Hsteps.
  pose proof (refresh_wf _ _ Hwf) as Hwf'. fold buffer in Hwf'.
  unfold AgentModSAC.update_policy. fold buffer. rewrite Hbatch, Hsteps.
  destruct (modsac_trace rng lamb cap buffer batch_size_ (train_steps - 1) 1 [] 0 Hwf' Hnow)
    as (f & update_a' & Hrun).
  destruct (modsac_loop rng lamb cap buffer batch_size_ (range_from 1 train_steps) [] 0
              Hwf' Hnow)
    as (trace' & update_a'' & Hrun' & Hs & Hb & Hc & Ha & Hle).
  unfold range_from in *. rewrite Hrun in Hrun'. injection Hrun' as <- <-.
  rewrite Hrun. cbn [app].
  assert (Hlen : length (seq 1 (train_steps - 1)) = train_steps - 1) by apply length_seq.
  rewrite Hlen in *.
  exists f, update_a'. split; [done|]. split; [lia|].
  eexists _, _. split; [reflexivity|]. repeat split; try done; lia.
Qed.

(** The loop of [AgentPPO] and [AgentGaePPO]: no target is synchronised,
    and the actions whose log-probability is computed are rows of the
    action columns of the buffer. *)
Lemma ppo_update_policy_trace rng cap c _max_step batch_size repeat_times sample_times :
  ReplayBufferBase.wf cap (ReplayBufferCPU.base c) →
  let c' := ReplayBufferCPU.update__now_len__before_sample c in
  let max_memo := ReplayBufferBase.now_len (ReplayBufferCPU.base c') in
  let all_other := ReplayBufferBase.all_other (ReplayBufferCPU.base c') in
  let all_state := ReplayBufferBase.all_state (ReplayBufferCPU.base c') in
  0 < max_memo →
  AgentPPO.sample_times repeat_times max_memo batch_size = Some sample_times →
  0 < sample_times →
  AgentPPO.update_policy rng c _max_step batch_size repeat_times
  = Some (c',
          passes (range sample_times) (λ k,
            let indices := (λ j, rng (k * batch_size + j) `mod` max_memo) <$> seq 0 batch_size in
            ppo_pass batch_size
              ((λ i, all_state !!! i) <$> indices)
              ((λ i, take (ReplayBufferCPU.action_dim c) (drop 2 (all_other !!! i)))
                 <$> indices))).
Proof.
  intros Hwf c' max_memo all_other all_state Hmemo Htimes Hpass.
  pose proof (refresh_wf _ _ Hwf) as [_ _ Hle Hs Ho].
  change (max_memo ≤ cap) in Hle.
  change (length all_state = cap) in Hs. change (length all_other = cap) in Ho.
  unfold AgentPPO.update_policy, ReplayBufferCPU.sample_for_ppo.
  fold c'. fold max_memo. fold all_other. fold all_state.
  rewrite length_take.
  destruct (Nat.eqb_spec (max_memo `min` length all_state) 0) as [H0|_].
  { lia. }
  rewrite Htimes. unfold passes.
  match goal with
  | |- _ = Some (_, concat (?ev <$> _)) => rewrite (for_each_append _ ev)
  end.
  { destruct (Nat.eqb_spec sample_times 0) as [H0|_]; [lia | done]. }
  intros t k _. unfold AgentPPO.update_body.
  destruct (torch_randint_spec (λ j, rng (k * batch_size + j)) max_memo batch_size Hmemo)
    as (indices & Hdraw & _ & Hin).
  rewrite Hdraw.
  assert (Hindices : indices
            = (λ j, rng (k * batch_size + j) `mod` max_memo) <$> seq 0 batch_size).
  { unfold torch_randint in Hdraw. destruct (0 <? max_memo); [|done].
    by injection Hdraw as <-. }
  rewrite (gather_total (take max_memo all_state) indices),
          (gather_total (_ <$> take max_memo all_other) indices).
  - rewrite <- Hindices. unfold ppo_pass. do 3 f_equal. f_equal. f_equal.
    + apply Forall_fmap_ext_1. eapply Forall_impl; [exact Hin|]. simpl. intros i Hi.
      by rewrite lookup_total_take_lt.
    + apply Forall_fmap_ext_1. eapply Forall_impl; [exact Hin|]. simpl. intros i Hi.
      rewrite (list_lookup_total_fmap (take (ReplayBufferCPU.action_dim c') ∘ drop 2)
                 (take max_memo all_other) i)
        by (rewrite length_take; lia).
      by rewrite lookup_total_take_lt.
  - rewrite length_fmap, length_take, Ho.
    eapply Forall_impl; [exact Hin|]. simpl. intros i ?. lia.
  - rewrite length_take, Hs.
    eapply Forall_impl; [exact Hin|]. simpl. intros i ?. lia.
Qed.

(** Claim C7 as stated fails for the on-policy agent, which is not
    adaptive: on a buffer that shows three entries, with a step budget of
    four, a batch of three and a repeat factor of two, [AgentPPO] makes two
    gradient steps, not eight, and synchronises no target. *)
Lemma C7_ppo_ignores_step_budget :
  let zero : nat → nat → Q := λ _ _, 0%Q in
  let e (x : Q) : row * row := ([x], [x; 1; x; x]%Q) in
  ∃ c0 c trace,
    ReplayBufferCPU.append_all (ReplayBufferCPU.init zero zero 8 1 1) [e 1; e 2; e 3]%Q
    = Some c0
    ∧ AgentPPO.update_policy (λ k, k) c0 4 3 2 = Some (c, trace)
    ∧ count is_step trace = 2
    ∧ count is_step trace ≠ 4 * 2
    ∧ count (is_sync ActTarget) trace = 0
    ∧ count (is_sync CriTarget) trace = 0.
Proof.
  intros zero e. eexists _, _, _. split; [reflexivity|].
  split; [vm_compute; reflexivity|].
  split; [reflexivity|]. split; [vm_compute; lia|]. split; reflexivity.
Qed.

(** Claim C7, amended.  Each agent on its own conditions, and each trace
    pass by pass: a pass draws one batch, steps the optimizer once and then
    synchronises targets.

    The off-policy agents other than [AgentModSAC], on a reachable buffer
    that shows two entries or more and for a budget above zero, make
    [max_step * repeat_times] passes; [AgentDQN], [AgentDoubleDQN] and
    [AgentD3QN] synchronise their one target in every pass, [AgentDDPG] and
    [AgentSAC] the critic target and then the actor target in every pass,
    [AgentTD3] both in every second pass, the first included.

    [AgentModSAC] makes [train_steps - 1] passes (its loop is
    [range(1, train_steps)]) with batches of [batch_size_], where
    [train_steps = int(max_step * k * repeat_times)],
    [batch_size_ = int(batch_size * k)] and [k = 1 + now_len / max_len] are
    computed in floats; it synchronises the critic target in every pass and
    the actor target behind it in the passes that update the actor.

    [AgentPPO] and [AgentGaePPO], on a reachable buffer that shows an entry
    or more, make [int(repeat_times * now_len / batch_size)] passes when
    that is one or more, whatever [max_step] is; a pass draws a batch,
    computes the log-probability of its actions and steps the optimizer, and
    no target is synchronised. *)
Theorem C7_update_policy_steps cap :
  0 < cap →
  (∀ b rng max_step batch_size repeat_times,
      reachable_buffer_gpu cap b →
      2 ≤ ReplayBufferBase.now_len (ReplayBufferBase.update__now_len__before_sample b) →
      0 < max_step * repeat_times →
      let buffer := ReplayBufferBase.update__now_len__before_sample b in
      let n := max_step * repeat_times in
      let draw := [EvSample batch_size; EvOptimizerStep] in
      let both := [EvSoftUpdate CriTarget; EvSoftUpdate ActTarget] in
      AgentDQN.update_policy rng b max_step batch_size repeat_times
      = Some (buffer, passes (range n) (λ _, draw ++ [EvSoftUpdate ActTarget]))
      ∧ AgentDoubleDQN.update_policy rng b max_step batch_size repeat_times
        = Some (buffer, passes (range n) (λ _, draw ++ [EvSoftUpdate ActTarget]))
      ∧ AgentD3QN.update_policy rng b max_step batch_size repeat_times
        = Some (buffer, passes (range n) (λ _, draw ++ [EvSoftUpdate ActTarget]))
      ∧ AgentDDPG.update_policy rng b max_step batch_size repeat_times
        = Some (buffer, passes (range n) (λ _, draw ++ both))
      ∧ AgentSAC.update_policy rng b max_step batch_size repeat_times
        = Some (buffer, passes (range n) (λ _, draw ++ both))
      ∧ AgentTD3.update_policy rng b max_step batch_size repeat_times
        = Some (buffer, passes (range n)
                          (λ i, draw ++ if i `mod` 2 =? 0 then both else []))
      ∧ performs (AgentDQN.update_policy rng b max_step batch_size repeat_times) n n 0
      ∧ performs (AgentDDPG.update_policy rng b max_step batch_size repeat_times) n n n
      ∧ performs (AgentTD3.update_policy rng b max_step batch_size repeat_times)
                 n ((n + 1) `div` 2) ((n + 1) `div` 2))
  ∧ (∀ b rng lamb max_step batch_size repeat_times batch_size_ train_steps,
      reachable_buffer_gpu cap b →
      let buffer := ReplayBufferBase.update__now_len__before_sample b in
      2 ≤ ReplayBufferBase.now_len buffer →
      AgentModSAC.batch_size_ buffer batch_size = Some batch_size_ →
      AgentModSAC.train_steps buffer max_step repeat_times = Some train_steps →
      ∃ (if_update_a : nat → bool) sync_act,
        AgentModSAC.update_policy rng lamb b max_step batch_size repeat_times
        = Some (buffer,
                passes (range_from 1 train_steps) (modsac_pass batch_size_ if_update_a))
        ∧ sync_act ≤ train_steps - 1
        ∧ performs (AgentModSAC.update_policy rng lamb b max_step batch_size repeat_times)
                   (train_steps - 1) sync_act (train_steps - 1))
  ∧ (∀ c rng max_step batch_size repeat_times sample_times,
      reachable_buffer_cpu cap c →
      let buffer := ReplayBufferCPU.update__now_len__before_sample c in
      let now_len := ReplayBufferBase.now_len (ReplayBufferCPU.base buffer) in
      0 < now_len →
      AgentPPO.sample_times repeat_times now_len batch_size = Some sample_times →
      0 < sample_times →
      ∃ batch : nat → list row * list row,
        AgentPPO.update_policy rng c max_step batch_size repeat_times
        = Some (buffer,
                passes (range sample_times)
                       (λ k, ppo_pass batch_size (batch k).1 (batch k).2))
        ∧ AgentGaePPO.update_policy rng c max_step batch_size repeat_times
          = AgentPPO.update_policy rng c max_step batch_size repeat_times
        ∧ performs (AgentPPO.update_policy rng c max_step batch_size repeat_times)
                   sample_times 0 0).
Proof.
  intros Hcap. split; [|split].
  - intros b rng max_step batch_size repeat_times (js & jo & sd & ad & p & Hb) Hnow Hpass
           buffer n draw both.
    destruct (gpu_reachable_wf js jo cap sd ad p b Hcap Hb) as [Hwf _].
    pose proof (λ sync, off_policy_update_trace sync rng cap b max_step batch_size
                          repeat_times Hwf Hnow Hpass) as Htrace.
    assert (Hlen : length (range n) = n) by apply length_seq.
    assert (Hone : ∀ target e, count (is_sync target) (concat ((λ _, [e]) <$> range n))
                               = n * count (is_sync target) [e]).
    { intros target e.
      rewrite (count_concat_const _ _ _ (count (is_sync target) [e])); [|done].
      by rewrite Hlen. }
    assert (Htwo : ∀ target,
              count (is_sync target)
                (concat ((λ _, [EvSoftUpdate CriTarget; EvSoftUpdate ActTarget]) <$> range n))
              = n).
    { intros target. rewrite (count_concat_const _ _ _ 1), Hlen; [lia|].
      intros i _. by destruct target. }
    split; [exact (Htrace _)|]. split; [exact (Htrace _)|]. split; [exact (Htrace _)|].
    split; [exact (Htrace _)|]. split; [exact (Htrace _)|]. split; [exact (Htrace _)|].
    split; [|split].
    + apply (off_policy_update_performs _ rng cap b max_step batch_size repeat_times n 0
               Hwf Hnow Hpass); try done.
      * fold n. rewrite Hone, count_cons. simpl. rewrite count_nil. lia.
      * fold n. rewrite Hone, count_cons. simpl. rewrite count_nil. lia.
    + apply (off_policy_update_performs _ rng cap b max_step batch_size repeat_times n n
               Hwf Hnow Hpass); try done; apply Htwo.
    + apply (off_policy_update_performs _ rng cap b max_step batch_size repeat_times
               ((n + 1) `div` 2) ((n + 1) `div` 2) Hwf Hnow Hpass).
      * intros i. by destruct (_ =? _).
      * intros i. by destruct (_ =? _).
      * apply count_concat_even. intros i. by destruct (_ =? _).
      * apply count_concat_even. intros i. by destruct (_ =? _).
  - intros b rng lamb max_step batch_size repeat_times batch_size_ train_steps
           (js & jo & sd & ad & p & Hb) buffer Hnow Hbatch Hsteps.
    destruct (gpu_reachable_wf js jo cap sd ad p b Hcap Hb) as [Hwf _].
    by apply (modsac_update_policy_trace rng lamb cap).
  - intros c rng max_step batch_size repeat_times sample_times
           (js & jo & sd & ad & Hc) buffer now_len Hmemo Htimes Hpass.
    destruct (cpu_reachable_wf js jo cap sd ad c Hcap Hc) as [Hwfc _].
    pose proof (ppo_update_policy_trace rng cap c max_step batch_size repeat_times
                  sample_times Hwfc Hmemo Htimes Hpass) as Htrace.
    cbn zeta in Htrace.
    eexists (λ k, (_, _)). split; [exact Htrace|]. split; [done|].
    eexists _, _. split; [exact Htrace|].
    assert (Hm : length (range sample_times) = sample_times) by apply length_seq.
    split; [|split; [|split]].
    + rewrite (count_passes_const _ _ _ 1), Hm; [lia | done].
    + rewrite (count_passes_const _ _ _ 1), Hm; [lia | done].
    + rewrite (count_passes_const _ _ _ 0), Hm; [lia | done].
    + rewrite (count_passes_const _ _ _ 0), Hm; [lia | done].
Qed.

Lemma C7_update_policy_steps_witness :
  let b := ReplayBufferBase.mk 3 0 2 false
             [[1]; [2]; [0]]%Q
             [[1; 1; 1]; [2; 1; 2]; [0; 0; 0]]%Q in
  let c := ReplayBufferCPU.mk
             (ReplayBufferBase.mk 4 0 2 false
                [[1]; [2]; [0]; [0]]%Q
                [[1; 1; 1; 1]; [2; 1; 2; 2]; [0; 0; 0; 0]; [0; 0; 0; 0]]%Q)
             true 1 in
  performs (AgentDQN.update_policy (λ k, k) b 2 2 3) 6 6 0
  ∧ performs (AgentTD3.update_policy (λ k, k) b 2 2 3) 6 3 3
  ∧ (∃ sync_act,
        performs (AgentModSAC.update_policy (λ k, k) (λ _, 1 # 2) b 5 1 3) 23 sync_act 23)
  ∧ performs (AgentPPO.update_policy (λ k, k) c 2 2 3) 3 0 0.
Proof.
  intros b c.
  assert (Hb : reachable_buffer_gpu 3 b).
  { exists (λ _ _, 0%Q), (λ _ _, 0%Q), 1, 1, false.
    exists [ReplayBufferGPU.Append [1%Q] [1; 1; 1]%Q;
            ReplayBufferGPU.Append [2%Q] [2; 1; 2]%Q].
    reflexivity. }
  assert (Hc : reachable_buffer_cpu 4 c).
  { exists (λ _ _, 0%Q), (λ _ _, 0%Q), 1, 1.
    exists [ReplayBufferCPU.Append [1%Q] [1; 1; 1; 1]%Q;
            ReplayBufferCPU.Append [2%Q] [2; 1; 2; 2]%Q].
    reflexivity. }
  destruct (C7_update_policy_steps 3 ltac:(lia)) as (Hoff & Hmod & _).
  destruct (C7_update_policy_steps 4 ltac:(lia)) as (_ & _ & Hppo).
  destruct (Hoff b (λ k, k) 2 2 3 Hb ltac:(simpl; lia) ltac:(lia))
    as (_ & _ & _ & _ & _ & _ & Hdqn & _ & Htd3).
  destruct (Hmod b (λ k, k) (λ _, 1 # 2) 5 1 3 1 24 Hb ltac:(simpl; lia) eq_refl eq_refl)
    as (_ & sync_act & _ & _ & Hmodsac).
  destruct (Hppo c (λ k, k) 2 2 3 3 Hc ltac:(simpl; lia) eq_refl ltac:(lia))
    as (_ & _ & _ & Hp).
  split; [exact Hdqn|]. split; [exact Htd3|]. split; [by exists sync_act | exact Hp].
Defined.

(** ** The training loop *)

Lemma loop_body_if_solve w st : Main.if_solve (Main.loop_body w st) = Main.if_solve st.
Proof. unfold Main.loop_body. by destruct (Evaluator.evaluate_and_save _ _ _ _). Qed.

(** With [if_solve] down the loop does not read [if_break_early]. *)
Lemma train_loop_early_unread fuel if_break_early break_step w st :
  Main.if_solve st = false →
  Main.train_loop fuel if_break_early break_step w st
  = Main.train_loop fuel false break_step w st.
Proof.
  revert st. induction fuel as [|fuel IH]; intros st Hst; [done|].
  simpl. unfold Main.stop_condition. rewrite Hst, andb_false_r. simpl.
  destruct (_ || _); [done|]. apply IH. by rewrite loop_body_if_solve.
Qed.

(** Claim C8, on the code.  The loop never assigns [if_solve], so early
    stopping cannot fire: whatever [if_break_early], the run is the run
    with early stopping disabled.  With early stopping enabled, a target
    reward of [0], evaluations that average [1], four steps per pass, a
    budget of ten steps and no stop file, the evaluator has the policy
    solved after the first pass, the loop condition read next lets the
    loop go on, and the loop ends after three passes, on the step budget. *)
Theorem C8_early_stop_never_fires :
  (∀ fuel if_break_early break_step target_reward w steps,
      Main.train_and_evaluate fuel if_break_early break_step target_reward w steps
      = Main.train_and_evaluate fuel false break_step target_reward w steps)
  ∧ (let w := Main.mk_world (λ _, 4) (λ _, 1%Q) (λ _, false) (λ k, k) in
     let start := Main.mk_loop 0 false (Evaluator.init 0) 0 in
     Evaluator.solved (Main.evaluator (Main.loop_body w start)) = true
     ∧ Main.stop_condition true 10 w (Main.loop_body w start) = false
     ∧ ∃ st, Main.train_and_evaluate 10 true 10 0 w 0 = Some st
             ∧ Main.passes st = 3
             ∧ Main.total_step st = 12
             ∧ Main.if_solve st = false
             ∧ Evaluator.solved (Main.evaluator st) = true).
Proof.
  split.
  - intros. by apply train_loop_early_unread.
  - split; [reflexivity|]. split; [reflexivity|].
    eexists. split; [reflexivity|]. repeat split; reflexivity.
Qed.

(** ** The on-policy collect phase *)

Section Collecting.
Context {E G : Type}.
Variable env_reset : E → E * row.
Variable env_step : E → row → E * (row * Q * bool).
Variable get__action_noise : G → row → G * (row * row).
Variable tanh : Q → Q.
Variables cap state_dim action_dim : nat.
Variable e0 : E.
Variable g0 : G.
Variables reward_scale gamma : Q.
Hypothesis Hreset : ∀ e, length (env_reset e).2 = state_dim.
Hypothesis Hstep : ∀ e a, length (env_step e a).2.1.1 = state_dim.
Hypothesis Haction : ∀ g state, length (get__action_noise g state).2.1 = action_dim.
Hypothesis Hnoise : ∀ g state, length (get__action_noise g state).2.2 = action_dim.

Local Abbreviation collect := (AgentPPO.collect (E := E) (G := G)).
Local Abbreviation episode :=
  (AgentPPO.episode env_step get__action_noise tanh reward_scale gamma).
Local Abbreviation explore :=
  (AgentPPO.explore env_reset env_step get__action_noise tanh).
Local Abbreviation trajectory :=
  (ppo_trajectory env_reset env_step get__action_noise tanh e0 g0).

Local Abbreviation collecting :=
  (collecting env_reset env_step get__action_noise tanh cap state_dim action_dim e0 g0
              reward_scale gamma).
Local Abbreviation ready := (ready env_reset state_dim e0 g0).

Lemma trajectory_snoc steps (s : ppo_step E G) :
  trajectory steps →
  ready steps (ps_env s) (ps_gen s) (ps_state s) →
  get__action_noise (ps_gen s) (ps_state s) = (ps_gen' s, (ps_action s, ps_noise s)) →
  env_step (ps_env s) (tanh <$> ps_action s)
  = (ps_env' s, (ps_next_state s, ps_reward s, ps_done s)) →
  trajectory (steps ++ [s]).
Proof.
  intros (Heach & Hfirst & Hnext) [_ Hready] Hpolicy Henv.
  rewrite last_lookup in Hready.
  split; [|split].
  - intros k s' Hk. destruct (decide (k < length steps)) as [Hlt|Hge].
    + rewrite lookup_app_l in Hk by done. by apply (Heach k).
    + rewrite lookup_app_r in Hk by lia.
      apply list_lookup_singleton_Some in Hk as [_ <-]. done.
  - intros s' Hs'. destruct steps as [|p steps].
    + injection Hs' as <-. simpl in Hready. by destruct Hready as [<- ?].
    + apply Hfirst. done.
  - intros k s1 s2 H1 H2.
    destruct (decide (S k < length steps)) as [Hlt|Hge].
    + rewrite lookup_app_l in H1, H2 by lia. by apply (Hnext k).
    + assert (S k = length steps) as Hk.
      { apply lookup_lt_Some in H2. rewrite length_app in H2. simpl in H2. lia. }
      rewrite lookup_app_l in H1 by lia.
      rewrite lookup_app_r, Hk, Nat.sub_diag in H2 by lia. injection H2 as <-.
      replace (pred (length steps)) with k in Hready by lia.
      rewrite H1 in Hready. done.
Qed.

(** One episode of at most [n] steps, with room for [n] more rows. *)
Lemma episode_collecting n state (st : collect) steps :
  collecting steps st →
  ready steps (AgentPPO.env st) (AgentPPO.gen st) state →
  length steps + n < cap →
  ∃ st' new,
    episode n state st = Some st'
    ∧ collecting (steps ++ new) st'
    ∧ length new ≤ n
    ∧ (0 < n → new ≠ [])
    ∧ (new ≠ [] → resting e0 g0 (steps ++ new) (AgentPPO.env st') (AgentPPO.gen st')).
Proof.
  revert state st steps. induction n as [|n IH]; intros state st steps Hst Hready Hroom.
  { exists st, []. rewrite app_nil_r. split; [done|]. split; [done|].
    split; [done|]. split; [lia | done]. }
  cbn [AgentPPO.episode]. unfold AgentPPO.select_actions, AgentPPO.np_tanh.
  pose proof (Haction (AgentPPO.gen st) state) as Hwa.
  pose proof (Hnoise (AgentPPO.gen st) state) as Hwn.
  destruct (get__action_noise (AgentPPO.gen st) state) as [g [action noise]] eqn:Hpolicy.
  simpl in Hwa, Hwn.
  pose proof (Hstep (AgentPPO.env st) (tanh <$> action)) as Hws.
  destruct (env_step (AgentPPO.env st) (tanh <$> action))
    as [e [[next_state reward] done]] eqn:Henv.
  simpl in Hws.
  set (s := mk_ppo_step E G (AgentPPO.env st) (AgentPPO.gen st) state action noise
                        e g next_state reward done).
  destruct Hst as (Hholds & Hshape & Hif & Had & Hcount & Hlen & Htraj).
  destruct (cpu_append_memo_holds cap state_dim (ReplayBufferCPU.other_dim action_dim)
              (ppo_row reward_scale gamma <$> steps) (AgentPPO.buffer st)
              state ((reward * reward_scale)%Q :: (if done then 0%Q else gamma)
                       :: action ++ noise))
    as (c' & -> & Hholds' & Hshape' & _ & Hif' & _ & Had'); [lia | done | done | | |].
  { by destruct Hready. }
  { simpl. rewrite length_app. unfold ReplayBufferCPU.other_dim. lia. }
  set (st1 := AgentPPO.mk_collect e g c' (AgentPPO.step_counter st + 1)).
  assert (Hst1 : collecting (steps ++ [s]) st1).
  { split; [|split; [done|split; [simpl; congruence|split; [simpl; congruence|
                                                          split; [|split]]]]].
    - by rewrite fmap_app.
    - simpl. rewrite length_app, Hcount. done.
    - rewrite length_app. simpl. lia.
    - by apply trajectory_snoc. }
  assert (Hrest1 : resting e0 g0 (steps ++ [s]) e g).
  { unfold resting. by rewrite last_snoc. }
  destruct done.
  - exists st1, [s]. split; [done|]. split; [done|]. simpl. split; [lia|].
    split; done.
  - destruct (IH next_state st1 (steps ++ [s]) Hst1)
      as (st' & new & Hrun & Hst' & Hle & Hpos & Hrest).
    { split; [done|]. rewrite last_snoc. split; [done|]. left. done. }
    { rewrite length_app. simpl. lia. }
    exists st', (s :: new).
    rewrite (cons_middle s steps new), app_assoc.
    split; [done|]. split; [done|]. simpl. split; [lia|]. split; [done|].
    intros _. destruct new as [|s' new]; [|by apply Hrest].
    rewrite app_nil_r.
    destruct n; [|by destruct (Hpos ltac:(lia))].
    simpl in Hrun. by injection Hrun as <-.
Qed.

(** The loop over the episodes returns when given enough fuel. *)
Lemma explore_collecting fuel max_step (st : collect) steps :
  1 ≤ max_step → max_step < cap →
  collecting steps st →
  resting e0 g0 steps (AgentPPO.env st) (AgentPPO.gen st) →
  cap - max_step - length steps < fuel →
  ∃ st' steps',
    explore fuel max_step (cap - max_step) reward_scale gamma st = Some st'
    ∧ collecting steps' st'
    ∧ cap - max_step ≤ length steps'.
Proof.
  intros Hmax Hcap. revert st steps.
  induction fuel as [|fuel IH]; intros st steps Hst Hrest Hfuel; [lia|].
  cbn [AgentPPO.explore].
  pose proof Hst as (_ & _ & _ & _ & Hcount & Hlen & _). rewrite Hcount.
  destruct (Nat.ltb_spec (length steps) (cap - max_step)) as [Hlt|Hge].
  - pose proof (Hreset (AgentPPO.env st)) as Hw.
    destruct (env_reset (AgentPPO.env st)) as [e state] eqn:Hr. simpl in Hw.
    set (st0 := AgentPPO.mk_collect e _ _ _).
    destruct (episode_collecting max_step state st0 steps)
      as (st1 & new & -> & Hst1 & Hle & Hpos & Hrest1).
    + destruct Hst as (? & ? & ? & ? & ? & ? & ?).
      repeat (split; [assumption || reflexivity|]). assumption.
    + split; [done|]. unfold resting in Hrest. simpl.
      destruct (last steps) as [p|].
      * destruct Hrest as [<- ->]. split; [done|]. by right.
      * destruct Hrest as [<- ->]. done.
    + lia.
    + specialize (Hpos ltac:(lia)).
      apply (IH st1 (steps ++ new)); [done | by apply Hrest1 |].
      rewrite length_app. destruct new; [done|]. simpl. lia.
  - exists st, steps. split; [done|]. split; [done | lia].
Qed.

End Collecting.

Lemma elem_of_concat_fmap (ev : nat → list event) indices x :
  x ∈ concat (ev <$> indices) → ∃ k, k ∈ indices ∧ x ∈ ev k.
Proof.
  induction indices as [|i indices IH].
  - intros H. by apply elem_of_nil in H.
  - rewrite fmap_cons. cbn [concat]. rewrite elem_of_app. intros [H|H].
    + exists i. split; [left | done].
    + destruct (IH H) as (k & ? & ?). exists k. split; [by right | done].
Qed.

(** [update_buffer] of [AgentPPO], on a buffer built for the widths of the
    environment and of the policy: it returns, and what it leaves is the
    trajectory of the steps it took. *)
Lemma ppo_update_buffer_collecting {E G : Type}
    (env_reset : E → E * row) (env_step : E → row → E * (row * Q * bool))
    (get__action_noise : G → row → G * (row * row)) (tanh : Q → Q)
    junk_s junk_o cap state_dim action_dim fuel (e : E) (g : G) buffer
    max_step reward_scale gamma :
  ReplayBufferCPU.reachable
    (ReplayBufferCPU.init junk_s junk_o cap state_dim action_dim) buffer →
  (∀ e, length (env_reset e).2 = state_dim) →
  (∀ e a, length (env_step e a).2.1.1 = state_dim) →
  (∀ g state, length (get__action_noise g state).2.1 = action_dim) →
  (∀ g state, length (get__action_noise g state).2.2 = action_dim) →
  1 ≤ max_step → max_step < cap → cap ≤ fuel →
  ∃ st steps,
    AgentPPO.update_buffer env_reset env_step get__action_noise tanh
                           fuel e g buffer max_step reward_scale gamma = Some st
    ∧ collecting env_reset env_step get__action_noise tanh cap state_dim action_dim e g
                 reward_scale gamma steps st
    ∧ cap - max_step ≤ length steps.
Proof.
  intros Hreach Hreset Hstep Haction Hnoise Hmax Hcap Hfuel.
  destruct (cpu_reachable_wf junk_s junk_o cap state_dim action_dim buffer ltac:(lia) Hreach)
    as [Hwf _].
  destruct (cpu_reachable_shaped junk_s junk_o cap state_dim action_dim buffer Hreach)
    as [Hshape Had].
  unfold AgentPPO.update_buffer.
  replace (ReplayBufferBase.max_len
             (ReplayBufferCPU.base (ReplayBufferCPU.empty_memories__before_explore buffer)))
    with cap by (symmetry; apply (ReplayBufferBase.wf_cap _ _ Hwf)).
  apply (explore_collecting env_reset env_step get__action_noise tanh cap state_dim
           action_dim e g reward_scale gamma Hreset Hstep Haction Hnoise fuel max_step _ []);
    [done | done | | done | simpl; lia].
  destruct Hwf as [Hmax' Hidx Hnow Hs Ho].
  split; [|split; [done|split; [done|split; [done|split; [done|split; [simpl; lia|]]]]]].
  - split; [|split].
    + split; simpl; try done; lia.
    + simpl. by rewrite Nat.Div0.mod_0_l.
    + simpl. lia.
  - split; [|split]; intros; by rewrite ?lookup_nil in *.
Qed.

(** Claim C10.  On an on-policy buffer built for the widths of the states
    of the environment and of the actions and noises of the policy, with
    [1 <= max_step < max_len], [update_buffer] returns (given fuel for its
    loop) after at least [max_len - max_step] and fewer than [max_len]
    steps.  At every step [env.step] receives the [tanh] of the action that
    [get__action_noise] returned for the state of the step, and the row
    written for the step holds the state and, behind the scaled reward and
    the mask, that action as returned (not its [tanh]) and its noise.  The
    update that follows passes to [compute__log_prob] only pairs of a state
    and the action returned for it at some step: the actions stored, not
    the ones the environment received. *)
Theorem C10_pre_tanh_action_stored {E G : Type}
    (env_reset : E → E * row) (env_step : E → row → E * (row * Q * bool))
    (get__action_noise : G → row → G * (row * row)) (tanh : Q → Q)
    junk_s junk_o cap state_dim action_dim fuel (e : E) (g : G) buffer
    max_step reward_scale gamma :
  ReplayBufferCPU.reachable
    (ReplayBufferCPU.init junk_s junk_o cap state_dim action_dim) buffer →
  (∀ e, length (env_reset e).2 = state_dim) →
  (∀ e a, length (env_step e a).2.1.1 = state_dim) →
  (∀ g state, length (get__action_noise g state).2.1 = action_dim) →
  (∀ g state, length (get__action_noise g state).2.2 = action_dim) →
  1 ≤ max_step → max_step < cap → cap ≤ fuel →
  ∃ st steps,
    AgentPPO.update_buffer env_reset env_step get__action_noise tanh
                           fuel e g buffer max_step reward_scale gamma = Some st
    ∧ AgentPPO.step_counter st = length steps
    ∧ cap - max_step ≤ length steps < cap
    ∧ ppo_trajectory env_reset env_step get__action_noise tanh e g steps
    ∧ take (length steps)
           (ReplayBufferBase.slots (ReplayBufferCPU.base (AgentPPO.buffer st)))
      = ppo_row reward_scale gamma <$> steps
    ∧ ∀ rng _max_step batch_size repeat_times sample_times,
        AgentPPO.sample_times repeat_times (length steps) batch_size = Some sample_times →
        0 < sample_times →
        ∃ c trace,
          AgentPPO.update_policy rng (AgentPPO.buffer st) _max_step batch_size repeat_times
          = Some (c, trace)
          ∧ ∀ state action,
              EvLogProb state action ∈ trace →
              Forall2 (λ s a, ∃ k step, steps !! k = Some step
                                        ∧ s = ps_state step ∧ a = ps_action step)
                      state action.
Proof.
  intros Hreach Hreset Hstep Haction Hnoise Hmax Hcap Hfuel.
  destruct (ppo_update_buffer_collecting env_reset env_step get__action_noise tanh
              junk_s junk_o cap state_dim action_dim fuel e g buffer max_step
              reward_scale gamma Hreach Hreset Hstep Haction Hnoise Hmax Hcap Hfuel)
    as (st & steps & Hrun & (Hholds & Hshape & Hif & Had & Hcount & Hlen & Htraj) & Hsteps).
  exists st, steps. split; [exact Hrun|]. split; [done|]. split; [lia|]. split; [done|].
  assert (Hprefix : take (length steps)
                         (ReplayBufferBase.slots (ReplayBufferCPU.base (AgentPPO.buffer st)))
                    = ppo_row reward_scale gamma <$> steps).
  { pose proof (holds_prefix cap (ppo_row reward_scale gamma <$> steps)
                  (ReplayBufferCPU.base (AgentPPO.buffer st))) as Hp.
    rewrite length_fmap in Hp. apply Hp; [lia | lia | done]. }
  split; [exact Hprefix|].
  intros rng _max_step batch_size repeat_times sample_times Htimes Hpass.
  destruct Hholds as (Hwf & Hidx & _).
  rewrite length_fmap, Nat.mod_small in Hidx by lia.
  pose proof (ppo_update_policy_trace rng cap (AgentPPO.buffer st) _max_step batch_size
                repeat_times sample_times Hwf) as Htrace.
  cbn zeta in Htrace. simpl ReplayBufferBase.now_len in Htrace.
  rewrite Hif, Hidx in Htrace. specialize (Htrace ltac:(lia) Htimes Hpass).
  eexists _, _. split; [exact Htrace|].
  intros state action Hin.
  apply elem_of_concat_fmap in Hin as (pass & _ & Hin).
  cbn zeta in Hin. unfold ppo_pass in Hin.
  apply elem_of_cons in Hin as [Hin|Hin]; [done|].
  apply elem_of_cons in Hin as [Hin|Hin];
    [|apply elem_of_cons in Hin as [Hin|Hin]; [done | by apply elem_of_nil in Hin]].
  injection Hin as -> ->.
  apply Forall2_fmap, Forall_Forall2_diag, Forall_fmap, Forall_forall.
  intros j _. simpl.
  set (i := rng (pass * batch_size + j) `mod` length steps).
  assert (Hi : i < length steps) by (apply Nat.mod_upper_bound; lia).
  destruct (lookup_lt_is_Some_2 steps i Hi) as [step Hstep_i].
  exists i, step. split; [done|].
  assert (Hslot : ReplayBufferBase.slots (ReplayBufferCPU.base (AgentPPO.buffer st)) !! i
                  = Some (ppo_row reward_scale gamma step)).
  { rewrite <- (lookup_take_lt _ (length steps)) by done.
    by rewrite Hprefix, list_lookup_fmap, Hstep_i. }
  apply slots_lookup in Hslot as [Hs Ho]. simpl in Hs, Ho.
  simpl ReplayBufferBase.all_state. simpl ReplayBufferBase.all_other.
  rewrite (list_lookup_total_correct _ _ _ Hs), (list_lookup_total_correct _ _ _ Ho).
  split; [done|]. simpl drop. rewrite drop_0, Had.
  destruct Htraj as (Heach & _ & _). destruct (Heach i step Hstep_i) as [Hpolicy _].
  pose proof (Haction (ps_gen step) (ps_state step)) as Hw. rewrite Hpolicy in Hw.
  simpl in Hw. by apply take_app_length'.
Qed.

Lemma C10_pre_tanh_action_stored_witness :
  let env_reset (e : nat) : nat * row := (e, [0%Q]) in
  let env_step (e : nat) (action : row) : nat * (row * Q * bool) :=
    (e + 1, ([hd 0%Q action], hd 0%Q action, e `mod` 2 =? 1)) in
  let get__action_noise (g : nat) (state : row) : nat * (row * row) :=
    (g + 1, ([inject_Z (Z.of_nat g) + 2], [1])%Q) in
  let tanh (x : Q) : Q := (x / 2)%Q in
  let buffer := ReplayBufferCPU.init (λ _ _, 0%Q) (λ _ _, 0%Q) 4 1 1 in
  ∃ st steps,
    AgentPPO.update_buffer env_reset env_step get__action_noise tanh
                           4 0 0 buffer 2 1 (99 # 100) = Some st
    ∧ 2 ≤ length steps < 4
    ∧ ppo_trajectory env_reset env_step get__action_noise tanh 0 0 steps
    ∧ take (length steps)
           (ReplayBufferBase.slots (ReplayBufferCPU.base (AgentPPO.buffer st)))
      = ppo_row 1 (99 # 100) <$> steps
    ∧ ∃ c trace,
        AgentPPO.update_policy (λ k, k) (AgentPPO.buffer st) 7 2 3 = Some (c, trace)
        ∧ ∀ state action,
            EvLogProb state action ∈ trace →
            Forall2 (λ s a, ∃ k step, steps !! k = Some step
                                      ∧ s = ps_state step ∧ a = ps_action step)
                    state action.
Proof.
  intros env_reset env_step get__action_noise tanh buffer.
  destruct (C10_pre_tanh_action_stored env_reset env_step get__action_noise tanh
              (λ _ _, 0%Q) (λ _ _, 0%Q) 4 1 1 4 0 0 buffer 2 1 (99 # 100))
    as (st & steps & Hrun & Hcount & Hsteps & Htraj & Hrows & Hupdate).
  - exists []. reflexivity.
  - intros e. reflexivity.
  - intros e a. reflexivity.
  - intros g state. reflexivity.
  - intros g state. reflexivity.
  - lia.
  - lia.
  - lia.
  - exists st, steps. split; [exact Hrun|]. split; [exact Hsteps|].
    split; [exact Htraj|]. split; [exact Hrows|].
    assert (length steps = 2) as Hlen.
    { vm_compute in Hrun. injection Hrun as <-. simpl in Hcount. lia. }
    apply (Hupdate (λ k, k) 7 2 3 3); [by rewrite Hlen | lia].
Defined.

(** * Further properties of the code *)

(** ** The stream a buffer shows *)

Section Streams.
Import ReplayBufferBase.

Lemma gpu_append_all_holds cap state_dim other_dim entries0 b entries :
  0 < cap → holds cap entries0 b → shaped state_dim other_dim b →
  rows_shaped state_dim other_dim entries →
  ∃ b', ReplayBufferGPU.append_all b entries = Some b'
        ∧ holds cap (entries0 ++ entries) b'
        ∧ shaped state_dim other_dim b'
        ∧ now_len b' = now_len b.
Proof.
  intros Hcap Hb Hshape.
  induction entries as [|[state other] entries IH] using rev_ind; intros Hrows.
  - exists b. rewrite app_nil_r. done.
  - apply Forall_app in Hrows as [Hrows Hrow].
    apply Forall_singleton in Hrow as [Hstate Hother]. simpl in Hstate, Hother.
    destruct (IH Hrows) as (b1 & Hrun & Hb1 & Hshape1 & Hnow).
    destruct (gpu_append_memo_holds cap _ _ _ b1 state other Hcap Hb1 Hshape1 Hstate Hother)
      as (b' & Happ & Hb' & Hshape' & Hnow' & _).
    exists b'. rewrite gpu_append_all_snoc, Hrun. simpl.
    split; [done|]. rewrite app_assoc. split; [done|]. split; [done | congruence].
Qed.

Lemma cpu_append_all_holds cap state_dim other_dim entries0 c entries :
  0 < cap → holds cap entries0 (ReplayBufferCPU.base c) →
  shaped state_dim other_dim (ReplayBufferCPU.base c) →
  rows_shaped state_dim other_dim entries →
  ∃ c', ReplayBufferCPU.append_all c entries = Some c'
        ∧ holds cap (entries0 ++ entries) (ReplayBufferCPU.base c')
        ∧ if_full (ReplayBufferCPU.base c') = if_full (ReplayBufferCPU.base c)
        ∧ ReplayBufferCPU.action_dim c' = ReplayBufferCPU.action_dim c.
Proof.
  intros Hcap Hc Hshape.
  assert (∀ entries, rows_shaped state_dim other_dim entries →
            ∃ c', ReplayBufferCPU.append_all c entries = Some c'
                  ∧ holds cap (entries0 ++ entries) (ReplayBufferCPU.base c')
                  ∧ shaped state_dim other_dim (ReplayBufferCPU.base c')
                  ∧ if_full (ReplayBufferCPU.base c') = if_full (ReplayBufferCPU.base c)
                  ∧ ReplayBufferCPU.action_dim c' = ReplayBufferCPU.action_dim c) as Hall.
  { clear entries. intros entries.
    induction entries as [|[state other] entries IH] using rev_ind; intros Hrows.
    - exists c. rewrite app_nil_r. done.
    - apply Forall_app in Hrows as [Hrows Hrow].
      apply Forall_singleton in Hrow as [Hstate Hother]. simpl in Hstate, Hother.
      destruct (IH Hrows) as (c1 & Hrun & Hc1 & Hshape1 & Hif & Had).
      destruct (cpu_append_memo_holds cap _ _ _ c1 state other Hcap Hc1 Hshape1
                  Hstate Hother)
        as (c' & Happ & Hc' & Hshape' & _ & Hif' & _ & Had').
      exists c'. rewrite cpu_append_all_snoc, Hrun. simpl.
      split; [done|]. rewrite app_assoc. split; [done|]. split; [done|].
      split; congruence. }
  intros Hrows. destruct (Hall entries Hrows) as (c' & ? & ? & _ & ? & ?).
  by exists c'.
Qed.

(** What the on-policy buffer shows after a refresh, from a state with
    the flag down: the entries written since the last wrap. *)
Lemma cpu_shows cap c entries :
  0 < cap → holds cap entries (ReplayBufferCPU.base c) →
  if_full (ReplayBufferCPU.base c) = false →
  let c' := ReplayBufferCPU.update__now_len__before_sample c in
  now_len (ReplayBufferCPU.base c') = length entries `mod` cap
  ∧ ReplayBufferCPU.sample_for_ppo c'
    = ppo_columns (ReplayBufferCPU.action_dim c)
        (drop (cap * (length entries `div` cap)) entries).
Proof.
  intros Hcap Hc Hif c'. pose proof Hc as (Hwf & Hidx & _).
  assert (Hnow : now_len (ReplayBufferCPU.base c') = length entries `mod` cap).
  { simpl. by rewrite Hif, Hidx. }
  split; [done|].
  unfold ReplayBufferCPU.sample_for_ppo, ppo_columns. rewrite Hnow.
  destruct (take_slots cap (ReplayBufferCPU.base c) (length entries `mod` cap) Hwf)
    as [Hs Ho].
  rewrite (holds_since_wrap cap entries _ Hcap Hc) in Hs, Ho.
  simpl all_other. simpl all_state. rewrite <- Hs, <- Ho. done.
Qed.

End Streams.

(** X1 (Main.py, [ReplayBufferGPU.append_memo] and [update__now_len__before_sample]).
    The off-policy buffer, from construction, on rows of the widths it was
    built for: the appends return; the refreshed length is the number of
    entries up to the capacity; up to the capacity the slots hold the
    entries as they came, from the capacity on the ring holds the last
    [max_len] of them, oldest first. *)
Theorem gpu_visible_stream junk_s junk_o cap state_dim action_dim if_on_policy entries :
  0 < cap →
  rows_shaped state_dim (ReplayBufferGPU.other_dim action_dim if_on_policy) entries →
  ∃ b, ReplayBufferGPU.append_all
         (ReplayBufferGPU.init junk_s junk_o cap state_dim action_dim if_on_policy) entries
       = Some b
       ∧ ReplayBufferBase.now_len (ReplayBufferBase.update__now_len__before_sample b)
         = length entries `min` cap
       ∧ (length entries ≤ cap →
          take (length entries) (ReplayBufferBase.slots b) = entries)
       ∧ (cap ≤ length entries →
          ReplayBufferBase.ring b = drop (length entries - cap) entries).
Proof.
  intros Hcap Hrows.
  destruct (gpu_append_all_init junk_s junk_o cap state_dim action_dim if_on_policy
              entries Hcap Hrows) as (b & Hrun & Hb & _ & Hfull & _).
  exists b. split; [done|]. split; [|split].
  - simpl. pose proof Hb as ([Hmax _ _ _ _] & Hidx & _).
    destruct (ReplayBufferBase.if_full b) eqn:Hf.
    + assert (cap ≤ length entries) by (by apply Hfull). lia.
    + assert (¬ cap ≤ length entries) by (intros H; by apply Hfull in H).
      rewrite Hidx, Nat.mod_small by lia. lia.
  - intros Hn. by apply (holds_prefix cap).
  - intros Hn. by apply holds_ring.
Qed.

Lemma gpu_visible_stream_witness :
  ∃ b, ReplayBufferGPU.append_all
         (ReplayBufferGPU.init (λ _ _, 0%Q) (λ _ _, 0%Q) 2 1 1 false)
         [([1], [1; 1; 0]); ([2], [2; 1; 0]); ([3], [3; 0; 1])]%Q = Some b
       ∧ ReplayBufferBase.now_len (ReplayBufferBase.update__now_len__before_sample b) = 2
       ∧ ReplayBufferBase.ring b = [([2], [2; 1; 0]); ([3], [3; 0; 1])]%Q.
Proof.
  destruct (gpu_visible_stream (λ _ _, 0%Q) (λ _ _, 0%Q) 2 1 1 false
              [([1], [1; 1; 0]); ([2], [2; 1; 0]); ([3], [3; 0; 1])]%Q ltac:(lia))
    as (b & Hrun & Hnow & _ & Hring); [by repeat constructor|].
  exists b. split; [exact Hrun|]. split; [exact Hnow|]. apply Hring. simpl. lia.
Defined.

(** X2 (Main.py, [ReplayBufferCPU.append_memo] and [sample_for_ppo]).
    The on-policy buffer, from construction, on rows of the widths it was
    built for: the appends return, and after a refresh the buffer shows the
    entries written since the last wrap, in order, and no others; below the
    capacity these are all the entries. *)
Theorem cpu_shows_since_wrap junk_s junk_o cap state_dim action_dim entries :
  0 < cap →
  rows_shaped state_dim (ReplayBufferCPU.other_dim action_dim) entries →
  ∃ c, ReplayBufferCPU.append_all
         (ReplayBufferCPU.init junk_s junk_o cap state_dim action_dim) entries = Some c
       ∧ ReplayBufferBase.now_len
           (ReplayBufferCPU.base (ReplayBufferCPU.update__now_len__before_sample c))
         = length entries `mod` cap
       ∧ ReplayBufferCPU.sample_for_ppo (ReplayBufferCPU.update__now_len__before_sample c)
         = ppo_columns action_dim (drop (cap * (length entries `div` cap)) entries)
       ∧ (length entries < cap →
          ReplayBufferCPU.sample_for_ppo (ReplayBufferCPU.update__now_len__before_sample c)
          = ppo_columns action_dim entries).
Proof.
  intros Hcap Hrows.
  destruct (cpu_append_all_holds cap _ _ [] (ReplayBufferCPU.init junk_s junk_o cap state_dim
              action_dim) entries Hcap (cpu_init_holds _ _ _ _ _ Hcap)
              (cpu_init_shaped _ _ _ _ _) Hrows)
    as (c & Hrun & Hc & Hif & Had).
  simpl in Hc, Hif, Had.
  destruct (cpu_shows cap c entries Hcap Hc Hif) as [Hnow Hcols].
  rewrite Had in Hcols.
  exists c. split; [done|]. split; [done|]. split; [done|].
  intros Hn. rewrite Hcols, Nat.div_small, Nat.mul_0_r by done. by rewrite drop_0.
Qed.

Lemma cpu_shows_since_wrap_witness :
  ∃ c, ReplayBufferCPU.append_all
         (ReplayBufferCPU.init (λ _ _, 0%Q) (λ _ _, 0%Q) 2 1 1)
         [([1], [1; 1; 5; 6]); ([2], [2; 1; 7; 8]); ([3], [3; 0; 9; 4])]%Q = Some c
       ∧ ReplayBufferCPU.sample_for_ppo (ReplayBufferCPU.update__now_len__before_sample c)
         = ([[3]], [[0]], [[9]], [[4]], [[3]])%Q.
Proof.
  destruct (cpu_shows_since_wrap (λ _ _, 0%Q) (λ _ _, 0%Q) 2 1 1
              [([1], [1; 1; 5; 6]); ([2], [2; 1; 7; 8]); ([3], [3; 0; 9; 4])]%Q
              ltac:(lia))
    as (c & Hrun & _ & Hcols & _); [by repeat constructor|].
  exists c. split; [exact Hrun | exact Hcols].
Defined.

(** X3 (Main.py, [empty_memories__before_explore] and [ReplayBufferCPU.sample_for_ppo]).
    The on-policy lifecycle: whatever a reachable buffer held, after
    [empty_memories__before_explore], fewer than [max_len] appends of rows
    of the widths it was built for and a refresh, [sample_for_ppo] returns
    the entries appended, in order, and nothing of what was there before. *)
Theorem cpu_reset_then_sample junk_s junk_o cap state_dim action_dim c0 entries :
  0 < cap →
  ReplayBufferCPU.reachable
    (ReplayBufferCPU.init junk_s junk_o cap state_dim action_dim) c0 →
  length entries < cap →
  rows_shaped state_dim (ReplayBufferCPU.other_dim action_dim) entries →
  ∃ c, ReplayBufferCPU.append_all (ReplayBufferCPU.empty_memories__before_explore c0) entries
       = Some c
       ∧ ReplayBufferBase.now_len
           (ReplayBufferCPU.base (ReplayBufferCPU.update__now_len__before_sample c))
         = length entries
       ∧ ReplayBufferCPU.sample_for_ppo (ReplayBufferCPU.update__now_len__before_sample c)
         = ppo_columns action_dim entries.
Proof.
  intros Hcap Hreach Hn Hrows.
  destruct (cpu_reachable_wf junk_s junk_o cap state_dim action_dim c0 Hcap Hreach)
    as [[Hmax ? ? Hs Ho] _].
  destruct (cpu_reachable_shaped junk_s junk_o cap state_dim action_dim c0 Hreach)
    as [Hshape Hdim].
  assert (Hreset : holds cap []
            (ReplayBufferCPU.base (ReplayBufferCPU.empty_memories__before_explore c0))).
  { split; [|split].
    - split; simpl; try done; lia.
    - simpl. by rewrite Nat.Div0.mod_0_l.
    - simpl. lia. }
  destruct (cpu_append_all_holds cap _ _ [] _ entries Hcap Hreset Hshape Hrows)
    as (c & Hrun & Hc & Hif & Had).
  simpl in Hc, Hif, Had.
  destruct (cpu_shows cap c entries Hcap Hc Hif) as [Hnow Hcols].
  rewrite Had, Hdim, Nat.div_small, Nat.mul_0_r, drop_0 in Hcols by done.
  rewrite Nat.mod_small in Hnow by done.
  exists c. done.
Qed.

Lemma cpu_reset_then_sample_witness :
  let c0 := ReplayBufferCPU.mk
              (ReplayBufferBase.mk 2 0 1 false
                 [[3]; [2]]%Q [[3; 0; 9; 4]; [2; 1; 7; 8]]%Q) true 1 in
  ∃ c, ReplayBufferCPU.append_all (ReplayBufferCPU.empty_memories__before_explore c0)
         [([5], [1; 0; 2; 3])]%Q = Some c
       ∧ ReplayBufferCPU.sample_for_ppo (ReplayBufferCPU.update__now_len__before_sample c)
         = ([[1]], [[0]], [[2]], [[3]], [[5]])%Q.
Proof.
  intros c0.
  destruct (cpu_reset_then_sample (λ _ _, 0%Q) (λ _ _, 0%Q) 2 1 1 c0
              [([5], [1; 0; 2; 3])]%Q) as (c & Hrun & _ & Hcols).
  - lia.
  - exists [ReplayBufferCPU.Append [1%Q] [1; 1; 5; 6]%Q;
            ReplayBufferCPU.Append [2%Q] [2; 1; 7; 8]%Q;
            ReplayBufferCPU.Append [3%Q] [3; 0; 9; 4]%Q].
    reflexivity.
  - simpl. lia.
  - by repeat constructor.
  - exists c. split; [exact Hrun | exact Hcols].
Defined.

(** ** Sampling: what fails and what crosses the cursor *)

Lemma random_sample_explicit rng cap b batch_size :
  ReplayBufferBase.wf cap b → 2 ≤ ReplayBufferBase.now_len b →
  let indices := (λ k, rng k `mod` (ReplayBufferBase.now_len b - 1)) <$> seq 0 batch_size in
  ReplayBufferGPU.random_sample rng b batch_size
  = Some ((λ i, take 1 (ReplayBufferBase.all_other b !!! i)) <$> indices,
          (λ i, take 1 (drop 1 (ReplayBufferBase.all_other b !!! i))) <$> indices,
          (λ i, drop 2 (ReplayBufferBase.all_other b !!! i)) <$> indices,
          (λ i, ReplayBufferBase.all_state b !!! i) <$> indices,
          (λ i, ReplayBufferBase.all_state b !!! (i + 1)) <$> indices).
Proof.
  intros [_ _ Hle Hs Ho] Hnow indices.
  assert (Hin : Forall (λ i, i < ReplayBufferBase.now_len b - 1) indices).
  { apply Forall_fmap, Forall_forall. intros k _. simpl.
    apply Nat.mod_upper_bound. lia. }
  unfold ReplayBufferGPU.random_sample, torch_randint.
  destruct (Nat.ltb_spec 0 (ReplayBufferBase.now_len b - 1)); [|lia].
  fold indices.
  rewrite (gather_total (ReplayBufferBase.all_other b) indices),
          (gather_total (ReplayBufferBase.all_state b) indices),
          (gather_total (ReplayBufferBase.all_state b)).
  - by rewrite <- !list_fmap_compose.
  - apply Forall_fmap. eapply Forall_impl; [exact Hin|]. simpl. intros i ?. lia.
  - eapply Forall_impl; [exact Hin|]. simpl. intros i ?. lia.
  - eapply Forall_impl; [exact Hin|]. simpl. intros i ?. lia.
Qed.

(** X4 (Main.py, [ReplayBufferGPU.random_sample]; AgentZoo.py, [update_policy]).
    On a buffer that shows fewer than two entries [random_sample] raises
    whatever the batch size, and so does the [update_policy] of every
    off-policy agent built on the shared loop, whatever its arguments. *)
Theorem update_policy_needs_two_entries rng b max_step batch_size repeat_times :
  ReplayBufferBase.now_len (ReplayBufferBase.update__now_len__before_sample b) < 2 →
  ReplayBufferGPU.random_sample rng (ReplayBufferBase.update__now_len__before_sample b)
    batch_size = None
  ∧ AgentDQN.update_policy rng b max_step batch_size repeat_times = None
  ∧ AgentDoubleDQN.update_policy rng b max_step batch_size repeat_times = None
  ∧ AgentD3QN.update_policy rng b max_step batch_size repeat_times = None
  ∧ AgentDDPG.update_policy rng b max_step batch_size repeat_times = None
  ∧ AgentTD3.update_policy rng b max_step batch_size repeat_times = None
  ∧ AgentSAC.update_policy rng b max_step batch_size repeat_times = None.
Proof.
  intros Hnow.
  assert (Hsample : ∀ rng',
            ReplayBufferGPU.random_sample rng'
              (ReplayBufferBase.update__now_len__before_sample b) batch_size = None).
  { intros rng'. unfold ReplayBufferGPU.random_sample, torch_randint.
    destruct (Nat.ltb_spec 0 (ReplayBufferBase.now_len
                (ReplayBufferBase.update__now_len__before_sample b) - 1)); [lia | done]. }
  assert (Hloop : ∀ sync, off_policy_update sync rng b max_step batch_size repeat_times = None).
  { intros sync. unfold off_policy_update.
    destruct (max_step * repeat_times) as [|n] eqn:Hn; [done|].
    unfold range. cbn [seq for_each]. unfold off_policy_body at 1.
    by rewrite Hsample. }
  split; [apply Hsample|]. repeat split; apply Hloop.
Qed.

Lemma update_policy_needs_two_entries_witness :
  AgentDQN.update_policy (λ k, k)
    (ReplayBufferBase.mk 4 0 1 false [[1]; [0]; [0]; [0]]%Q
       [[1; 1; 0]; [0; 0; 0]; [0; 0; 0]; [0; 0; 0]]%Q) 8 2 1 = None.
Proof.
  apply (update_policy_needs_two_entries (λ k, k)
           (ReplayBufferBase.mk 4 0 1 false [[1]; [0]; [0]; [0]]%Q
              [[1; 1; 0]; [0; 0; 0]; [0; 0; 0]; [0; 0; 0]]%Q) 8 2 1).
  simpl. lia.
Defined.

(** X5 (Main.py, [ReplayBufferGPU.random_sample]).
    A full off-policy buffer (filled with rows of the widths it was built
    for) whose cursor is not at slot [0] can return a pair that crosses the
    cursor: when the index before the cursor is drawn, the state is the
    newest entry's and the next state is the oldest entry's, the state of
    a step [max_len - 1] steps earlier. *)
Theorem gpu_sample_crosses_cursor junk_s junk_o cap state_dim action_dim if_on_policy
    entries :
  2 ≤ cap → cap ≤ length entries → 1 ≤ length entries `mod` cap →
  rows_shaped state_dim (ReplayBufferGPU.other_dim action_dim if_on_policy) entries →
  ∃ b newest oldest,
    ReplayBufferGPU.append_all
      (ReplayBufferGPU.init junk_s junk_o cap state_dim action_dim if_on_policy) entries
    = Some b
    ∧ entries !! (length entries - 1) = Some newest
    ∧ entries !! (length entries - cap) = Some oldest
    ∧ ReplayBufferGPU.random_sample (λ _, length entries `mod` cap - 1)
        (ReplayBufferBase.update__now_len__before_sample b) 1
      = Some ([take 1 newest.2], [take 1 (drop 1 newest.2)], [drop 2 newest.2],
              [newest.1], [oldest.1]).
Proof.
  intros Hcap Hn Hr Hrows.
  destruct (gpu_append_all_init junk_s junk_o cap state_dim action_dim if_on_policy
              entries ltac:(lia) Hrows) as (b & Hrun & Hb & _ & Hfull & _).
  pose proof Hb as (Hwf & Hidx & Hslots).
  pose proof (Nat.div_mod_eq (length entries) cap) as Hdiv.
  pose proof (Nat.mod_upper_bound (length entries) cap ltac:(lia)) as Hlt.
  assert (Hq : 1 ≤ length entries `div` cap).
  { destruct (length entries `div` cap); [|lia]. lia. }
  destruct (lookup_lt_is_Some_2 entries (length entries - 1) ltac:(lia)) as [newest Hnew].
  destruct (lookup_lt_is_Some_2 entries (length entries - cap) ltac:(lia)) as [oldest Hold].
  exists b, newest, oldest. split; [done|]. split; [done|]. split; [done|].
  pose proof (Hslots (length entries - 1) ltac:(lia) ltac:(lia)) as Hs1.
  pose proof (Hslots (length entries - cap) ltac:(lia) ltac:(lia)) as Hs2.
  rewrite Hnew in Hs1. rewrite Hold in Hs2.
  replace ((length entries - 1) `mod` cap) with (length entries `mod` cap - 1) in Hs1
    by (apply (Nat.mod_unique _ _ (length entries `div` cap)); lia).
  replace ((length entries - cap) `mod` cap) with (length entries `mod` cap) in Hs2
    by (apply (Nat.mod_unique _ _ (length entries `div` cap - 1)); nia).
  apply slots_lookup in Hs1 as [Hs1 Ho1]. apply slots_lookup in Hs2 as [Hs2 _].
  assert (Hnow : ReplayBufferBase.now_len
                   (ReplayBufferBase.update__now_len__before_sample b) = cap).
  { simpl. rewrite (proj2 Hfull Hn). apply (ReplayBufferBase.wf_cap _ _ Hwf). }
  rewrite (random_sample_explicit _ cap); [|by apply refresh_wf | rewrite Hnow; lia].
  rewrite Hnow. cbn [seq fmap list_fmap].
  generalize dependent (length entries `mod` cap). intros r Hidx Hdiv Hlt Hr Hs1 Ho1 Hs2.
  rewrite (Nat.mod_small (r - 1) (cap - 1)) by lia.
  replace (r - 1 + 1) with r by lia.
  simpl ReplayBufferBase.all_other. simpl ReplayBufferBase.all_state.
  rewrite (list_lookup_total_correct _ _ _ Hs1), (list_lookup_total_correct _ _ _ Ho1),
          (list_lookup_total_correct _ _ _ Hs2).
  done.
Qed.

Lemma gpu_sample_crosses_cursor_witness :
  ∃ b, ReplayBufferGPU.append_all
         (ReplayBufferGPU.init (λ _ _, 0%Q) (λ _ _, 0%Q) 3 1 1 false)
         [([1], [1; 1; 0]); ([2], [2; 1; 0]); ([3], [3; 1; 1]); ([4], [4; 1; 1])]%Q = Some b
       ∧ ReplayBufferGPU.random_sample (λ _, 0)
           (ReplayBufferBase.update__now_len__before_sample b) 1
         = Some ([[4]], [[1]], [[1]], [[4]], [[2]])%Q.
Proof.
  destruct (gpu_sample_crosses_cursor (λ _ _, 0%Q) (λ _ _, 0%Q) 3 1 1 false
              [([1], [1; 1; 0]); ([2], [2; 1; 0]); ([3], [3; 1; 1]); ([4], [4; 1; 1])]%Q)
    as (b & newest & oldest & Hrun & Hnew & Hold & Hsample);
    [lia | simpl; lia | simpl; lia | by repeat constructor |].
  injection Hnew as <-. injection Hold as <-.
  exists b. split; [exact Hrun | exact Hsample].
Defined.

(** ** Rows of another width *)

Lemma assign_row_cases (w : nat) (array : list row) i (value : row) :
  Forall (λ r : row, length r = w) array → i < length array →
  ReplayBufferBase.assign_row array i value
  = if length value =? w then Some (<[i := value]> array)
    else if length value =? 1 then Some (<[i := replicate w (hd 0%Q value)]> array)
         else None.
Proof.
  intros Hw Hi. unfold ReplayBufferBase.assign_row.
  destruct (lookup_lt_is_Some_2 array i Hi) as [slot Hslot]. rewrite Hslot.
  rewrite Forall_lookup in Hw. by rewrite (Hw i slot Hslot).
Qed.

(** X21 (Main.py, [ReplayBufferGPU.append_memo] and [ReplayBufferCPU.append_memo]).
    On a reachable buffer an append raises exactly when the state or the
    other row has a width that is neither the width the array was built
    with nor one.  When it returns, the slot at the cursor holds the row as
    given if it has the width of the array, and otherwise (a row of width
    one) its single entry repeated over the width of the array. *)
Theorem append_memo_row_widths junk_s junk_o cap state_dim action_dim if_on_policy
    b c (state other : row) :
  0 < cap →
  ReplayBufferGPU.reachable
    (ReplayBufferGPU.init junk_s junk_o cap state_dim action_dim if_on_policy) b →
  ReplayBufferCPU.reachable
    (ReplayBufferCPU.init junk_s junk_o cap state_dim action_dim) c →
  let stored (w : nat) (value : row) : row :=
    if length value =? w then value else replicate w (hd 0%Q value) in
  let fits (w : nat) (value : row) : Prop := length value = w ∨ length value = 1 in
  (ReplayBufferGPU.append_memo b state other = None
   ↔ ¬ (fits state_dim state
        ∧ fits (ReplayBufferGPU.other_dim action_dim if_on_policy) other))
  ∧ (∀ b', ReplayBufferGPU.append_memo b state other = Some b' →
       ReplayBufferBase.all_state b' !! ReplayBufferBase.next_idx b
       = Some (stored state_dim state)
       ∧ ReplayBufferBase.all_other b' !! ReplayBufferBase.next_idx b
         = Some (stored (ReplayBufferGPU.other_dim action_dim if_on_policy) other))
  ∧ (ReplayBufferCPU.append_memo c state other = None
     ↔ ¬ (fits state_dim state ∧ fits (ReplayBufferCPU.other_dim action_dim) other))
  ∧ (∀ c', ReplayBufferCPU.append_memo c state other = Some c' →
       ReplayBufferBase.all_state (ReplayBufferCPU.base c')
         !! ReplayBufferBase.next_idx (ReplayBufferCPU.base c)
       = Some (stored state_dim state)
       ∧ ReplayBufferBase.all_other (ReplayBufferCPU.base c')
           !! ReplayBufferBase.next_idx (ReplayBufferCPU.base c)
         = Some (stored (ReplayBufferCPU.other_dim action_dim) other)).
Proof.
  intros Hcap Hb Hc stored fits.
  assert (Hslot : ∀ cap' sd od base,
            ReplayBufferBase.wf cap' base → ReplayBufferBase.shaped sd od base →
            (ReplayBufferBase.write_slot base state other = None
             ↔ ¬ (fits sd state ∧ fits od other))
            ∧ ∀ states others,
                ReplayBufferBase.write_slot base state other = Some (states, others) →
                states !! ReplayBufferBase.next_idx base = Some (stored sd state)
                ∧ others !! ReplayBufferBase.next_idx base = Some (stored od other)).
  { intros cap' sd od base [_ Hidx _ Hs Ho] [Hws Hwo].
    unfold ReplayBufferBase.write_slot.
    rewrite (assign_row_cases sd), (assign_row_cases od) by (done || lia).
    unfold fits, stored.
    destruct (Nat.eqb_spec (length state) sd) as [Es|Es];
      destruct (Nat.eqb_spec (length state) 1) as [Es1|Es1];
      destruct (Nat.eqb_spec (length other) od) as [Eo|Eo];
      destruct (Nat.eqb_spec (length other) 1) as [Eo1|Eo1];
      (split; [split; [try done; intros _; intros [[?|?] [?|?]]; done
                      | try done; intros Hn; exfalso; apply Hn; auto]
              | try done; intros states others [= <- <-];
                split; apply list_lookup_insert_eq; lia]). }
  destruct (gpu_reachable_wf _ _ _ _ _ _ _ Hcap Hb) as [Hwfb _].
  pose proof (gpu_reachable_shaped _ _ _ _ _ _ _ Hb) as Hshapeb.
  destruct (cpu_reachable_wf _ _ _ _ _ _ Hcap Hc) as [Hwfc _].
  destruct (cpu_reachable_shaped _ _ _ _ _ _ Hc) as [Hshapec _].
  destruct (Hslot _ _ _ _ Hwfb Hshapeb) as [Hnone_b Hsome_b].
  destruct (Hslot _ _ _ _ Hwfc Hshapec) as [Hnone_c Hsome_c].
  split; [|split; [|split]].
  - rewrite <- Hnone_b. unfold ReplayBufferGPU.append_memo.
    destruct (ReplayBufferBase.write_slot b state other) as [[states others]|]; [|done].
    simpl. by destruct (_ <=? _).
  - intros b'. unfold ReplayBufferGPU.append_memo.
    destruct (ReplayBufferBase.write_slot b state other) as [[states others]|]; [|done].
    simpl. destruct (Hsome_b states others eq_refl) as [? ?].
    by destruct (_ <=? _); intros [= <-].
  - rewrite <- Hnone_c. unfold ReplayBufferCPU.append_memo.
    destruct (ReplayBufferBase.write_slot (ReplayBufferCPU.base c) state other)
      as [[states others]|]; [|simpl; done].
    simpl. by destruct (_ <=? _).
  - intros c'. unfold ReplayBufferCPU.append_memo.
    destruct (ReplayBufferBase.write_slot (ReplayBufferCPU.base c) state other)
      as [[states others]|]; [|simpl; done].
    simpl. destruct (Hsome_c states others eq_refl) as [? ?].
    by destruct (_ <=? _); intros [= <-].
Qed.

Lemma append_memo_row_widths_witness :
  let zero : nat → nat → Q := λ _ _, 0%Q in
  ReplayBufferGPU.append_memo (ReplayBufferGPU.init zero zero 2 2 1 false)
    [1; 2]%Q [1; 1]%Q = None
  ∧ ∀ b', ReplayBufferGPU.append_memo (ReplayBufferGPU.init zero zero 2 2 1 false)
            [7]%Q [1; 1; 0]%Q = Some b' →
          ReplayBufferBase.all_state b' !! 0 = Some [7; 7]%Q.
Proof.
  intros zero.
  destruct (append_memo_row_widths zero zero 2 2 1 false
              (ReplayBufferGPU.init zero zero 2 2 1 false)
              (ReplayBufferCPU.init zero zero 2 2 1) [1; 2]%Q [1; 1]%Q ltac:(lia))
    as (Hnone & _); [by exists [] | by exists [] |].
  destruct (append_memo_row_widths zero zero 2 2 1 false
              (ReplayBufferGPU.init zero zero 2 2 1 false)
              (ReplayBufferCPU.init zero zero 2 2 1) [7]%Q [1; 1; 0]%Q ltac:(lia))
    as (_ & Hsome & _); [by exists [] | by exists [] |].
  split.
  - apply Hnone. simpl. intros [_ [H|H]]; discriminate H.
  - intros b' Hrun. by destruct (Hsome b' Hrun).
Defined.

(** ** soft_target_update: repeated, at a fixed point, on other shapes *)

Lemma soft_target_update_shape tau target current :
  Forall2 (λ t p : row, length t = length p) target current →
  Forall2 (λ t p : row, length t = length p)
    (zip_with (zip_with (λ t p, tau * p + (1 - tau) * t)%Q) target current) current.
Proof.
  induction 1 as [|t p target current Hlen _ IH]; [constructor|].
  simpl. constructor; [|exact IH]. rewrite length_zip_with. lia.
Qed.

Lemma Qpow_S q n : Qpow q (S n) = (q * Qpow q n)%Q.
Proof. done. Qed.

(** X6 (AgentZoo.py, [soft_target_update]).
    Repeated synchronisation towards an online network that stays put:
    after [n] calls every entry of the target is away from the online entry
    by [(1 - tau) ^ n] times what it was. *)
Theorem soft_target_updates_contract n tau target current :
  Forall2 (λ t p : row, length t = length p) target current →
  ∃ target',
    soft_target_updates n target current tau = Some target'
    ∧ Forall2 (λ t p : row, length t = length p) target' current
    ∧ ∀ k j T P t p,
        target !! k = Some T → current !! k = Some P →
        T !! j = Some t → P !! j = Some p →
        ∃ T' t', target' !! k = Some T' ∧ T' !! j = Some t'
                 ∧ t' - p == Qpow (1 - tau) n * (t - p).
Proof.
  revert target. induction n as [|n IH]; intros target Hshape.
  - exists target. split; [done|]. split; [done|].
    intros k j T P t p HT HP Ht Hp. exists T, t. split; [done|]. split; [done|].
    unfold Qpow. simpl. ring.
  - cbn [soft_target_updates]. rewrite soft_target_update_same_shape by done.
    destruct (IH _ (soft_target_update_shape tau target current Hshape))
      as (target' & Hrun & Hshape' & Hentry).
    exists target'. split; [done|]. split; [done|].
    intros k j T P t p HT HP Ht Hp.
    destruct (Hentry k j (zip_with (λ t p, tau * p + (1 - tau) * t)%Q T P) P
                (tau * p + (1 - tau) * t)%Q p) as (T' & t' & HT' & Ht' & Heq); try done.
    + apply lookup_zip_with_Some. by exists T, P.
    + apply lookup_zip_with_Some. by exists t, p.
    + exists T', t'. split; [done|]. split; [done|].
      rewrite Heq, Qpow_S. ring.
Qed.

Lemma soft_target_updates_contract_witness :
  ∃ target',
    soft_target_updates 2 [[1; 2]; [3]]%Q [[5; 6]; [7]]%Q (1 # 2) = Some target'
    ∧ ∃ T' t', target' !! 0 = Some T' ∧ T' !! 1 = Some t'
               ∧ t' - 6 == Qpow (1 - (1 # 2)) 2 * (2 - 6).
Proof.
  destruct (soft_target_updates_contract 2 (1 # 2) [[1; 2]; [3]]%Q [[5; 6]; [7]]%Q)
    as (target' & Hrun & _ & Hentry).
  - repeat constructor.
  - exists target'. split; [exact Hrun|].
    apply (Hentry 0 1 [1; 2]%Q [5; 6]%Q); reflexivity.
Defined.

(** X7 (AgentZoo.py, [soft_target_update]).
    Synchronising a target that equals the online network changes
    nothing, whatever [tau]: the hard copy made at construction is a fixed
    point. *)
Theorem soft_target_update_fixed_point tau (current : list row) :
  ∃ target', soft_target_update current current tau = Some target'
             ∧ Forall2 Qlist_eq target' current.
Proof.
  eexists. split.
  - apply soft_target_update_same_shape. by apply Forall_Forall2_diag, Forall_true.
  - induction current as [|p current IH]; [constructor|].
    simpl. constructor; [|exact IH].
    clear IH. induction p as [|x p IH]; [constructor|].
    simpl. constructor; [ring | exact IH].
Qed.

(** X8 (AgentZoo.py, [soft_target_update]).
    When the call returns, the target keeps its number of parameters and
    their shapes, and the parameters [zip] does not reach (a target longer
    than the online network) are left as they were. *)
Theorem soft_target_update_leftover tau target current target' :
  soft_target_update target current tau = Some target' →
  length target' = length target
  ∧ Forall2 (λ t' t : row, length t' = length t) target' target
  ∧ drop (length current) target' = drop (length current) target.
Proof.
  revert current target'.
  induction target as [|T target IH]; intros [|P current] target' Hrun; simpl in Hrun.
  - injection Hrun as <-. done.
  - injection Hrun as <-. done.
  - injection Hrun as <-. split; [done|]. split; [|done].
    apply Forall_Forall2_diag, Forall_true. done.
  - unfold blend in Hrun. destruct (Nat.eqb_spec (length T) (length P)) as [Heq|]; [|done].
    destruct (soft_target_update target current tau) as [rest|] eqn:Hrest; [|done].
    injection Hrun as <-. destruct (IH current rest Hrest) as (Hlen & Hshape & Hdrop).
    split; [simpl; lia|]. split; [|done].
    constructor; [|done]. rewrite length_zip_with. lia.
Qed.

Lemma soft_target_update_leftover_witness :
  ∃ target',
    soft_target_update [[1; 2]; [3]; [4; 4]]%Q [[5; 6]; [7]]%Q default_tau = Some target'
    ∧ drop 2 target' = [[4; 4]]%Q.
Proof.
  destruct (soft_target_update [[1; 2]; [3]; [4; 4]]%Q [[5; 6]; [7]]%Q default_tau)
    as [target'|] eqn:Hrun; [|discriminate Hrun].
  exists target'. split; [reflexivity|].
  exact (proj2 (proj2 (soft_target_update_leftover _ _ _ _ Hrun))).
Defined.

(** ** Selecting actions *)

Section Selecting.
Local Open Scope Q_scope.

Lemma torch_clamp_range x lo hi : lo <= hi → lo <= torch_clamp x lo hi <= hi.
Proof.
  intros Hlohi. unfold torch_clamp.
  pose proof (Q.max_spec x lo) as Hmax.
  pose proof (Q.min_spec (Qmax x lo) hi) as Hmin.
  set (mx := Qmax x lo) in *. set (mn := Qmin mx hi) in *.
  destruct Hmax as [[? ?]|[? ?]], Hmin as [[? ?]|[? ?]]; lra.
Qed.

(** [argmax_from] on the rest [l] of a row whose part [pre] was seen, with
    the first maximal entry of [pre] at [best_i]. *)
Lemma argmax_from_spec pre l best_i best :
  pre !! best_i = Some best →
  (∀ j q, pre !! j = Some q → q <= best ∧ ((j < best_i)%nat → q < best)) →
  let a := argmax_from best_i best (length pre) l in
  ∃ qa, (pre ++ l) !! a = Some qa
        ∧ ∀ j q, (pre ++ l) !! j = Some q → q <= qa ∧ ((j < a)%nat → q < qa).
Proof.
  revert pre best_i best. induction l as [|x l IH]; intros pre best_i best Hbest Hpre a.
  - exists best. unfold a. simpl. rewrite app_nil_r. done.
  - unfold a. cbn [argmax_from].
    replace (pre ++ x :: l) with ((pre ++ [x]) ++ l) by by rewrite <- app_assoc.
    replace (S (length pre)) with (length (pre ++ [x]))
      by (rewrite length_app; simpl; lia).
    pose proof (lookup_lt_Some _ _ _ Hbest) as Hlt.
    destruct (Qltb best x) eqn:Hcmp.
    + apply Qltb_lt in Hcmp.
      replace (length pre) with (length pre + 0)%nat at 1 by lia.
      apply IH.
      * replace (length pre + 0)%nat with (length pre) by lia.
        by rewrite lookup_app_r, Nat.sub_diag.
      * replace (length pre + 0)%nat with (length pre) by lia.
        intros j q Hj. destruct (decide (j < length pre)%nat) as [Hjl|Hjl].
        -- rewrite lookup_app_l in Hj by done.
           destruct (Hpre j q Hj) as [Hle _]. split; [lra|]. intros _. lra.
        -- rewrite lookup_app_r in Hj by lia.
           destruct (j - length pre)%nat eqn:Hd; [|by destruct n].
           injection Hj as <-. split; [lra|]. intros ?. lia.
    + apply not_true_iff_false in Hcmp. rewrite Qltb_lt in Hcmp.
      apply IH.
      * by rewrite lookup_app_l.
      * intros j q Hj. destruct (decide (j < length pre)%nat) as [Hjl|Hjl].
        -- rewrite lookup_app_l in Hj by done. by apply Hpre.
        -- rewrite lookup_app_r in Hj by lia.
           destruct (j - length pre)%nat eqn:Hd; [|by destruct n].
           injection Hj as <-. split; [lra|]. intros ?. lia.
Qed.

(** [argmax] gives the index of the first maximal entry. *)
Lemma argmax_spec (l : row) :
  l ≠ [] →
  ∃ a qa, argmax l = Some a ∧ l !! a = Some qa
          ∧ ∀ j q, l !! j = Some q → q <= qa ∧ ((j < a)%nat → q < qa).
Proof.
  destruct l as [|x l]; [done|]. intros _.
  destruct (argmax_from_spec [x] l 0%nat x eq_refl) as (qa & Ha & Hmax).
  - intros [|j] q Hj; [|done]. injection Hj as <-. split; [lra|]. intros ?. lia.
  - eexists _, qa. split; [reflexivity|]. split; [exact Ha | exact Hmax].
Qed.

End Selecting.

(** X9 (AgentZoo.py, [AgentDQN.select_actions]).
    [AgentDQN.select_actions] returns one action per state, each a valid
    action index; when the draw does not fall under the explore rate, each
    is the first action of maximal Q-value for its state. *)
Theorem dqn_select_actions_valid act explore_rate action_dim u rng states :
  0 < action_dim →
  (∀ state, length (act state) = action_dim) →
  ∃ actions,
    AgentDQN.select_actions act explore_rate action_dim u rng states = Some actions
    ∧ length actions = length states
    ∧ Forall (λ a, a < action_dim) actions
    ∧ (Qltb u explore_rate = false →
       Forall2 (λ state a,
                  ∃ qa, act state !! a = Some qa
                        ∧ ∀ j q, act state !! j = Some q →
                            (q <= qa)%Q ∧ (j < a → (q < qa)%Q))
               states actions).
Proof.
  intros Hdim Hact. unfold AgentDQN.select_actions.
  destruct (Qltb u explore_rate).
  - unfold rd_randint. destruct (Nat.ltb_spec 0 action_dim); [|lia].
    eexists. split; [reflexivity|]. split; [by rewrite length_fmap, length_seq|].
    split; [|done].
    apply Forall_fmap, Forall_forall. intros k _. simpl. apply Nat.mod_upper_bound. lia.
  - assert (Hgreedy : ∀ state, ∃ a qa, argmax (act state) = Some a
              ∧ act state !! a = Some qa
              ∧ ∀ j q, act state !! j = Some q → (q <= qa)%Q ∧ (j < a → (q < qa)%Q)).
    { intros state. apply argmax_spec. intros Hnil.
      specialize (Hact state). rewrite Hnil in Hact. simpl in Hact. lia. }
    induction states as [|state states IH].
    + exists []. done.
    + destruct IH as (actions & Hrun & Hlen & Hvalid & Hmax).
      destruct (Hgreedy state) as (a & qa & Harg & Ha & Hbest).
      exists (a :: actions). split; [|split; [|split]].
      * cbn [mapM]. rewrite Harg. simpl. by rewrite Hrun.
      * simpl. by rewrite Hlen.
      * constructor; [|done]. apply lookup_lt_Some in Ha. by rewrite Hact in Ha.
      * intros _. constructor; [by exists qa | by apply Hmax].
Qed.

Lemma dqn_select_actions_valid_witness :
  let act (state : row) : row := [hd 0 state; 5; 5]%Q in
  ∃ actions,
    AgentDQN.select_actions act AgentDQN.explore_rate 3 (1 # 2) (λ k, k) [[1]; [7]]%Q
    = Some actions
    ∧ Forall (λ a, a < 3) actions
    ∧ Forall2 (λ state a,
                 ∃ qa, act state !! a = Some qa
                       ∧ ∀ j q, act state !! j = Some q →
                           (q <= qa)%Q ∧ (j < a → (q < qa)%Q))
              [[1]; [7]]%Q actions.
Proof.
  intros act.
  destruct (dqn_select_actions_valid act AgentDQN.explore_rate 3 (1 # 2) (λ k, k)
              [[1]; [7]]%Q) as (actions & Hrun & _ & Hvalid & Hgreedy);
    [lia | done |].
  exists actions. split; [exact Hrun|]. split; [exact Hvalid|].
  apply Hgreedy. reflexivity.
Defined.

(** X10 (AgentZoo.py, [AgentDDPG.select_actions]).
    [AgentDDPG.select_actions] returns one action per state, of the width
    the actor gives, with every entry within [[-1, 1]] whatever the actor
    and the noise. *)
Theorem ddpg_select_actions_in_range act explore_noise randn states :
  Forall2 (λ state a,
             length a = length (act state)
             ∧ Forall (λ x, -1 <= x <= 1)%Q a)
          states (AgentDDPG.select_actions act explore_noise randn states).
Proof.
  unfold AgentDDPG.select_actions. apply Forall2_same_length_lookup_2.
  - by rewrite length_imap.
  - intros i state a Hs Ha. rewrite list_lookup_imap, Hs in Ha. injection Ha as <-.
    split; [by rewrite length_imap|].
    apply Forall_lookup_2. intros j x Hx.
    rewrite list_lookup_imap in Hx. destruct (act state !! j); [|done].
    injection Hx as <-. apply torch_clamp_range. unfold Qle. simpl. lia.
Qed.

(** ** Collecting with the off-policy agents *)

Lemma gpu_append_all_cons b (e : row * row) entries b1 :
  ReplayBufferGPU.append_memo b e.1 e.2 = Some b1 →
  ReplayBufferGPU.append_all b (e :: entries) = ReplayBufferGPU.append_all b1 entries.
Proof.
  intros Happ. unfold ReplayBufferGPU.append_all, ReplayBufferGPU.run.
  rewrite fmap_cons. cbn [foldl]. simpl. by rewrite Happ.
Qed.


Lemma gpu_append_memo_wf cap state_dim other_dim b state other :
  0 < cap → ReplayBufferBase.wf cap b → ReplayBufferBase.shaped state_dim other_dim b →
  length state = state_dim → length other = other_dim →
  ∃ b', ReplayBufferGPU.append_memo b state other = Some b'
        ∧ ReplayBufferBase.wf cap b'
        ∧ ReplayBufferBase.shaped state_dim other_dim b'.
Proof.
  intros Hcap Hwf Hshape Hstate Hother. unfold ReplayBufferGPU.append_memo.
  rewrite (write_slot_wf cap state_dim other_dim) by done. simpl.
  destruct Hwf as [Hmax ? ? Hs Ho]. rewrite Hmax.
  destruct (Nat.leb_spec cap (ReplayBufferBase.next_idx b + 1));
    (eexists; split; [reflexivity|]; split;
     [split; simpl; rewrite ?length_insert; lia | by eapply shaped_insert]).
Qed.

Section OffPolicyCollecting.
Context {E G A : Type}.
Variable env_reset : E → E * row.
Variable env_step : E → A → E * (row * Q * bool).
Variable select_actions : G → row → G * A.
Variable entries : A → row.
Variables state_dim other_dim : nat.
Hypothesis Hreset : ∀ e, length (env_reset e).2 = state_dim.
Hypothesis Hstep : ∀ e a, length (env_step e a).2.1.1 = state_dim.
Hypothesis Hentries :
  ∀ g state, 2 + length (entries (select_actions g state).2) = other_dim.


End OffPolicyCollecting.



(** ** The warm-up *)

Section WarmingUp.
Context {E : Type}.
Variable env_reset : E → E * row.
Variable env_step : E → action → E * (row * Q * bool).
Variable state_dim : nat.
Hypothesis Hreset : ∀ e, length (env_reset e).2 = state_dim.
Hypothesis Hstep : ∀ e a, length (env_step e a).2.1.1 = state_dim.

Lemma explore_loop_appends cap fuel (if_discrete : bool) action_dim rng uniform target_step
    reward_scale gamma (st : Main.warmup (E := E)) :
  0 < cap → ReplayBufferBase.wf cap (Main.wu_buffer st) →
  ReplayBufferBase.shaped state_dim (1 + 1 + (if if_discrete then 1 else action_dim))
                          (Main.wu_buffer st) →
  length (Main.wu_state st) = state_dim →
  (if_discrete = true → 0 < action_dim) →
  target_step - Main.wu_steps st < fuel →
  ∃ st' new,
    Main.explore_loop env_reset env_step fuel if_discrete action_dim rng uniform
      target_step reward_scale gamma st = Some st'
    ∧ Main.wu_steps st' = Main.wu_steps st `max` target_step
    ∧ length new = target_step - Main.wu_steps st
    ∧ ReplayBufferGPU.append_all (Main.wu_buffer st) new = Some (Main.wu_buffer st')
    ∧ Forall (λ e : row * row,
                ∃ r m a, e.2 = r :: m :: a ∧ (m = 0%Q ∨ m = gamma)
                         ∧ (if if_discrete then length a = 1 else length a = action_dim))
             new.
Proof.
  intros Hcap Hwf Hshape Hstate Hdim. revert st Hwf Hshape Hstate.
  induction fuel as [|fuel IH]; intros st Hwf Hshape Hstate Hfuel; [lia|].
  cbn [Main.explore_loop].
  destruct (Nat.ltb_spec (Main.wu_steps st) target_step) as [Hlt|Hge].
  - assert (Hact : ∃ action,
              Main.random_action if_discrete action_dim rng uniform (Main.wu_steps st)
              = Some action
              ∧ (if if_discrete then length (action_entries action) = 1
                 else length (action_entries action) = action_dim)).
    { unfold Main.random_action. destruct if_discrete.
      - destruct (Nat.ltb_spec 0 action_dim); [|specialize (Hdim eq_refl); lia].
        eexists. split; [reflexivity | done].
      - eexists. split; [reflexivity|]. simpl. by rewrite length_fmap, length_seq. }
    destruct Hact as (action & -> & Hlen).
    pose proof (Hstep (Main.wu_env st) action) as Hnext.
    destruct (env_step (Main.wu_env st) action) as [e [[next_state reward] done]].
    simpl in Hnext.
    set (other := (reward * reward_scale)%Q :: (if done then 0%Q else gamma)
                    :: action_entries action).
    destruct (gpu_append_memo_wf cap _ _ (Main.wu_buffer st) (Main.wu_state st) other
                Hcap Hwf Hshape Hstate)
      as (b1 & Happ & Hwf1 & Hshape1).
    { simpl. destruct if_discrete; lia. }
    rewrite Happ.
    pose proof (Hreset e) as Hfresh.
    destruct (env_reset e) as [e' state'] eqn:Hr. simpl in Hfresh.
    assert (∃ e1 state1, (if done then (e', state') else (e, next_state)) = (e1, state1)
                         ∧ length state1 = state_dim) as (e1 & state1 & -> & Hstate1).
    { destruct done; eexists _, _; split; done. }
    destruct (IH (Main.mk_warmup e1 state1 (Main.wu_steps st + 1) b1) Hwf1 Hshape1 Hstate1)
      as (st' & new & Hrun & Hsteps & Hnew & Hall & Hmask); [simpl; lia|].
    simpl in Hsteps, Hnew, Hall.
    exists st', ((Main.wu_state st, other) :: new).
    split; [done|]. split; [lia|]. split; [simpl; lia|]. split.
    + by rewrite (gpu_append_all_cons _ (Main.wu_state st, other) new b1).
    + constructor; [|done].
      exists (reward * reward_scale)%Q, (if done then 0%Q else gamma), (action_entries action).
      split; [done|]. split; [destruct done; auto | done].
  - exists st, []. split; [done|]. split; [lia|]. split; [simpl; lia|]. done.
Qed.

End WarmingUp.

(** X12 (Main.py, [explore_before_train]).
    [explore_before_train] on a new buffer, built as [train_and_evaluate]
    builds it (with the width of the states of the environment, and one
    action entry when actions are discrete), returns [target_step] (given
    fuel for its loop) after appending [target_step] entries, each with a
    mask of [0] or [gamma] and an action of one integer (discrete) or of
    [action_dim] entries; with two steps or more and a capacity of two or
    more, the pre-training [update_policy] that [train_and_evaluate] runs
    next finds enough entries and makes its [max_step * repeat_times]
    passes. *)
Theorem explore_before_train_fills {E : Type} (env_reset : E → E * row)
    (env_step : E → action → E * (row * Q * bool))
    junk_s junk_o cap state_dim
    fuel (if_discrete : bool) action_dim rng uniform (e : E) max_step reward_scale gamma
    rng' batch_size repeat_times :
  2 ≤ cap → 2 ≤ max_step → max_step < fuel → 0 < repeat_times →
  (if_discrete = true → 0 < action_dim) →
  (∀ e, length (env_reset e).2 = state_dim) →
  (∀ e a, length (env_step e a).2.1.1 = state_dim) →
  let buffer := ReplayBufferGPU.init junk_s junk_o cap state_dim
                  (if if_discrete then 1 else action_dim) false in
  ∃ st new,
    Main.explore_before_train env_reset env_step fuel if_discrete action_dim rng uniform e
      buffer max_step reward_scale gamma = Some st
    ∧ Main.wu_steps st = max_step
    ∧ length new = max_step
    ∧ ReplayBufferGPU.append_all buffer new = Some (Main.wu_buffer st)
    ∧ Forall (λ e : row * row,
                ∃ r m a, e.2 = r :: m :: a ∧ (m = 0%Q ∨ m = gamma)
                         ∧ (if if_discrete then length a = 1 else length a = action_dim))
             new
    ∧ performs (AgentDQN.update_policy rng' (Main.wu_buffer st) max_step batch_size
                  repeat_times)
               (max_step * repeat_times) (max_step * repeat_times) 0.
Proof.
  intros Hcap Hmax Hfuel Hrep Hdim Hreset Hstep buffer.
  assert (Hwf : ReplayBufferBase.wf cap buffer).
  { by destruct (gpu_init_holds junk_s junk_o cap state_dim
                   (if if_discrete then 1 else action_dim) false ltac:(lia)). }
  pose proof (gpu_init_shaped junk_s junk_o cap state_dim
                (if if_discrete then 1 else action_dim) false) as Hshape.
  fold buffer in Hshape. unfold ReplayBufferGPU.other_dim in Hshape.
  unfold Main.explore_before_train.
  pose proof (Hreset e) as Hstate0.
  destruct (env_reset e) as [e0 state0]. simpl in Hstate0.
  destruct (explore_loop_appends env_reset env_step state_dim Hreset Hstep
              cap fuel if_discrete action_dim rng
              uniform max_step reward_scale gamma (Main.mk_warmup e0 state0 0 buffer)
              ltac:(lia) Hwf Hshape Hstate0 Hdim ltac:(simpl; lia))
    as (st & new & Hrun & Hsteps & Hnew & Hall & Hmask).
  simpl in Hsteps, Hnew, Hall.
  exists st, new. split; [done|]. split; [lia|]. split; [lia|]. split; [done|].
  split; [done|].
  assert (Hreach : ReplayBufferGPU.reachable buffer (Main.wu_buffer st))
    by (eexists; exact Hall).
  assert (Hcap0 : 0 < cap) by lia.
  destruct (gpu_reachable_wf _ _ _ _ _ _ _ Hcap0 Hreach) as [Hwfb _].
  destruct (gpu_run_appended _ _ cap _ _ _ _ _ Hcap0 Hall) as (_ & Hidx & Hfull).
  assert (Happended : appended_gpu ((λ e : row * row, ReplayBufferGPU.Append e.1 e.2) <$> new)
                      = length new).
  { unfold appended_gpu. clear. induction new as [|x new IH] using rev_ind; [done|].
    rewrite fmap_app, foldl_app, length_app. simpl. rewrite IH. lia. }
  rewrite Happended in Hidx, Hfull.
  assert (Hnow : 2 ≤ ReplayBufferBase.now_len
                       (ReplayBufferBase.update__now_len__before_sample (Main.wu_buffer st))).
  { simpl. destruct (ReplayBufferBase.if_full (Main.wu_buffer st)) eqn:Hf.
    - rewrite (ReplayBufferBase.wf_cap _ _ Hwfb). lia.
    - assert (¬ cap ≤ length new) by (intros H; by apply Hfull in H).
      rewrite Hidx, Nat.mod_small by lia. lia. }
  assert (Hone : ∀ target e0,
            count (is_sync target)
              (concat ((λ _, [e0]) <$> range (max_step * repeat_times)))
            = max_step * repeat_times * count (is_sync target) [e0]).
  { intros target e1.
    rewrite (count_concat_const _ _ _ (count (is_sync target) [e1])); [|done].
    unfold range. by rewrite length_seq. }
  apply (off_policy_update_performs _ rng' cap (Main.wu_buffer st) max_step batch_size
           repeat_times (max_step * repeat_times) 0 Hwfb Hnow ltac:(nia)); try done.
  - rewrite Hone, count_cons. simpl. rewrite count_nil. lia.
  - rewrite Hone, count_cons. simpl. rewrite count_nil. lia.
Qed.

Lemma explore_before_train_fills_witness :
  let env_reset (e : nat) : nat * row := (0, [0%Q]) in
  let env_step (e : nat) (a : action) : nat * (row * Q * bool) :=
    (e + 1, ([inject_Z (Z.of_nat (e + 1))], 1%Q, e =? 1)) in
  ∃ st,
    Main.explore_before_train env_reset env_step 4 true 2 (λ k, k) (λ _, 0%Q) 0
      (ReplayBufferGPU.init (λ _ _, 0%Q) (λ _ _, 0%Q) 4 1 1 false) 3 1 (99 # 100) = Some st
    ∧ Main.wu_steps st = 3
    ∧ performs (AgentDQN.update_policy (λ k, k) (Main.wu_buffer st) 3 2 1) 3 3 0.
Proof.
  intros env_reset env_step.
  destruct (explore_before_train_fills env_reset env_step (λ _ _, 0%Q) (λ _ _, 0%Q) 4 1
              4 true 2 (λ k, k) (λ _, 0%Q) 0 3 1 (99 # 100) (λ k, k) 2 1)
    as (st & new & Hrun & Hsteps & _ & _ & _ & Hupdate);
    [lia | lia | lia | lia | lia | intros e; reflexivity | intros e a; reflexivity |].
  exists st. done.
Defined.

(** ** From the on-policy collect phase to [sample_for_ppo] *)

(** X13 (AgentZoo.py, [AgentPPO.update_buffer]; Main.py, [sample_for_ppo]).
    After [AgentPPO.update_buffer] (on a buffer built for the widths of the
    states of the environment and of the actions and noises of the policy,
    under the conditions of its loop) the refreshed buffer shows exactly the
    steps taken, and [sample_for_ppo] gives back, step by step and in order,
    the scaled reward and the mask of what [env.step] returned, the action
    and the noise that [get__action_noise] returned, and the state they were
    returned for: nothing is lost, wrapped or left over from earlier
    phases. *)
Theorem ppo_collect_then_sample {E G : Type}
    (env_reset : E → E * row) (env_step : E → row → E * (row * Q * bool))
    (get__action_noise : G → row → G * (row * row)) (tanh : Q → Q)
    junk_s junk_o cap state_dim action_dim fuel (e : E) (g : G) buffer
    max_step reward_scale gamma :
  ReplayBufferCPU.reachable
    (ReplayBufferCPU.init junk_s junk_o cap state_dim action_dim) buffer →
  (∀ e, length (env_reset e).2 = state_dim) →
  (∀ e a, length (env_step e a).2.1.1 = state_dim) →
  (∀ g state, length (get__action_noise g state).2.1 = action_dim) →
  (∀ g state, length (get__action_noise g state).2.2 = action_dim) →
  1 ≤ max_step → max_step < cap → cap ≤ fuel →
  ∃ st steps,
    AgentPPO.update_buffer env_reset env_step get__action_noise tanh
                           fuel e g buffer max_step reward_scale gamma = Some st
    ∧ ppo_trajectory env_reset env_step get__action_noise tanh e g steps
    ∧ ReplayBufferBase.now_len
        (ReplayBufferCPU.base
           (ReplayBufferCPU.update__now_len__before_sample (AgentPPO.buffer st)))
      = length steps
    ∧ ReplayBufferCPU.sample_for_ppo
        (ReplayBufferCPU.update__now_len__before_sample (AgentPPO.buffer st))
      = ((λ s, [(ps_reward s * reward_scale)%Q]) <$> steps,
         (λ s, [if ps_done s then 0%Q else gamma]) <$> steps,
         ps_action <$> steps,
         ps_noise <$> steps,
         ps_state <$> steps).
Proof.
  intros Hreach Hreset Hstep Haction Hnoise Hmax Hcap Hfuel.
  destruct (ppo_update_buffer_collecting env_reset env_step get__action_noise tanh
              junk_s junk_o cap state_dim action_dim fuel e g buffer max_step
              reward_scale gamma Hreach Hreset Hstep Haction Hnoise Hmax Hcap Hfuel)
    as (st & steps & Hrun & (Hholds & Hshape & Hif & Had & Hcount & Hlen & Htraj) & Hsteps).
  exists st, steps. split; [exact Hrun|]. split; [exact Htraj|].
  destruct (cpu_shows cap (AgentPPO.buffer st) (ppo_row reward_scale gamma <$> steps)
              ltac:(lia) Hholds Hif) as [Hnow Hcols].
  rewrite length_fmap in Hnow, Hcols.
  rewrite Nat.mod_small in Hnow by done.
  rewrite Nat.div_small, Nat.mul_0_r, drop_0, Had in Hcols by done.
  split; [exact Hnow|]. rewrite Hcols. unfold ppo_columns.
  rewrite <- !list_fmap_compose.
  destruct Htraj as (Heach & _ & _).
  assert (Hw : Forall (λ s : ppo_step E G, length (ps_action s) = action_dim) steps).
  { apply Forall_lookup. intros k s Hk. destruct (Heach k s Hk) as [Hpolicy _].
    pose proof (Haction (ps_gen s) (ps_state s)) as Hwa. by rewrite Hpolicy in Hwa. }
  assert (Hact : (take action_dim ∘ drop 2 ∘ snd ∘ ppo_row reward_scale gamma) <$> steps
                 = ps_action <$> steps).
  { apply Forall_fmap_ext_1. eapply Forall_impl; [exact Hw|]. intros s Hs. simpl.
    rewrite drop_0. by apply take_app_length'. }
  assert (Hnz : (drop (2 + action_dim) ∘ snd ∘ ppo_row reward_scale gamma) <$> steps
                = ps_noise <$> steps).
  { apply Forall_fmap_ext_1. eapply Forall_impl; [exact Hw|]. intros s Hs. simpl.
    by apply drop_app_length'. }
  rewrite Hact, Hnz. done.
Qed.

Lemma ppo_collect_then_sample_witness :
  let env_reset (e : nat) : nat * row := (e, [0%Q]) in
  let env_step (e : nat) (action : row) : nat * (row * Q * bool) :=
    (e + 1, ([hd 0%Q action], hd 0%Q action, e `mod` 2 =? 1)) in
  let get__action_noise (g : nat) (state : row) : nat * (row * row) :=
    (g + 1, ([inject_Z (Z.of_nat g) + 2], [1])%Q) in
  let tanh (x : Q) : Q := (x / 2)%Q in
  let buffer := ReplayBufferCPU.init (λ _ _, 0%Q) (λ _ _, 0%Q) 4 1 1 in
  ∃ st steps,
    AgentPPO.update_buffer env_reset env_step get__action_noise tanh
                           4 0 0 buffer 2 1 (99 # 100) = Some st
    ∧ ppo_trajectory env_reset env_step get__action_noise tanh 0 0 steps
    ∧ (ReplayBufferCPU.sample_for_ppo
         (ReplayBufferCPU.update__now_len__before_sample (AgentPPO.buffer st))).1.1.2
      = ps_action <$> steps.
Proof.
  intros env_reset env_step get__action_noise tanh buffer.
  destruct (ppo_collect_then_sample env_reset env_step get__action_noise tanh
              (λ _ _, 0%Q) (λ _ _, 0%Q) 4 1 1 4 0 0 buffer 2 1 (99 # 100))
    as (st & steps & Hrun & Htraj & _ & Hcols).
  - exists []. reflexivity.
  - intros e. reflexivity.
  - intros e a. reflexivity.
  - intros g state. reflexivity.
  - intros g state. reflexivity.
  - lia.
  - lia.
  - lia.
  - exists st, steps. split; [exact Hrun|]. split; [exact Htraj|]. by rewrite Hcols.
Defined.

(** ** The actor updates of [AgentModSAC] *)

Section Gate.
Local Open Scope Q_scope.

(** [update_a / update_c < 1 / (2 - lamb)], without the divisions. *)
Lemma gate_iff (a c l : Q) :
  0 < c → l <= 1 →
  (Qltb (a / c) (1 / (2 - l)) = true ↔ a * (2 - l) < c).
Proof.
  intros Hc Hl. rewrite Qltb_lt.
  assert (Hd : 0 < 2 - l) by lra.
  assert (Heq : 1 / (2 - l) * c == c / (2 - l)) by (field; lra).
  split.
  - intros Hlt. apply Qnot_le_lt. intros Hle.
    assert (1 / (2 - l) <= a / c); [|lra].
    apply Qle_shift_div_l; [done|]. rewrite Heq.
    apply Qle_shift_div_r; [done|]. done.
  - intros Hlt. apply Qlt_shift_div_r; [done|]. rewrite Heq.
    by apply Qlt_shift_div_l.
Qed.

End Gate.

(** The counter of actor updates stays between half the passes made and
    the passes made. *)
Lemma modsac_gate_loop rng lamb b batch_size_ len start trace update_a st' :
  (∀ c, (0 < lamb c)%Q ∧ (lamb c <= 1)%Q) →
  1 ≤ start → start - 1 ≤ 2 * update_a → update_a ≤ start - 1 →
  for_each (seq start len) (AgentModSAC.body rng lamb b batch_size_) (trace, update_a)
  = Some st' →
  start + len - 1 ≤ 2 * st'.2 ∧ st'.2 ≤ start + len - 1.
Proof.
  intros Hlamb. revert start trace update_a.
  induction len as [|len IH]; intros start trace update_a Hstart Hlo Hhi Hrun.
  - injection Hrun as <-. simpl. lia.
  - cbn [seq for_each AgentModSAC.body] in Hrun.
    destruct (ReplayBufferGPU.random_sample _ b batch_size_); [|done].
    destruct (Hlamb start) as [Hl0 Hl1].
    assert (Hc : (0 < inject_Z (Z.of_nat start))%Q).
    { replace 0%Q with (inject_Z 0) by done. rewrite <- Zlt_Qlt. lia. }
    assert (Ha : (0 <= inject_Z (Z.of_nat update_a))%Q).
    { replace 0%Q with (inject_Z 0) by done. rewrite <- Zle_Qle. lia. }
    pose proof (gate_iff (inject_Z (Z.of_nat update_a)) (inject_Z (Z.of_nat start))
                  (lamb start) Hc Hl1) as Hgate.
    destruct (Qltb _ _) eqn:Hcmp.
    + apply IH in Hrun; [lia | lia | lia |].
      assert (inject_Z (Z.of_nat update_a) < inject_Z (Z.of_nat start))%Q as Hlt.
      { pose proof (proj1 Hgate eq_refl). nra. }
      rewrite <- Zlt_Qlt in Hlt. lia.
    + apply IH in Hrun; [lia | lia | | lia].
      assert (inject_Z (Z.of_nat start) <= inject_Z (Z.of_nat (2 * update_a)))%Q as Hle.
      { rewrite Nat2Z.inj_mul, inject_Z_mult.
        assert (¬ (inject_Z (Z.of_nat update_a) * (2 - lamb start)
                   < inject_Z (Z.of_nat start))%Q) as Hn.
        { intros H. apply Hgate in H. congruence. }
        apply Qnot_lt_le in Hn.
        change (inject_Z (Z.of_nat 2)) with 2%Q. nra. }
      rewrite <- Zle_Qle in Hle. lia.
Qed.

(** X14 (AgentZoo.py, [AgentModSAC.update_policy]).
    Whatever the critic loss is ([lamb] in [(0, 1]]), [AgentModSAC]
    synchronises the critic target in every pass and the actor target in at
    least half of the passes and at most all of them (when the floats of
    [batch_size_] and [train_steps] do not overflow). *)
Theorem modsac_actor_update_share cap b rng lamb max_step batch_size repeat_times :
  0 < cap → reachable_buffer_gpu cap b →
  2 ≤ ReplayBufferBase.now_len (ReplayBufferBase.update__now_len__before_sample b) →
  (∀ c, (0 < lamb c)%Q ∧ (lamb c <= 1)%Q) →
  is_Some (AgentModSAC.batch_size_
             (ReplayBufferBase.update__now_len__before_sample b) batch_size) →
  is_Some (AgentModSAC.train_steps
             (ReplayBufferBase.update__now_len__before_sample b) max_step repeat_times) →
  ∃ buffer trace,
    AgentModSAC.update_policy rng lamb b max_step batch_size repeat_times
    = Some (buffer, trace)
    ∧ count (is_sync CriTarget) trace = count is_step trace
    ∧ count is_step trace ≤ 2 * count (is_sync ActTarget) trace
    ∧ count (is_sync ActTarget) trace ≤ count is_step trace.
Proof.
  intros Hcap (js & jo & sd & ad & p & Hb) Hnow Hlamb [batch_size_ Hbatch]
         [train_steps Hsteps].
  destruct (gpu_reachable_wf js jo cap sd ad p b Hcap Hb) as [Hwf _].
  pose proof (refresh_wf _ _ Hwf) as Hwf'.
  unfold AgentModSAC.update_policy. cbn zeta. rewrite Hbatch, Hsteps.
  destruct (modsac_loop rng lamb cap _ batch_size_ (range_from 1 train_steps) [] 0 Hwf' Hnow)
    as (trace' & update_a' & Hrun & Hs & _ & Hc & Ha & _).
  pose proof (modsac_gate_loop rng lamb _ batch_size_ (train_steps - 1) 1 [] 0 _ Hlamb
                ltac:(lia) ltac:(lia) ltac:(lia) Hrun) as [Hlo Hhi].
  rewrite Hrun. simpl in Hlo, Hhi.
  assert (Hlen : length (range_from 1 train_steps) = train_steps - 1) by apply length_seq.
  rewrite Hlen in *.
  eexists _, _. split; [reflexivity|]. cbn [app]. lia.
Qed.

Lemma modsac_actor_update_share_witness :
  let b := ReplayBufferBase.mk 4 0 3 false
             [[1]; [2]; [3]; [0]]%Q
             [[1; 1; 1]; [2; 1; 2]; [3; 1; 3]; [0; 0; 0]]%Q in
  ∃ buffer trace,
    AgentModSAC.update_policy (λ k, k) (λ _, 1 # 2) b 4 2 1 = Some (buffer, trace)
    ∧ count is_step trace ≤ 2 * count (is_sync ActTarget) trace.
Proof.
  intros b.
  destruct (modsac_actor_update_share 4 b (λ k, k) (λ _, 1 # 2) 4 2 1)
    as (buffer & trace & Hrun & _ & Hshare & _).
  - lia.
  - exists (λ _ _, 0%Q), (λ _ _, 0%Q), 1, 1, false.
    exists [ReplayBufferGPU.Append [1%Q] [1; 1; 1]%Q;
            ReplayBufferGPU.Append [2%Q] [2; 1; 2]%Q;
            ReplayBufferGPU.Append [3%Q] [3; 1; 3]%Q].
    reflexivity.
  - simpl. lia.
  - intros c. split; [reflexivity | unfold Qle; simpl; lia].
  - exists 3. vm_compute. reflexivity.
  - exists 7. vm_compute. reflexivity.
  - exists buffer, trace. split; [exact Hrun | exact Hshare].
Defined.

(** ** The evaluator over a run of evaluations *)

Section EvaluatorRuns.
Local Open Scope Q_scope.

(** The average returns of a run of evaluations. *)
Local Abbreviation r_avgs runs := ((λ x : nat * Q * nat, x.1.2) <$> runs).

Lemma evaluations_snoc self runs now r_avg steps :
  evaluations self (runs ++ [(now, r_avg, steps)])
  = (Evaluator.evaluate_and_save (evaluations self runs) now r_avg steps).1.
Proof. unfold evaluations. now rewrite foldl_app. Qed.

Lemma Qltb_ge a b : Qltb a b = false ↔ b <= a.
Proof.
  split.
  - intros H. apply Qnot_lt_le. intros Hlt. apply Qltb_lt in Hlt. congruence.
  - intros H. destruct (Qltb a b) eqn:E; [|done].
    apply Qltb_lt in E. exfalso. exact (Qlt_not_le _ _ E H).
Qed.

(** What a run of evaluations keeps true of a new evaluator. *)
Lemma evaluations_invariant (target : Q) (runs : list (nat * Q * nat)) :
  let self := evaluations (Evaluator.init target) runs in
  Evaluator.total_step self = sum_list (snd <$> runs)
  ∧ Evaluator.target_reward self = target
  ∧ match Evaluator.r_max self with
    | None => runs = []
    | Some m => m ∈ r_avgs runs ∧ Forall (λ r, r <= m) (r_avgs runs)
    end
  ∧ match Evaluator.used_time self with
    | None => Forall (λ r, r <= target) (r_avgs runs)
    | Some u =>
        ∃ before r_avg steps after,
          runs = before ++ (u, r_avg, steps) :: after
          ∧ Forall (λ r, r <= target) (r_avgs before)
          ∧ target < r_avg
    end.
Proof.
  induction runs as [|[[now r_avg] steps] runs IH] using rev_ind.
  { cbn. repeat split; constructor. }
  cbn zeta in *. rewrite evaluations_snoc.
  destruct IH as (Hsteps & Htarget & Hmax & Hused).
  set (self := evaluations (Evaluator.init target) runs) in *.
  rewrite !fmap_app, sum_list_with_app. cbn [fmap list_fmap sum_list sum_list_with].
  unfold Evaluator.evaluate_and_save, Evaluator.solved. cbn.
  rewrite Htarget.
  split; [rewrite Hsteps; lia|]. split; [done|].
  assert (Hnew : ∃ m, (match Evaluator.r_max self with
                       | Some m => if Qltb m r_avg then Some r_avg else Some m
                       | None => Some r_avg
                       end) = Some m
                 ∧ m ∈ r_avgs runs ++ [r_avg]
                 ∧ Forall (λ r, r <= m) (r_avgs runs ++ [r_avg])
                 ∧ (m = r_avg ∨ m ∈ r_avgs runs)).
  { destruct (Evaluator.r_max self) as [m|].
    - destruct Hmax as [Hin Hall]. destruct (Qltb m r_avg) eqn:Hlt.
      + apply Qltb_lt in Hlt. exists r_avg. split; [done|].
        split; [apply elem_of_app; right; apply list_elem_of_singleton; done|].
        split; [|now left].
        apply Forall_app. split.
        * eapply Forall_impl; [exact Hall|]. cbn. intros r Hr.
          apply Qle_trans with m; [done|]. now apply Qlt_le_weak.
        * constructor; [apply Qle_refl|constructor].
      + apply Qltb_ge in Hlt. exists m. split; [done|].
        split; [apply elem_of_app; now left|]. split; [|now right].
        apply Forall_app. split; [done|]. constructor; [done|constructor].
    - subst runs. exists r_avg. split; [done|].
      split; [apply list_elem_of_singleton; done|]. split; [|now left].
      constructor; [apply Qle_refl|constructor]. }
  destruct Hnew as (m & Hm & Hin & Hall & Hwhich).
  assert (Hm' : (if match Evaluator.r_max self with
                    | Some m => Qltb m r_avg | None => true end
                 then Some r_avg else Evaluator.r_max self) = Some m).
  { destruct (Evaluator.r_max self) as [m0|]; [|done].
    destruct (Qltb m0 r_avg); done. }
  rewrite Hm'. split; [done|].
  destruct (Evaluator.used_time self) as [u|].
  - destruct Hused as (before & r & s & after & -> & Hbefore & Hr).
    exists before, r, s, (after ++ [(now, r_avg, steps)]).
    split; [now rewrite <- app_assoc|done].
  - destruct (Qltb target m) eqn:Hsolved.
    + apply Qltb_lt in Hsolved.
      exists runs, r_avg, steps, []. split; [done|]. split; [done|].
      destruct Hwhich as [->|Hold]; [done|].
      exfalso. rewrite Forall_forall in Hused. specialize (Hused _ Hold).
      exact (Qlt_not_le _ _ Hsolved Hused).
    + apply Qltb_ge in Hsolved. apply Forall_app. split; [done|].
      constructor; [|constructor].
      rewrite Forall_app in Hall. destruct Hall as [_ Hall].
      apply Forall_inv in Hall. cbn in Hall.
      apply Qle_trans with m; [exact Hall | exact Hsolved].
Qed.

(** X15 (Main.py, [Evaluator.evaluate_and_save]).  After any run of
    evaluations on a new evaluator, [total_step] is the sum of the steps
    reported, [r_max] is the largest of the average returns measured ([-inf]
    when there was none), the evaluator calls the task solved exactly when
    some average return was above the target, and [used_time] is the clock
    of the first such evaluation, unset while there was none. *)
Theorem evaluations_summary (target : Q) (runs : list (nat * Q * nat)) :
  let self := evaluations (Evaluator.init target) runs in
  Evaluator.total_step self = sum_list (snd <$> runs)
  ∧ match Evaluator.r_max self with
    | None => runs = []
    | Some m => m ∈ r_avgs runs ∧ Forall (λ r, r <= m) (r_avgs runs)
    end
  ∧ (Evaluator.solved self = true ↔ Exists (λ r, target < r) (r_avgs runs))
  ∧ match Evaluator.used_time self with
    | None => Forall (λ r, r <= target) (r_avgs runs)
    | Some u =>
        ∃ before r_avg steps after,
          runs = before ++ (u, r_avg, steps) :: after
          ∧ Forall (λ r, r <= target) (r_avgs before)
          ∧ target < r_avg
    end.
Proof.
  cbn zeta.
  destruct (evaluations_invariant target runs) as (Hsteps & Htarget & Hmax & Hused).
  split; [done|]. split; [done|]. split; [|done].
  unfold Evaluator.solved. rewrite Htarget.
  destruct (Evaluator.r_max _) as [m|].
  - destruct Hmax as [Hin Hall]. rewrite Qltb_lt, Exists_exists. split.
    + intros Hlt. now exists m.
    + intros (r & Hr & Hlt). rewrite Forall_forall in Hall.
      apply Qlt_le_trans with r; [done|]. now apply Hall.
  - subst runs. split; [done|]. intros H. inversion H.
Qed.

(** X16 (Main.py, [Evaluator.evaluate_and_save]).  An evaluation asks for a
    checkpoint ([if_save]) exactly when its average return is strictly above
    those of all evaluations before it: the first one always does, and a
    return that only ties the best one does not. *)
Theorem evaluate_and_save_strict_best (target : Q) (before : list (nat * Q * nat))
    (now : nat) (r_avg : Q) (steps : nat) :
  (Evaluator.evaluate_and_save (evaluations (Evaluator.init target) before)
                               now r_avg steps).2 = true
  ↔ Forall (λ r, r < r_avg) (r_avgs before).
Proof.
  destruct (evaluations_invariant target before) as (_ & _ & Hmax & _).
  cbn zeta in Hmax. unfold Evaluator.evaluate_and_save. cbn [snd].
  destruct (Evaluator.r_max _) as [m|].
  - destruct Hmax as [Hin Hall]. rewrite Qltb_lt. split.
    + intros Hlt. eapply Forall_impl; [exact Hall|]. cbn. intros r Hr.
      now apply Qle_lt_trans with m.
    + intros H. rewrite Forall_forall in H. now apply H.
  - subst before. split; [constructor|done].
Qed.

End EvaluatorRuns.

(** ** The training loop *)

Lemma sum_list_steps_ge (f : nat → nat) (a n : nat) :
  (∀ k, 1 ≤ f k) → n ≤ sum_list (f <$> seq a n).
Proof.
  intros Hf. revert a. induction n as [|n IH]; intros a; [done|].
  cbn. specialize (IH (S a)). specialize (Hf a).
  change (foldr Nat.add 0 (f <$> seq (S a) n)) with (sum_list (f <$> seq (S a) n)) in *.
  unfold sum_list in *. lia.
Qed.

Lemma loop_body_fields (w : Main.world) (st : Main.loop) :
  Main.total_step (Main.loop_body w st)
  = Main.total_step st + Main.steps_of w (Main.passes st)
  ∧ Evaluator.total_step (Main.evaluator (Main.loop_body w st))
    = Evaluator.total_step (Main.evaluator st) + Main.steps_of w (Main.passes st)
  ∧ Main.passes (Main.loop_body w st) = S (Main.passes st)
  ∧ Main.if_solve (Main.loop_body w st) = Main.if_solve st.
Proof.
  unfold Main.loop_body.
  destruct (Evaluator.evaluate_and_save _ _ _ _) as [evaluator if_save] eqn:Hev.
  cbn. repeat split; try lia.
  unfold Evaluator.evaluate_and_save in Hev. injection Hev as <- _. reflexivity.
Qed.

(** The loop from any of its states: with a step or more a pass it comes
    to an end, at the first reading of its condition that finds the budget
    spent or the stop file. *)
Lemma train_loop_returns fuel if_break_early break_step (w : Main.world) (st : Main.loop) :
  Main.if_solve st = false →
  (∀ k, 1 ≤ Main.steps_of w k) →
  break_step + 1 - Main.total_step st < fuel →
  ∃ st',
    Main.train_loop fuel if_break_early break_step w st = Some st'
    ∧ Main.passes st ≤ Main.passes st'
    ∧ (break_step < Main.total_step st' ∨ Main.stop_exists w (Main.passes st') = true)
    ∧ Main.total_step st'
      = Main.total_step st
        + sum_list (Main.steps_of w <$> seq (Main.passes st) (Main.passes st' - Main.passes st))
    ∧ Evaluator.total_step (Main.evaluator st')
      = Evaluator.total_step (Main.evaluator st)
        + sum_list (Main.steps_of w <$> seq (Main.passes st) (Main.passes st' - Main.passes st))
    ∧ ∀ k, Main.passes st ≤ Main.passes st + k < Main.passes st' →
        Main.stop_exists w (Main.passes st + k) = false
        ∧ Main.total_step st + sum_list (Main.steps_of w <$> seq (Main.passes st) k)
          ≤ break_step.
Proof.
  intros Hsolve Hsteps. revert st Hsolve.
  induction fuel as [|fuel IH]; intros st Hsolve Hfuel; [lia|].
  cbn [Main.train_loop]. unfold Main.stop_condition. rewrite Hsolve, andb_false_r.
  cbn [orb].
  destruct (break_step <? Main.total_step st) eqn:Hbudget.
  { apply Nat.ltb_lt in Hbudget. exists st. rewrite Nat.sub_diag. cbn.
    repeat split; lia. }
  apply Nat.ltb_ge in Hbudget. cbn [orb].
  destruct (Main.stop_exists w (Main.passes st)) eqn:Hstop.
  { exists st. rewrite Nat.sub_diag. cbn. repeat split; try lia. now right. }
  destruct (loop_body_fields w st) as (Htotal & Heval & Hpasses & Hsolve').
  pose proof (Hsteps (Main.passes st)) as Hone.
  destruct (IH (Main.loop_body w st)) as (st' & Hrun & Hle & Hend & Hsum & Hevsum & Hmin).
  { now rewrite Hsolve'. }
  { lia. }
  rewrite Hpasses, Htotal in *. rewrite Heval in Hevsum.
  exists st'. split; [done|]. split; [lia|]. split; [done|].
  replace (Main.passes st' - Main.passes st) with (S (Main.passes st' - S (Main.passes st)))
    by lia.
  cbn [seq]. rewrite !(fmap_cons (Main.steps_of w)).
  change (sum_list (?x :: ?l)) with (x + sum_list l).
  split; [lia|]. split; [lia|].
  intros [|k] Hk.
  - rewrite Nat.add_0_r. cbn. split; [done|lia].
  - destruct (Hmin k) as [Hnostop Hunder]; [lia|].
    replace (Main.passes st + S k) with (S (Main.passes st) + k) by lia.
    split; [done|]. cbn [seq]. rewrite fmap_cons.
    change (sum_list (?x :: ?l)) with (x + sum_list l). lia.
Qed.

(** X17 (Main.py, [train_and_evaluate]).  When the calls of its passes
    return and every call of [update_buffer] reports a step or more, the loop
    comes to an end within [break_step + 1 - steps] passes.  It ends at the first reading of its
    condition that finds [total_step] above [break_step] or the stop file;
    [total_step] is then the steps of the warm-up plus those of all passes,
    and the evaluator has counted the steps of the passes only. *)
Theorem train_and_evaluate_stops fuel if_break_early break_step target_reward
    (w : Main.world) (steps : nat) :
  (∀ k, 1 ≤ Main.steps_of w k) →
  break_step + 1 - steps < fuel →
  ∃ st,
    Main.train_and_evaluate fuel if_break_early break_step target_reward w steps = Some st
    ∧ (break_step < Main.total_step st ∨ Main.stop_exists w (Main.passes st) = true)
    ∧ (∀ k, k < Main.passes st →
         Main.stop_exists w k = false
         ∧ steps + sum_list (Main.steps_of w <$> seq 0 k) ≤ break_step)
    ∧ Main.passes st ≤ break_step + 1 - steps
    ∧ Main.total_step st = steps + sum_list (Main.steps_of w <$> seq 0 (Main.passes st))
    ∧ Evaluator.total_step (Main.evaluator st)
      = sum_list (Main.steps_of w <$> seq 0 (Main.passes st)).
Proof.
  intros Hsteps Hfuel. unfold Main.train_and_evaluate.
  destruct (train_loop_returns fuel if_break_early break_step w
              {| Main.total_step := steps; Main.if_solve := false;
                 Main.evaluator := Evaluator.init target_reward; Main.passes := 0 |})
    as (st & Hrun & _ & Hend & Hsum & Hevsum & Hmin); [done|done|cbn; lia|].
  cbn in Hsum, Hevsum, Hmin. rewrite Nat.sub_0_r in Hsum, Hevsum.
  exists st. split; [done|]. split; [done|].
  split; [intros k Hk; apply (Hmin k); lia|].
  split; [|done].
  destruct (Main.passes st) as [|n] eqn:Hn; [lia|].
  destruct (Hmin n) as [_ Hunder]; [lia|].
  pose proof (sum_list_steps_ge (Main.steps_of w) 0 n Hsteps). lia.
Qed.

Lemma train_and_evaluate_stops_witness :
  let w := Main.mk_world (λ _, 3) (λ _, 0%Q) (λ _, false) (λ k, k) in
  ∃ st,
    Main.train_and_evaluate 7 true 5 1%Q w 0 = Some st
    ∧ (5 < Main.total_step st ∨ Main.stop_exists w (Main.passes st) = true)
    ∧ (∀ k, k < Main.passes st →
         Main.stop_exists w k = false
         ∧ 0 + sum_list (Main.steps_of w <$> seq 0 k) ≤ 5)
    ∧ Main.passes st ≤ 5 + 1 - 0
    ∧ Main.total_step st = 0 + sum_list (Main.steps_of w <$> seq 0 (Main.passes st))
    ∧ Evaluator.total_step (Main.evaluator st)
      = sum_list (Main.steps_of w <$> seq 0 (Main.passes st)).
Proof.
  intros w. apply (train_and_evaluate_stops 7 true 5 1%Q w 0).
  - intros k. cbn. lia.
  - lia.
Defined.

(** ** The return estimators at the end of an episode *)

Section EpisodeEnd.
Local Open Scope Q_scope.

Lemma Qlist_eq_hd (l k : list Q) : Qlist_eq l k → hd 0 l == hd 0 k.
Proof. intros H. destruct H; [reflexivity | done]. Qed.

Lemma hd_take_S (l : list Q) (i : nat) : hd 0 (take (S i) l) = hd 0 l.
Proof. by destruct l. Qed.

(** Behind a mask of [0] the returns do not look. *)
Lemma plain_return_cut (i : nat) (reward mask : list Q) (m : Q) :
  length reward = length mask → mask !! i = Some m → m == 0 →
  Qlist_eq (take (S i) (plain_return reward mask))
           (plain_return (take (S i) reward) (take (S i) mask)).
Proof.
  revert reward mask.
  induction i as [|i IH]; intros [|r reward] [|m0 mask] Hlen Hm Hm0; try done.
  - injection Hm as ->. cbn. constructor; [|constructor].
    rewrite Hm0. ring.
  - cbn in Hm. specialize (IH reward mask ltac:(simpl in Hlen; lia) Hm Hm0).
    change (take (S (S i)) (plain_return (r :: reward) (m0 :: mask)))
      with ((r + m0 * hd 0 (plain_return reward mask))
              :: take (S i) (plain_return reward mask)).
    change (plain_return (take (S (S i)) (r :: reward)) (take (S (S i)) (m0 :: mask)))
      with ((r + m0 * hd 0 (plain_return (take (S i) reward) (take (S i) mask)))
              :: plain_return (take (S i) reward) (take (S i) mask)).
    constructor; [|done].
    apply Qlist_eq_hd in IH. rewrite hd_take_S in IH. rewrite IH. reflexivity.
Qed.

(** Nor do the advantages, whatever [lambda] is. *)
Lemma gae_cut (lambda : Q) (i : nat) (reward mask value : list Q) (m : Q) :
  length reward = length mask → length mask = length value →
  mask !! i = Some m → m == 0 →
  Qlist_eq (take (S i) (gae lambda reward mask value).1)
           (gae lambda (take (S i) reward) (take (S i) mask) (take (S i) value)).1
  ∧ (gae lambda reward mask value).2
    == (gae lambda (take (S i) reward) (take (S i) mask) (take (S i) value)).2.
Proof.
  revert reward mask value.
  induction i as [|i IH]; intros [|r reward] [|m0 mask] [|v value] Hlen Hlen' Hm Hm0;
    try done.
  - injection Hm as ->. cbn [take]. rewrite !gae_cons. cbn [fst snd take gae].
    split; [constructor; [|constructor]|]; rewrite Hm0; ring.
  - cbn in Hm.
    destruct (IH reward mask value ltac:(simpl in Hlen; lia) ltac:(simpl in Hlen'; lia)
                 Hm Hm0) as [IHA IHprev].
    change (take (S (S i)) (r :: reward)) with (r :: take (S i) reward).
    change (take (S (S i)) (m0 :: mask)) with (m0 :: take (S i) mask).
    change (take (S (S i)) (v :: value)) with (v :: take (S i) value).
    rewrite !gae_cons. cbn [fst snd].
    change (take (S (S i)) (?x :: ?l)) with (x :: take (S i) l).
    split; [constructor; [|done]|]; rewrite IHprev; reflexivity.
Qed.

(** X18 (AgentZoo.py, the loops of [AgentPPO.update_policy] and
    [AgentGaePPO.update_policy]).  A step whose mask is [0] (the end of an
    episode) cuts the batch: the returns and the advantages of the steps up
    to it are those the estimator computes on these steps alone, whatever
    rewards, masks and values follow and whatever [lambda] is. *)
Theorem estimators_cut_at_episode_end junk_o junk_a (lambda : Q)
    (reward mask value : list Q) (n i : nat) (m : Q) :
  length reward = n → length mask = n → length value = n →
  mask !! i = Some m → m == 0 →
  ∃ R A R0 A0,
    AgentGaePPO.get__adv_v junk_o junk_a lambda reward mask value n = Some (R, A)
    ∧ AgentPPO.get__old_v junk_o reward mask n = Some R
    ∧ AgentGaePPO.get__adv_v junk_o junk_a lambda (take (S i) reward) (take (S i) mask)
                             (take (S i) value) (S i) = Some (R0, A0)
    ∧ Qlist_eq (take (S i) R) R0
    ∧ Qlist_eq (take (S i) A) A0.
Proof.
  intros Hr Hm Hv Hmask Hm0.
  pose proof (lookup_lt_Some _ _ _ Hmask) as Hi.
  do 4 eexists.
  split; [by apply get__adv_v_gae|].
  split; [by apply get__old_v_plain|].
  split; [apply get__adv_v_gae; rewrite length_take; lia|].
  split.
  - eapply plain_return_cut; [lia | done | done].
  - eapply (gae_cut lambda i reward mask value m); [lia | lia | done | done].
Qed.

Lemma estimators_cut_at_episode_end_witness :
  ∃ R A R0 A0,
    AgentGaePPO.get__adv_v (λ _, 0) (λ _, 0) (1 # 2) [1; 2; 3] [9 # 10; 0; 9 # 10]
                           [1 # 2; 1 # 4; 1 # 8] 3 = Some (R, A)
    ∧ AgentPPO.get__old_v (λ _, 0) [1; 2; 3] [9 # 10; 0; 9 # 10] 3 = Some R
    ∧ AgentGaePPO.get__adv_v (λ _, 0) (λ _, 0) (1 # 2) (take 2 [1; 2; 3])
                             (take 2 [9 # 10; 0; 9 # 10]) (take 2 [1 # 2; 1 # 4; 1 # 8]) 2
      = Some (R0, A0)
    ∧ Qlist_eq (take 2 R) R0
    ∧ Qlist_eq (take 2 A) A0.
Proof.
  apply (estimators_cut_at_episode_end (λ _, 0) (λ _, 0) (1 # 2) [1; 2; 3]
           [9 # 10; 0; 9 # 10] [1 # 2; 1 # 4; 1 # 8] 3 1 0);
    reflexivity.
Defined.

Lemma discounted_sum_weight (weight : Q) (reward mask : list Q) :
  weight * hd 0 (plain_return reward mask) == discounted_sum weight reward mask.
Proof.
  revert weight mask.
  induction reward as [|r reward IH]; intros weight [|m mask]; cbn; try ring.
  rewrite <- (IH (weight * m) mask). ring.
Qed.

(** X19 (AgentZoo.py, the loop of [AgentPPO.update_policy]).  The return
    of step [i] is the sum, over the steps from [i] on, of the reward times
    the product of the masks between step [i] and that step:
    [reward[i] + mask[i] * reward[i+1] + mask[i] * mask[i+1] * reward[i+2]
    + ...]. *)
Theorem old_v_is_discounted_sum junk (reward mask : list Q) (n i : nat) :
  length reward = n → length mask = n → (i < n)%nat →
  ∃ R x,
    AgentPPO.get__old_v junk reward mask n = Some R
    ∧ R !! i = Some x
    ∧ x == discounted_sum 1 (drop i reward) (drop i mask).
Proof.
  intros Hr Hm Hi.
  pose proof (length_plain_return reward mask ltac:(lia)) as HR.
  destruct (lookup_lt_is_Some_2 (plain_return reward mask) i ltac:(lia)) as [x Hx].
  exists (plain_return reward mask), x.
  split; [by apply get__old_v_plain|]. split; [done|].
  rewrite <- discounted_sum_weight, <- plain_return_drop.
  rewrite (drop_S _ x i Hx). cbn. ring.
Qed.

Lemma old_v_is_discounted_sum_witness :
  ∃ R x,
    AgentPPO.get__old_v (λ _, 0) [1; 2; 3] [1 # 2; 1 # 2; 0] 3 = Some R
    ∧ R !! 0%nat = Some x
    ∧ x == discounted_sum 1 (drop 0 [1; 2; 3]) (drop 0 [1 # 2; 1 # 2; 0]).
Proof.
  apply (old_v_is_discounted_sum (λ _, 0) [1; 2; 3] [1 # 2; 1 # 2; 0] 3 0);
    [reflexivity | reflexivity | lia].
Defined.

End EpisodeEnd.

(** ** The evaluation episode *)

Section Episode.
Local Open Scope Q_scope.
Context {E : Type}.
Variable env_reset : E → E * row.
Variable env_step : E → action → E * (row * Q * bool).

Lemma evaluate_loop_sums (act : row → row) (if_discrete : bool) (n : nat) :
  (if_discrete = true → ∀ state, act state ≠ []) →
  ∀ e state episode_return,
    ∃ e' episode_return' rewards,
      Main.evaluate_loop env_step act if_discrete n e state episode_return
      = Some (e', episode_return')
      ∧ episode_return' == episode_return + Qsum rewards
      ∧ evaluation env_step act if_discrete n e state rewards e'
      ∧ (length rewards ≤ n)%nat
      ∧ ((0 < n)%nat → (0 < length rewards)%nat).
Proof.
  intros Hact. induction n as [|n IH]; intros e state episode_return.
  { exists e, episode_return, []. cbn.
    split; [done|]. split; [ring|]. split; [constructor | lia]. }
  cbn [Main.evaluate_loop].
  assert (Haction : ∃ a,
             (if if_discrete then Discrete <$> argmax (act state)
              else Some (Continuous (act state))) = Some a
             ∧ actor_action act if_discrete state a).
  { unfold actor_action. destruct if_discrete; [|by eexists].
    destruct (argmax_spec (act state) (Hact eq_refl state)) as (a & qa & -> & Hqa & Hmax).
    eexists. split; [reflexivity|]. by exists a, qa. }
  destruct Haction as (a & -> & Ha).
  destruct (env_step e a) as [e1 [[state1 reward] done]] eqn:Hstep.
  destruct done.
  - exists e1, (episode_return + reward), [reward].
    split; [done|]. split; [unfold Qsum; cbn; ring|].
    split; [by eapply evaluation_done|]. cbn. lia.
  - destruct (IH e1 state1 (episode_return + reward))
      as (e' & ret' & rewards & Hrun & Hret & Heval & Hlen & _).
    exists e', ret', (reward :: rewards). split; [done|].
    split; [rewrite Hret; unfold Qsum; cbn; ring|].
    split; [by eapply evaluation_more|]. cbn. lia.
Qed.

(** X20 (Main.py, [get_episode_return]).  With an actor whose output is
    never empty when actions are discrete, the function returns after an
    episode that starts from [env.reset()], gives the action of the actor to
    [env.step] at each step, and ends at the first [done] or after
    [max_step] steps ([2 ** 10] when the environment has no attribute
    [max_step]); it returns the attribute [episode_return] of the
    environment when there is one and the sum of the rewards that [env.step]
    returned otherwise. *)
Theorem get_episode_return_sums (env_max_step : option nat)
    (env_episode_return : option (E → Q)) (if_discrete : bool) (act : row → row) (e : E) :
  (if_discrete = true → ∀ state, act state ≠ []) →
  ∃ e' episode_return rewards,
    Main.get_episode_return env_reset env_step env_max_step env_episode_return
                            if_discrete act e
    = Some (e', episode_return)
    ∧ evaluation env_step act if_discrete (default (2 ^ 10)%nat env_max_step)
                 (env_reset e).1 (env_reset e).2 rewards e'
    ∧ (length rewards ≤ default (2 ^ 10)%nat env_max_step)%nat
    ∧ ((0 < default (2 ^ 10)%nat env_max_step)%nat → (0 < length rewards)%nat)
    ∧ match env_episode_return with
      | Some attribute => episode_return = attribute e'
      | None => episode_return == Qsum rewards
      end.
Proof.
  intros Hact. unfold Main.get_episode_return.
  destruct (env_reset e) as [e0 state].
  destruct (evaluate_loop_sums act if_discrete (default (2 ^ 10)%nat env_max_step) Hact
              e0 state 0)
    as (e' & ret & rewards & -> & Hret & Heval & Hlen & Hpos).
  do 3 eexists. split; [reflexivity|]. split; [exact Heval|].
  split; [exact Hlen|]. split; [exact Hpos|].
  destruct env_episode_return; [done|]. rewrite Hret. ring.
Qed.

End Episode.

Lemma get_episode_return_sums_witness :
  let env_reset := λ e : nat, (0%nat, [0%Q]) in
  let env_step := λ (e : nat) (a : action),
    (S e, ([0%Q], inject_Z (Z.of_nat e + 1), 2 <=? e)) in
  let act := λ state : row, [0%Q; 1%Q] in
  ∃ e' episode_return rewards,
    Main.get_episode_return env_reset env_step (Some 5) None true act 0
    = Some (e', episode_return)
    ∧ evaluation env_step act true 5 0 [0%Q] rewards e'
    ∧ (episode_return == Qsum rewards)%Q.
Proof.
  intros env_reset env_step act.
  destruct (get_episode_return_sums env_reset env_step (Some 5) None true act 0)
    as (e' & ret & rewards & Hrun & Heval & _ & _ & Hret).
  - intros _ state. unfold act. discriminate.
  - exists e', ret, rewards. split; [exact Hrun|]. split; [exact Heval | exact Hret].
Defined.
